(** * aruba-compliance: exemption filter, configuration differ, token lifecycle

    A shallow embedding of [src/main.py] ([apply_exemptions],
    [compare_configs], [validate_mac_address], [main]) and of
    [src/aruba_central_api.py] (the class [ArubaCentralAPI]), with the
    properties the specification states about them and further
    properties of the code.

    Conventions.
    - A Python [str] is a [string]; its characters are the code points
      below 256.
    - A value obtained from [json.load] is a [json]; a [dict] is the list
      of its items in insertion order (keys are unique in a real dict, see
      [wf_json]).  Floating point numbers are outside the model.
    - A Python call that may raise returns a [result]. *)

From Stdlib Require Import ZArith Lia String Ascii Permutation DecimalString.
From stdpp Require Import base list sorting strings.

Local Open Scope string_scope.
Local Open Scope list_scope.
Arguments String.append : simpl nomatch.
Set Warnings "-register-all".

(** ** Python values and exceptions *)

Inductive json : Type :=
| JNull
| JBool (b : bool)
| JInt (z : Z)
| JStr (s : string)
| JArr (items : list json)
| JObj (members : list (string * json)).

Inductive exn : Type := AttributeError | TypeError.

Inductive result (A : Type) : Type :=
| Ok (a : A)
| Raise (e : exn).
Arguments Ok {A} a.
Arguments Raise {A} e.

Definition rbind {A B} (m : result A) (k : A -> result B) : result B :=
  match m with
  | Ok a => k a
  | Raise e => Raise e
  end.

Notation "x <-- m ;; k" := (rbind m (fun x => k))
  (at level 100, m at next level, right associativity).

(** ** [str] methods used by the filter *)

Definition chars (s : string) : list ascii := list_ascii_of_string s.

(** [str.isspace] on one character, for code points below 256. *)
Definition isspace (c : ascii) : bool :=
  let n := nat_of_ascii c in
  ((9 <=? n) && (n <=? 13) || (28 <=? n) && (n <=? 32)
   || (n =? 133) || (n =? 160))%nat.

Fixpoint lstrip (s : list ascii) : list ascii :=
  match s with
  | c :: s' => if isspace c then lstrip s' else s
  | [] => []
  end.

(** [s.strip()] *)
Definition strip (s : string) : string :=
  string_of_list_ascii (rev (lstrip (rev (lstrip (chars s))))).

(** [s.startswith(' ')] *)
Definition startswith_space (s : string) : bool :=
  match s with
  | String c _ => Ascii.eqb c " "
  | EmptyString => false
  end.

(** ** [fnmatch.fnmatch] on a POSIX host

    [os.path.normcase] is the identity there, so the call is
    [fnmatchcase]: the pattern is cut into tokens as [fnmatch.translate]
    does and the whole name has to match. *)

Inductive glob : Type :=
| GStar                      (* [*]: any run of characters *)
| GAny                       (* [?]: one character *)
| GNever                     (* a bracket whose ranges are all empty *)
| GSet (neg : bool) (singles : list ascii) (ranges : list (ascii * ascii))
| GLit (c : ascii).

Definition is_char (c : ascii) (d : string) : bool :=
  match d with
  | String e EmptyString => Ascii.eqb c e
  | _ => false
  end.

(** Where the bracket opened just before [s] closes: the length of
    [stuff], i.e. [j - i] in [translate]. *)
Fixpoint find_close (s : list ascii) : option nat :=
  match s with
  | [] => None
  | c :: s' => if is_char c "]" then Some 0%nat else S <$> find_close s'
  end.

Definition bracket_end (s : list ascii) : option nat :=
  let '(n1, s1) :=
    match s with
    | c :: s' => if is_char c "!" then (1%nat, s') else (0%nat, s)
    | [] => (0%nat, s)
    end in
  let '(n2, s2) :=
    match s1 with
    | c :: s' => if is_char c "]" then (S n1, s') else (n1, s1)
    | [] => (n1, s1)
    end in
  (fun k => n2 + k)%nat <$> find_close s2.

(** The chunks of [stuff] between the hyphens that act as range
    operators.  [skip] counts the characters in which a hyphen is not an
    operator ([k = i+1] or [i+2] at first, [k = k+3] after an operator). *)
Fixpoint chunks_from (skip : nat) (cur : list ascii) (s : list ascii)
  : list (list ascii) :=
  match s with
  | [] => [rev cur]
  | c :: s' =>
      match skip with
      | S k => chunks_from k (c :: cur) s'
      | O =>
          if is_char c "-"
          then rev cur :: chunks_from 2 [] s'
          else chunks_from 0 (c :: cur) s'
      end
  end.

(** [if chunk: chunks.append(chunk) else: chunks[-1] += '-'] *)
Fixpoint close_chunks (cs : list (list ascii)) : list (list ascii) :=
  match cs with
  | [] => []
  | [c] => [c]
  | [c; []] => [c ++ chars "-"]
  | c :: cs' => c :: close_chunks cs'
  end.

Definition ascii_ltb (a b : ascii) : bool :=
  (nat_of_ascii a <? nat_of_ascii b)%nat.

(** Removal of the empty ranges, from the right end of the list. *)
Fixpoint drop_empty_ranges (cs : list (list ascii)) : list (list ascii) :=
  match cs with
  | [] => []
  | c :: cs' =>
      match drop_empty_ranges cs' with
      | [] => [c]
      | d :: ds =>
          match last c, d with
          | Some lo, hi :: d' =>
              if ascii_ltb hi lo then (removelast c ++ d') :: ds
              else c :: d :: ds
          | _, _ => c :: d :: ds
          end
      end
  end.

Fixpoint chunk_ranges (cs : list (list ascii)) : list (ascii * ascii) :=
  match cs with
  | c :: cs' =>
      match last c, cs' with
      | Some lo, (hi :: _) :: _ => (lo, hi) :: chunk_ranges cs'
      | _, _ => chunk_ranges cs'
      end
  | [] => []
  end.

Definition has_hyphen (s : list ascii) : bool :=
  existsb (fun c => is_char c "-") s.

Definition bracket (stuff : list ascii) : glob :=
  let cs :=
    if has_hyphen stuff then
      let skip := match stuff with
                  | c :: _ => if is_char c "!" then 2%nat else 1%nat
                  | [] => 1%nat
                  end in
      drop_empty_ranges (close_chunks (chunks_from skip [] stuff))
    else [stuff] in
  match concat cs with
  | [] => GNever
  | c :: members =>
      if is_char c "!" then
        match members, cs with
        | [], _ => GAny
        | _, [_] :: ((_ :: _) as rest) =>
            (* the first chunk is the mark alone: the hyphen that joins
               it to the next chunk stands for itself *)
            GSet true (chars "-" ++ concat rest) (chunk_ranges rest)
        | _, _ => GSet true members (chunk_ranges cs)
        end
      else GSet false (c :: members) (chunk_ranges cs)
  end.

(** The [while i < n] loop of [translate]; [skip] characters have already
    been consumed by a bracket. *)
Fixpoint translate_from (skip : nat) (pat : list ascii) : list glob :=
  match pat with
  | [] => []
  | c :: pat' =>
      match skip with
      | S k => translate_from k pat'
      | O =>
          if is_char c "*" then GStar :: translate_from 0 pat'
          else if is_char c "?" then GAny :: translate_from 0 pat'
          else if is_char c "[" then
            match bracket_end pat' with
            | None => GLit c :: translate_from 0 pat'
            | Some n => bracket (take n pat') :: translate_from (S n) pat'
            end
          else GLit c :: translate_from 0 pat'
      end
  end.

Definition translate (pat : string) : list glob := translate_from 0 (chars pat).

Definition in_range (c : ascii) (r : ascii * ascii) : bool :=
  (nat_of_ascii (fst r) <=? nat_of_ascii c)%nat
  && (nat_of_ascii c <=? nat_of_ascii (snd r))%nat.

Definition glob_char (g : glob) (c : ascii) : bool :=
  match g with
  | GStar => false
  | GAny => true
  | GNever => false
  | GSet neg singles ranges =>
      xorb neg (existsb (Ascii.eqb c) singles || existsb (in_range c) ranges)
  | GLit d => Ascii.eqb c d
  end.

Fixpoint glob_match (gs : list glob) (s : list ascii) : bool :=
  match gs with
  | [] => match s with [] => true | _ => false end
  | GStar :: gs' =>
      (fix star (s : list ascii) : bool :=
         glob_match gs' s
         || match s with
            | [] => false
            | _ :: s' => star s'
            end) s
  | g :: gs' =>
      match s with
      | c :: s' => glob_char g c && glob_match gs' s'
      | [] => false
      end
  end.

Definition fnmatch (name pat : string) : bool :=
  glob_match (translate pat) (chars name).

(** ** The exemption filter: [apply_exemptions] *)

(** The three local variables of the function. *)
Record filter_state : Type := FilterState {
  filtered_config : list json;
  in_fully_exempt_block : bool;
  current_line_exemptions : list json
}.

Definition set_exempt (b : bool) (st : filter_state) : filter_state :=
  FilterState (filtered_config st) b (current_line_exemptions st).

Definition set_line_exemptions (l : list json) (st : filter_state)
  : filter_state :=
  FilterState (filtered_config st) (in_fully_exempt_block st) l.

Definition append_line (line : json) (st : filter_state) : filter_state :=
  FilterState (filtered_config st ++ [line]) (in_fully_exempt_block st)
    (current_line_exemptions st).

(** What the body of [if fnmatch.fnmatch(line, block_pattern):] does with
    the value [rules] of the matching entry, before its [break]. *)
Definition apply_rule (rules : json) (st : filter_state) : filter_state :=
  match rules with
  | JStr s => if String.eqb s "*" then set_exempt true st else st
  | JArr l => set_line_exemptions l st
  | _ => st
  end.

(** [for block_pattern, rules in exemption_rules.items(): ... break] *)
Fixpoint scan_rules (line : string) (exemption_rules : list (string * json))
    (st : filter_state) : filter_state :=
  match exemption_rules with
  | [] => st
  | (block_pattern, rules) :: rest =>
      if fnmatch line block_pattern then apply_rule rules st
      else scan_rules line rest st
  end.

(** [for line_pattern in current_line_exemptions: ... break]; the result
    is [is_line_exempt].  [fnmatch.fnmatch] raises [TypeError] on a
    pattern that is not a string. *)
Fixpoint line_exempt (name : string) (patterns : list json) : result bool :=
  match patterns with
  | [] => Ok false
  | JStr line_pattern :: rest =>
      if fnmatch name line_pattern then Ok true else line_exempt name rest
  | _ :: _ => Raise TypeError
  end.

(** One turn of [for line in config_list].  A line that is not a string
    has neither [strip] nor [startswith]. *)
Definition filter_line (exemption_rules : list (string * json))
    (st : filter_state) (line : json) : result filter_state :=
  match line with
  | JStr s =>
      if in_fully_exempt_block st then
        Ok (if String.eqb (strip s) "!" then set_exempt false st else st)
      else
        let is_header := negb (startswith_space s) in
        let st :=
          if is_header
          then scan_rules s exemption_rules (set_line_exemptions [] st)
          else st in
        if is_header && in_fully_exempt_block st then Ok st
        else
          is_line_exempt <-- line_exempt (strip s) (current_line_exemptions st) ;;
          if is_line_exempt then Ok st else Ok (append_line line st)
  | _ => Raise AttributeError
  end.

Fixpoint filter_lines (exemption_rules : list (string * json))
    (st : filter_state) (config_list : list json) : result filter_state :=
  match config_list with
  | [] => Ok st
  | line :: rest =>
      st' <-- filter_line exemption_rules st line ;;
      filter_lines exemption_rules st' rest
  end.

Definition apply_exemptions (config_list exemption_rules : json) : result json :=
  match config_list, exemption_rules with
  | JArr lines, JObj rules =>
      st <-- filter_lines rules (FilterState [] false []) lines ;;
      Ok (JArr (filtered_config st))
  | _, _ => Ok config_list
  end.

(** *** Well-typed inputs

    A config document is a list of text lines; an exemption rule file maps
    a header glob to ["*"] or to a list of line globs. *)

Inductive rule : Type :=
| WholeBlock
| Lines (patterns : list string).

Definition rule_set : Type := list (string * rule).

Definition json_of_rule (r : rule) : json :=
  match r with
  | WholeBlock => JStr "*"
  | Lines patterns => JArr (JStr <$> patterns)
  end.

Definition items_of_rules (r : rule_set) : list (string * json) :=
  prod_map id json_of_rule <$> r.

Definition json_of_rules (r : rule_set) : json := JObj (items_of_rules r).

Definition json_of_lines (d : list string) : json := JArr (JStr <$> d).

Definition is_header (line : string) : bool := negb (startswith_space line).

Definition matches_any (name : string) (patterns : list string) : bool :=
  existsb (fnmatch name) patterns.

(** The first entry of the rule set whose header glob matches. *)
Fixpoint first_match (line : string) (r : rule_set) : option rule :=
  match r with
  | [] => None
  | (block_pattern, v) :: rest =>
      if fnmatch line block_pattern then Some v else first_match line rest
  end.

(** The lines that survive, as a function of the two pieces of running
    state.  [apply_exemptions_lines] shows that this is what
    [apply_exemptions] computes on well-typed inputs. *)
Fixpoint survivors (r : rule_set) (exempt : bool) (active : list string)
    (d : list string) : list string :=
  match d with
  | [] => []
  | line :: rest =>
      if exempt then
        survivors r (negb (String.eqb (strip line) "!")) active rest
      else if is_header line then
        match first_match line r with
        | Some WholeBlock => survivors r true [] rest
        | Some (Lines ps) =>
            if matches_any (strip line) ps then survivors r false ps rest
            else line :: survivors r false ps rest
        | None =>
            line :: survivors r false [] rest
        end
      else if matches_any (strip line) active then survivors r false active rest
      else line :: survivors r false active rest
  end.

(** [isinstance(x, list)] and [isinstance(x, dict)] *)
Definition is_list (x : json) : bool :=
  match x with JArr _ => true | _ => false end.

Definition is_dict (x : json) : bool :=
  match x with JObj _ => true | _ => false end.

(** *** Two conditions under which a second pass changes nothing *)

(** No entry of the rule set carries line patterns. *)
Definition no_line_patterns (r : rule_set) : bool :=
  forallb (fun e => match snd e with
                    | WholeBlock => true
                    | Lines [] => true
                    | Lines (_ :: _) => false
                    end) r.

(** The pass of [survivors], checking that no indented line survives as
    an orphan.  [orphan] holds from the moment a header is dropped (by a
    whole-block rule, together with its block, or by one of its own line
    patterns) until the next header survives. *)
Fixpoint governed (r : rule_set) (exempt : bool) (active : list string)
    (orphan : bool) (d : list string) : bool :=
  match d with
  | [] => true
  | line :: rest =>
      if exempt then
        governed r (negb (String.eqb (strip line) "!")) active true rest
      else if is_header line then
        match first_match line r with
        | Some WholeBlock => governed r true [] true rest
        | Some (Lines ps) =>
            if matches_any (strip line) ps then governed r false ps true rest
            else governed r false ps false rest
        | None => governed r false [] false rest
        end
      else if matches_any (strip line) active
      then governed r false active orphan rest
      else negb orphan && governed r false active orphan rest
  end.

Definition no_orphans (r : rule_set) (d : list string) : bool :=
  governed r false [] false d.

(** ** The token lifecycle: [ArubaCentralAPI]

    The calls to [print] are left out.  [time.time()] is a number of
    whole seconds. *)

(** The content of [token.json] as [_load_token_data] returns it; a key
    that is missing or [null] is [None]. *)
Record token_data : Type := TokenData {
  refresh_token : option string;
  access_token : option string;
  timestamp : option Z;
  stored_client_id : option string;
  stored_client_secret : option string
}.

(** The attributes of [self] that the token code reads. *)
Record api : Type := Api {
  base_url : option string;
  client_id : option string;
  client_secret : option string
}.

(** A call [requests.post(url, data=payload)]. *)
Record request : Type := Request {
  url : string;
  payload : list (string * option string)
}.

(** The JSON object of a token response; the code reads two keys of it. *)
Record token_response : Type := TokenResponse {
  response_access_token : option string;
  response_refresh_token : option string
}.

(** What [requests.post], [raise_for_status] and [response.json] give
    together: the decoded body, or a [RequestException]. *)
Inductive exchange : Type :=
| Responded (r : token_response)
| RequestException (detail : string).

(** The world the token code acts on: the token file ([None] when it is
    missing or is not JSON), the clock, and the requests sent so far. *)
Record world : Type := World {
  token_file : option token_data;
  now : Z;
  sent : list request
}.

(** Truth value of [d.get(key)] for a string and for a number. *)
Definition truthy (v : option string) : bool :=
  match v with
  | Some s => negb (String.eqb s "")
  | None => false
  end.

Definition truthy_number (v : option Z) : bool :=
  match v with
  | Some t => negb (t =? 0)%Z
  | None => false
  end.

(** [f"{x}"] for a value that may be [None]. *)
Definition format (v : option string) : string :=
  match v with
  | Some s => s
  | None => "None"
  end.

Section TokenLifecycle.

(** The server behind [requests.post]. *)
Variable post : request -> exchange.

Variable self : api.

Definition _load_token_data (w : world) : token_data :=
  match token_file w with
  | Some data => data
  | None => TokenData None None None None None
  end.

Definition _save_token_data (response : token_response) (w : world) : world :=
  let data_to_save :=
    TokenData (response_refresh_token response)
      (response_access_token response)
      (Some (now w))
      (client_id self)
      (client_secret self) in
  World (Some data_to_save) (now w) (sent w).

Definition send (req : request) (w : world) : exchange * world :=
  (post req, World (token_file w) (now w) (sent w ++ [req])).

Definition token_url : string := format (base_url self) ++ "/oauth2/token".

Definition reissue_request : request :=
  Request token_url
    [("grant_type", Some "client_credentials");
     ("client_id", client_id self);
     ("client_secret", client_secret self)].

Definition _authenticate_new_token (w : world) : option string * world :=
  let '(outcome, w) := send reissue_request w in
  match outcome with
  | Responded response =>
      let w := _save_token_data response w in
      (response_access_token response, w)
  | RequestException _ => (None, w)
  end.

Definition refresh_request (refresh_token : string) : request :=
  Request token_url
    ([("grant_type", Some "refresh_token");
      ("refresh_token", Some refresh_token)]
     ++ (if truthy (client_id self) && truthy (client_secret self)
         then [("client_id", client_id self);
               ("client_secret", client_secret self)]
         else [])).

Definition _refresh_token (refresh_token : string) (w : world)
  : option string * world :=
  let '(outcome, w) := send (refresh_request refresh_token) w in
  match outcome with
  | Responded response =>
      let w := _save_token_data response w in
      (response_access_token response, w)
  | RequestException _ => _authenticate_new_token w
  end.

Definition _get_access_token (w : world) : option string * world :=
  let token_data := _load_token_data w in
  let token_age := (now w - default 0 (timestamp token_data))%Z in
  if truthy (access_token token_data)
     && truthy_number (timestamp token_data)
     && (token_age <? 7200)%Z
  then (access_token token_data, w)
  else if truthy (refresh_token token_data)
  then _refresh_token (default "" (refresh_token token_data)) w
  else if negb (truthy (client_id self)) || negb (truthy (client_secret self))
  then (None, w)
  else _authenticate_new_token w.

End TokenLifecycle.

(** Sample data: a server that fails every exchange, an API object with
    and without client credentials, and a few token records. *)
Definition unreachable_server (_ : request) : exchange :=
  RequestException "503 Server Error".

Definition central_with_credentials : api :=
  Api (Some "https://central") (Some "id") (Some "secret").

Definition central_without_credentials : api :=
  Api (Some "https://central") None None.

Definition stale_record : token_data :=
  TokenData (Some "refresh-1") (Some "access-1") (Some 1000%Z) None None.

Definition record_without_refresh_token : token_data :=
  TokenData None (Some "access-1") (Some 1000%Z) None None.

Definition record_issued_at_zero : token_data :=
  TokenData None (Some "access-1") (Some 0%Z) None None.

Definition record_with_refresh_token_only : token_data :=
  TokenData (Some "refresh-1") None None None None.

(** ** The configuration differ: [compare_configs] *)

(** *** [==] on values loaded from JSON

    [bool] is a subclass of [int], so [True == 1]; two dicts are equal
    when they have the same number of items and every key of the first
    has an equal value in the second. *)

Fixpoint dict_get (key : string) (members : list (string * json)) : option json :=
  match members with
  | [] => None
  | (k, v) :: rest => if String.eqb k key then Some v else dict_get key rest
  end.

Fixpoint py_eq (x y : json) : bool :=
  match x, y with
  | JNull, JNull => true
  | JBool a, JBool b => Bool.eqb a b
  | JBool a, JInt n => (Z.b2z a =? n)%Z
  | JInt m, JBool b => (m =? Z.b2z b)%Z
  | JInt m, JInt n => (m =? n)%Z
  | JStr s, JStr t => String.eqb s t
  | JArr xs, JArr ys =>
      (fix items_eq (xs ys : list json) : bool :=
         match xs, ys with
         | [], [] => true
         | x :: xs', y :: ys' => py_eq x y && items_eq xs' ys'
         | _, _ => false
         end) xs ys
  | JObj xs, JObj ys =>
      (length xs =? length ys)%nat
      && (fix members_eq (xs : list (string * json)) : bool :=
            match xs with
            | [] => true
            | (k, v) :: xs' =>
                match dict_get k ys with
                | Some v' => py_eq v v' && members_eq xs'
                | None => false
                end
            end) xs
  | _, _ => false
  end.

(** *** [json.dumps(obj, indent=2, sort_keys=True)] *)

Definition hex_digit (n : nat) : ascii :=
  nth n (chars "0123456789abcdef") "0"%char.

(** One character of a string literal, as [py_encode_basestring_ascii]
    writes it: everything outside [' ' .. '~'] is escaped. *)
Definition dquote : string := String (ascii_of_nat 34) "".

Definition escape_char (c : ascii) : string :=
  let n := nat_of_ascii c in
  if (n =? 34)%nat then "\" ++ dquote
  else if is_char c "\" then "\\"
  else if (n =? 8)%nat then "\b"
  else if (n =? 9)%nat then "\t"
  else if (n =? 10)%nat then "\n"
  else if (n =? 12)%nat then "\f"
  else if (n =? 13)%nat then "\r"
  else if (32 <=? n)%nat && (n <=? 126)%nat then String c ""
  else "\u00" ++ String (hex_digit (n / 16)) (String (hex_digit (n mod 16)) "").

Fixpoint escape (s : string) : string :=
  match s with
  | EmptyString => ""
  | String c s' => escape_char c ++ escape s'
  end.

Definition encode_string (s : string) : string := dquote ++ escape s ++ dquote.

(** [str(n)] for an [int] *)
Definition int_str (z : Z) : string := NilZero.string_of_int (Z.to_int z).

Definition nat_str (n : nat) : string := NilZero.string_of_uint (Nat.to_uint n).

Definition newline : string := String (ascii_of_nat 10) "".

Fixpoint spaces (n : nat) : string :=
  match n with
  | O => ""
  | S n' => " " ++ spaces n'
  end.

(** ['\n' + _indent * _current_indent_level] *)
Definition newline_indent (level : nat) : string :=
  newline ++ spaces (2 * level).

Fixpoint join (sep : string) (parts : list string) : string :=
  match parts with
  | [] => ""
  | [p] => p
  | p :: rest => p ++ sep ++ join sep rest
  end.

(** [sorted(dct.items())]: the keys of a dict are distinct strings, so
    the order of the pairs is the order of their keys, by code point. *)
Fixpoint insert_by_key {A} (e : string * A) (sorted : list (string * A))
  : list (string * A) :=
  match sorted with
  | [] => [e]
  | e' :: rest =>
      if (fst e <=? fst e')%string then e :: sorted
      else e' :: insert_by_key e rest
  end.

Definition sort_by_key {A} (l : list (string * A)) : list (string * A) :=
  foldr insert_by_key [] l.

(** The encoder of [json.encoder._make_iterencode], its chunks joined.
    Each value of a dict is encoded where it stands and the encoded
    items are then put in key order, which gives the text that encoding
    the sorted items gives. *)
Fixpoint encode (level : nat) (o : json) : string :=
  match o with
  | JNull => "null"
  | JBool true => "true"
  | JBool false => "false"
  | JInt z => int_str z
  | JStr s => encode_string s
  | JArr [] => "[]"
  | JArr items =>
      "[" ++ newline_indent (S level)
      ++ join ("," ++ newline_indent (S level)) (map (encode (S level)) items)
      ++ newline_indent level ++ "]"
  | JObj [] => "{}"
  | JObj members =>
      let encoded := map (fun e => (fst e, encode (S level) (snd e))) members in
      "{" ++ newline_indent (S level)
      ++ join ("," ++ newline_indent (S level))
           (map (fun e => (encode_string (fst e) ++ ": " ++ snd e)%string)
              (sort_by_key encoded))
      ++ newline_indent level ++ "}"
  end.

Definition dumps (o : json) : string := encode 0 o.

(** *** [str.splitlines] *)

Definition is_linebreak (c : ascii) : bool :=
  let n := nat_of_ascii c in
  ((10 <=? n) && (n <=? 13) || (28 <=? n) && (n <=? 30) || (n =? 133))%nat.

(** [cur] is the line read so far, backwards; [after_cr] tells that the
    character before was a carriage return, which a line feed
    completes. *)
Fixpoint splitlines_from (cur : list ascii) (after_cr : bool) (s : list ascii)
  : list string :=
  match s with
  | [] =>
      match cur with
      | [] => []
      | _ => [string_of_list_ascii (rev cur)]
      end
  | c :: s' =>
      if after_cr && (nat_of_ascii c =? 10)%nat then splitlines_from [] false s'
      else if is_linebreak c
      then string_of_list_ascii (rev cur)
           :: splitlines_from [] (nat_of_ascii c =? 13)%nat s'
      else splitlines_from (c :: cur) false s'
  end.

Definition splitlines (s : string) : list string :=
  splitlines_from [] false (chars s).

(** *** [difflib.SequenceMatcher(None, a, b)]

    No junk function is given, so [bjunk] is empty; [autojunk] is on. *)

(** A matching block [(i, j, k)]: [a[i:i+k] == b[j:j+k]]. *)
Definition block : Type := nat * nat * nat.

Inductive tag : Type := Replace | Delete | Insert | Equal.

(** An opcode [(tag, i1, i2, j1, j2)]. *)
Record opcode : Type := Opcode {
  op_tag : tag;
  op_i1 : nat; op_i2 : nat;
  op_j1 : nat; op_j2 : nat
}.

Definition is_equal (t : tag) : bool :=
  match t with Equal => true | _ => false end.

Section SequenceMatcher.

Variables a b : list string.

Definition item (l : list string) (i : nat) : string := nth i l EmptyString.

(** The indices of [elt] in [b], in increasing order. *)
Fixpoint indices_from (j : nat) (elt : string) (l : list string) : list nat :=
  match l with
  | [] => []
  | x :: l' =>
      if String.eqb x elt then j :: indices_from (S j) elt l'
      else indices_from (S j) elt l'
  end.

(** [__chain_b]: with 200 elements or more, an element that makes up
    more than one percent of [b] (plus one) is popular and loses its
    entry in [b2j]. *)
Definition popular (elt : string) : bool :=
  (200 <=? length b)%nat
  && (length b / 100 + 1 <? length (indices_from 0 elt b))%nat.

Definition b2j (elt : string) : list nat :=
  if popular elt then [] else indices_from 0 elt b.

(** [j2len.get(key, 0)] *)
Fixpoint j2len_get (j2len : list (nat * nat)) (key : nat) : nat :=
  match j2len with
  | [] => 0
  | (j, k) :: rest => if (j =? key)%nat then k else j2len_get rest key
  end.

(** The state of [find_longest_match]: the best block and [newj2len]. *)
Definition best : Type := nat * nat * nat.

(** [for j in b2j.get(a[i], nothing)] *)
Fixpoint scan_row (i blo bhi : nat) (j2len : list (nat * nat))
    (js : list nat) (bst : best) (newj2len : list (nat * nat))
  : best * list (nat * nat) :=
  match js with
  | [] => (bst, newj2len)
  | j :: js' =>
      if (j <? blo)%nat then scan_row i blo bhi j2len js' bst newj2len
      else if (bhi <=? j)%nat then (bst, newj2len)
      else
        let k := S (match j with
                    | O => 0
                    | S j' => j2len_get j2len j'
                    end) in
        let bst' :=
          if (snd bst <? k)%nat then (i + 1 - k, j + 1 - k, k)%nat else bst in
        scan_row i blo bhi j2len js' bst' ((j, k) :: newj2len)
  end.

(** [for i in range(alo, ahi)], [count] turns from [i] on *)
Fixpoint scan_rows (count i blo bhi : nat) (j2len : list (nat * nat))
    (bst : best) : best :=
  match count with
  | O => bst
  | S count' =>
      let '(bst', newj2len) :=
        scan_row i blo bhi j2len (b2j (item a i)) bst [] in
      scan_rows count' (S i) blo bhi newj2len bst'
  end.

(** [while besti > alo and bestj > blo and a[besti-1] == b[bestj-1]];
    every turn takes one off [besti]. *)
Fixpoint extend_back (alo blo besti bestj bestsize : nat) : best :=
  match besti with
  | O => (besti, bestj, bestsize)
  | S besti' =>
      if (alo <? besti)%nat && (blo <? bestj)%nat
         && String.eqb (item a besti') (item b (bestj - 1))
      then extend_back alo blo besti' (bestj - 1) (S bestsize)
      else (besti, bestj, bestsize)
  end.

(** [while besti+bestsize < ahi and bestj+bestsize < bhi and
    a[besti+bestsize] == b[bestj+bestsize]]; [room] is
    [ahi - (besti+bestsize)], which every turn takes one off. *)
Fixpoint extend_forward (room bhi besti bestj bestsize : nat) : best :=
  match room with
  | O => (besti, bestj, bestsize)
  | S room' =>
      if (bestj + bestsize <? bhi)%nat
         && String.eqb (item a (besti + bestsize)) (item b (bestj + bestsize))
      then extend_forward room' bhi besti bestj (S bestsize)
      else (besti, bestj, bestsize)
  end.

(** The two last loops of the function extend over junk only and never
    run here. *)
Definition find_longest_match (alo ahi blo bhi : nat) : block :=
  let '(besti, bestj, bestsize) :=
    scan_rows (ahi - alo) alo blo bhi [] (alo, blo, 0%nat) in
  let '(besti, bestj, bestsize) := extend_back alo blo besti bestj bestsize in
  extend_forward (ahi - (besti + bestsize)) bhi besti bestj bestsize.

(** The [while queue] loop of [get_matching_blocks]; the head of [queue]
    is the element that [queue.pop()] takes. *)
Fixpoint match_queue (fuel : nat) (queue : list (nat * nat * nat * nat))
    (matching_blocks : list block) : list block :=
  match fuel, queue with
  | S fuel', (alo, ahi, blo, bhi) :: queue' =>
      let '(i, j, k) := find_longest_match alo ahi blo bhi in
      if (k =? 0)%nat then match_queue fuel' queue' matching_blocks
      else
        let left :=
          if (alo <? i)%nat && (blo <? j)%nat then [(alo, i, blo, j)] else [] in
        let right :=
          if (i + k <? ahi)%nat && (j + k <? bhi)%nat
          then [(i + k, ahi, j + k, bhi)%nat] else [] in
        match_queue fuel' (right ++ left ++ queue')
          (matching_blocks ++ [(i, j, k)])
  | _, _ => matching_blocks
  end.

(** [matching_blocks.sort()]: tuples in lexicographic order *)
Definition block_leb (x y : block) : bool :=
  let '(i1, j1, k1) := x in
  let '(i2, j2, k2) := y in
  (i1 <? i2)%nat
  || (i1 =? i2)%nat && ((j1 <? j2)%nat || (j1 =? j2)%nat && (k1 <=? k2)%nat).

Fixpoint insert_block (x : block) (sorted : list block) : list block :=
  match sorted with
  | [] => [x]
  | y :: rest =>
      if block_leb x y then x :: sorted else y :: insert_block x rest
  end.

Definition sort_blocks (l : list block) : list block :=
  foldr insert_block [] l.

(** The loop that merges adjacent blocks; [(i1, j1, k1)] is the block
    being grown. *)
Fixpoint collapse (i1 j1 k1 : nat) (blocks : list block) : list block :=
  match blocks with
  | [] => if (k1 =? 0)%nat then [] else [(i1, j1, k1)]
  | (i2, j2, k2) :: rest =>
      if (i1 + k1 =? i2)%nat && (j1 + k1 =? j2)%nat
      then collapse i1 j1 (k1 + k2) rest
      else (if (k1 =? 0)%nat then [] else [(i1, j1, k1)])
           ++ collapse i2 j2 k2 rest
  end.

(** Every turn of the queue loop takes one region off the queue, and a
    region with [n] elements of [a] leads to fewer than [2n + 1] turns
    ([match_queue_fuel]). *)
Definition get_matching_blocks : list block :=
  let la := length a in
  let lb := length b in
  let matching_blocks :=
    match_queue (2 * la + 1) [(0, la, 0, lb)%nat] [] in
  collapse 0 0 0 (sort_blocks matching_blocks) ++ [(la, lb, 0%nat)].

(** The loop of [get_opcodes], from [i, j] on. *)
Fixpoint opcodes_from (i j : nat) (blocks : list block) : list opcode :=
  match blocks with
  | [] => []
  | (ai, bj, size) :: rest =>
      (if (i <? ai)%nat && (j <? bj)%nat then [Opcode Replace i ai j bj]
       else if (i <? ai)%nat then [Opcode Delete i ai j bj]
       else if (j <? bj)%nat then [Opcode Insert i ai j bj]
       else [])
      ++ (if (size =? 0)%nat then []
          else [Opcode Equal ai (ai + size) bj (bj + size)])
      ++ opcodes_from (ai + size) (bj + size) rest
  end.

Definition get_opcodes : list opcode := opcodes_from 0 0 get_matching_blocks.

(** [codes[0] = tag, max(i1, i2-n), i2, max(j1, j2-n), j2] *)
Definition trim_front (n : nat) (c : opcode) : opcode :=
  Opcode (op_tag c) (max (op_i1 c) (op_i2 c - n)) (op_i2 c)
    (max (op_j1 c) (op_j2 c - n)) (op_j2 c).

(** [codes[-1] = tag, i1, min(i2, i1+n), j1, min(j2, j1+n)] *)
Definition trim_back (n : nat) (c : opcode) : opcode :=
  Opcode (op_tag c) (op_i1 c) (min (op_i2 c) (op_i1 c + n)) (op_j1 c)
    (min (op_j2 c) (op_j1 c + n)).

Definition fix_first (n : nat) (codes : list opcode) : list opcode :=
  match codes with
  | c :: rest => if is_equal (op_tag c) then trim_front n c :: rest else codes
  | [] => []
  end.

Fixpoint fix_last (n : nat) (codes : list opcode) : list opcode :=
  match codes with
  | [] => []
  | [c] => if is_equal (op_tag c) then [trim_back n c] else codes
  | c :: rest => c :: fix_last n rest
  end.

(** The [for tag, i1, i2, j1, j2 in codes] loop of
    [get_grouped_opcodes] and the test that follows it. *)
Fixpoint group_codes (n : nat) (codes : list opcode) (group : list opcode)
  : list (list opcode) :=
  match codes with
  | [] =>
      match group with
      | [] => []
      | [c] => if is_equal (op_tag c) then [] else [group]
      | _ => [group]
      end
  | c :: rest =>
      if is_equal (op_tag c) && (n + n <? op_i2 c - op_i1 c)%nat
      then (group ++ [trim_back n c]) :: group_codes n rest [trim_front n c]
      else group_codes n rest (group ++ [c])
  end.

Definition get_grouped_opcodes (n : nat) : list (list opcode) :=
  let codes :=
    match get_opcodes with
    | [] => [Opcode Equal 0 1 0 1]
    | codes => codes
    end in
  group_codes n (fix_last n (fix_first n codes)) [].

End SequenceMatcher.

(** *** [difflib.unified_diff(a, b, fromfile, tofile, lineterm='')] *)

(** [l[i1:i2]] *)
Definition slice {A} (l : list A) (i1 i2 : nat) : list A :=
  take (i2 - i1) (drop i1 l).

Definition _format_range_unified (start stop : nat) : string :=
  let beginning := (start + 1)%nat in
  let length := (stop - start)%nat in
  if (length =? 1)%nat then nat_str beginning
  else
    (nat_str (if (length =? 0)%nat then beginning - 1 else beginning)
     ++ "," ++ nat_str length)%string.

Definition prefix_lines (p : string) (l : list string) : list string :=
  map (fun line => (p ++ line)%string) l.

Definition opcode_lines (a b : list string) (c : opcode) : list string :=
  match op_tag c with
  | Equal => prefix_lines " " (slice a (op_i1 c) (op_i2 c))
  | Replace =>
      prefix_lines "-" (slice a (op_i1 c) (op_i2 c))
      ++ prefix_lines "+" (slice b (op_j1 c) (op_j2 c))
  | Delete => prefix_lines "-" (slice a (op_i1 c) (op_i2 c))
  | Insert => prefix_lines "+" (slice b (op_j1 c) (op_j2 c))
  end.

Definition hunk (a b : list string) (group : list opcode) : list string :=
  match group, last group with
  | first :: _, Some last =>
      ("@@ -" ++ _format_range_unified (op_i1 first) (op_i2 last)
       ++ " +" ++ _format_range_unified (op_j1 first) (op_j2 last)
       ++ " @@")%string
      :: concat (map (opcode_lines a b) group)
  | _, _ => []
  end.

Definition unified_diff (a b : list string) (fromfile tofile : string)
  : list string :=
  match get_grouped_opcodes a b 3 with
  | [] => []
  | groups =>
      ("--- " ++ fromfile)%string :: ("+++ " ++ tofile)%string
      :: concat (map (hunk a b) groups)
  end.

(** *** [compare_configs] *)

(** [line.startswith(p)] *)
Definition startswith (p line : string) : bool := String.prefix p line.

(** What [compare_configs] prints, without the colour codes. *)
Inductive printed : Type :=
| ConfigurationsMatch
| ConfigurationsDoNotMatch
| DetailedDifferences
| DiffLine (line : string)
| Summary (additions removals : nat).

(** [sum(1 for line in diff if f(line))] *)
Fixpoint count_lines (f : string -> bool) (diff : list string) : nat :=
  match diff with
  | [] => 0
  | line :: rest => ((if f line then 1 else 0) + count_lines f rest)%nat
  end.

Definition is_addition (line : string) : bool :=
  startswith "+" line && negb (startswith "+++" line).

Definition is_removal (line : string) : bool :=
  startswith "-" line && negb (startswith "---" line).

Definition compare_configs (config_a config_b : json) (simplified : bool)
    (from_file to_file : string) : bool * list printed :=
  if py_eq config_a config_b then (false, [ConfigurationsMatch])
  else
    let config_a_str := splitlines (dumps config_a) in
    let config_b_str := splitlines (dumps config_b) in
    let diff := unified_diff config_a_str config_b_str from_file to_file in
    let additions := count_lines is_addition diff in
    let removals := count_lines is_removal diff in
    (true,
     [ConfigurationsDoNotMatch]
     ++ (if simplified then [] else DetailedDifferences :: map DiffLine diff)
     ++ [Summary additions removals]).

(** *** Documents *)

Fixpoint distinct (keys : list string) : bool :=
  match keys with
  | [] => true
  | k :: rest => negb (existsb (String.eqb k) rest) && distinct rest
  end.

(** A value that [json.load] can return: the keys of every dict are
    distinct. *)
Fixpoint wf_json (o : json) : bool :=
  match o with
  | JArr items => forallb wf_json items
  | JObj members =>
      distinct (map fst members)
      && forallb (fun e => wf_json (snd e)) members
  | _ => true
  end.

(** Two values that are the same document: they differ at most in the
    insertion order of the keys of their dicts, at any depth. *)
Inductive same_document : json -> json -> Prop :=
| same_null : same_document JNull JNull
| same_bool b : same_document (JBool b) (JBool b)
| same_int z : same_document (JInt z) (JInt z)
| same_str s : same_document (JStr s) (JStr s)
| same_arr xs ys :
    Forall2 same_document xs ys -> same_document (JArr xs) (JArr ys)
| same_obj xs ys zs :
    Forall2 (fun x z => fst x = fst z /\ same_document (snd x) (snd z)) xs zs ->
    Permutation zs ys ->
    same_document (JObj xs) (JObj ys).

(** *** Notions for the proofs about the matcher *)

(** A block that lies in the region [a[alo:ahi]], [b[blo:bhi]]. *)
Definition inside (alo ahi blo bhi : nat) (m : block) : Prop :=
  let '(i, j, k) := m in
  alo <= i /\ i + k <= ahi /\ blo <= j /\ j + k <= bhi.

(** An entry [j2len[j] = k] that leaves room for a match of length [k]
    ending at [a[n-1]], [b[j]]. *)
Definition len_ok (alo blo bhi n : nat) (e : nat * nat) : Prop :=
  let '(j, k) := e in k + alo <= n /\ k + blo <= j + 1 /\ j < bhi.

Definition block_size (m : block) : nat := snd m.

Definition total_size (blocks : list block) : nat :=
  sum_list_with block_size blocks.

Definition region : Type := nat * nat * nat * nat.

Definition region_ok (la lb : nat) (r : region) : Prop :=
  let '(alo, ahi, blo, bhi) := r in
  alo <= ahi /\ ahi <= la /\ blo <= bhi /\ bhi <= lb.

(** The elements of [a] in the regions of the queue, and a bound on the
    turns of the loop that the queue still needs. *)
Definition region_room (r : region) : nat :=
  let '(alo, ahi, _, _) := r in ahi - alo.

Definition queue_room (queue : list region) : nat :=
  sum_list_with region_room queue.

Definition queue_turns (queue : list region) : nat :=
  sum_list_with (fun r => 2 * region_room r + 1) queue.

(** The lines of [b] that an opcode puts in the diff with a [+]. *)
Definition added_by (b : list string) (c : opcode) : nat :=
  match op_tag c with
  | Replace | Insert => length (slice b (op_j1 c) (op_j2 c))
  | Delete | Equal => 0
  end.

Definition added (b : list string) (codes : list opcode) : nat :=
  sum_list_with (added_by b) codes.

Definition changes (codes : list opcode) : list opcode :=
  List.filter (fun c => negb (is_equal (op_tag c))) codes.

(** *** The encoder, line by line

    [encode_lines level o] are the lines of [encode level o]; the first
    one continues the line on which the value starts
    ([splitlines_dumps]). *)

Definition with_prefix (p : string) (lines : list string) : list string :=
  match lines with
  | [] => [p]
  | first :: rest => (p ++ first)%string :: rest
  end.

Fixpoint with_suffix (s : string) (lines : list string) : list string :=
  match lines with
  | [] => [s]
  | [last] => [(last ++ s)%string]
  | line :: rest => line :: with_suffix s rest
  end.

(** The lines between the brackets: every item starts a line at the
    indentation [ind], and a comma ends every item but the last. *)
Fixpoint body_lines (ind : string) (chunks : list (list string)) : list string :=
  match chunks with
  | [] => []
  | [c] => with_prefix ind c
  | c :: rest => with_prefix ind (with_suffix "," c) ++ body_lines ind rest
  end.

Fixpoint encode_lines (level : nat) (o : json) : list string :=
  match o with
  | JArr [] => ["[]"]
  | JArr items =>
      "[" :: body_lines (spaces (2 * S level))
               (map (encode_lines (S level)) items)
      ++ [(spaces (2 * level) ++ "]")%string]
  | JObj [] => ["{}"]
  | JObj members =>
      let encoded :=
        map (fun e => (fst e, encode_lines (S level) (snd e))) members in
      "{" :: body_lines (spaces (2 * S level))
               (map (fun e => with_prefix (encode_string (fst e) ++ ": ")%string
                                (snd e))
                  (sort_by_key encoded))
      ++ [(spaces (2 * level) ++ "}")%string]
  | _ => [encode level o]
  end.

Definition break_free (s : string) : bool :=
  forallb (fun c => negb (is_linebreak c)) (chars s).

(** Lines that [splitlines] gives back from their text: none has a line
    break in it and the last one is not empty. *)
Definition plain_lines (lines : list string) : Prop :=
  Forall (fun line => break_free line = true) lines
  /\ exists line, last lines = Some line /\ line <> EmptyString.

Definition no_plus (line : string) : bool := negb (startswith "+" line).

(** Sample documents for the examples. *)
Definition quoted (s : string) : string := dquote ++ s ++ dquote.

Definition template_doc : json :=
  JObj [("config", JArr [JStr "hostname sw1"; JStr "!"]); ("group", JStr "lab")].

Definition live_doc_reordered : json :=
  JObj [("group", JStr "lab"); ("config", JArr [JStr "hostname sw1"; JStr "!"])].

(** *** Notions for the proof that the matcher finds a longest block *)

(** [a[i:i+k] == b[j:j+k]], element by element. *)
Definition common (a b : list string) (i j k : nat) : Prop :=
  forall t, t < k -> item a (i + t) = item b (j + t).

(** The length of the longest run of equal elements that ends at
    [a[i]], [b[j]] and starts no earlier than [a[alo]], [b[blo]]: the
    value that [find_longest_match] keeps in [j2len[j]] after row [i]. *)
Fixpoint runlen (a b : list string) (alo blo i j : nat) : nat :=
  if (alo <=? i)%nat && (blo <=? j)%nat && String.eqb (item a i) (item b j)
  then S (match i, j with
          | S i', S j' => runlen a b alo blo i' j'
          | _, _ => 0
          end)
  else 0.

(** [j2len] before row [i]: the runs of row [i - 1]. *)
Definition prev_runlen (a b : list string) (alo blo i j : nat) : nat :=
  match i with
  | O => 0
  | S i' => runlen a b alo blo i' j
  end.

(** The best block so far is a block of equal elements inside the
    region, at least as long as every run that ends in a row before
    [i], or in row [i] at a column before [m]. *)
Definition best_upto (a b : list string) (alo ahi blo bhi i m : nat)
    (bst : best) : Prop :=
  inside alo ahi blo bhi bst
  /\ common a b (fst (fst bst)) (snd (fst bst)) (snd bst)
  /\ (forall i' j', alo <= i' < i -> j' < bhi ->
        runlen a b alo blo i' j' <= snd bst)
  /\ (forall j', j' < m -> runlen a b alo blo i j' <= snd bst).

(** What [find_longest_match] returns: a block of equal elements inside
    the region, and no such block of the region is longer. *)
Definition longest_in (a b : list string) (alo ahi blo bhi : nat)
    (m : block) : Prop :=
  inside alo ahi blo bhi m
  /\ common a b (fst (fst m)) (snd (fst m)) (snd m)
  /\ forall i j k,
       inside alo ahi blo bhi (i, j, k) -> common a b i j k -> k <= snd m.

(** The tags whose opcodes put lines of [a] in the diff with a [-]. *)
Definition removes (t : tag) : bool :=
  match t with
  | Replace | Delete => true
  | Insert | Equal => false
  end.

(** *** Notions for the proofs about the lines of a dict *)

Definition hex_value (c : ascii) : nat :=
  let n := nat_of_ascii c in
  if (97 <=? n)%nat then n - 87 else n - 48.

(** The string that [escape] wrote before the closing quote. *)
Fixpoint read_key (s : string) : option string :=
  match s with
  | EmptyString => None
  | String c rest =>
      if (nat_of_ascii c =? 34)%nat then Some EmptyString
      else if is_char c "\" then
        match rest with
        | String e rest' =>
            if is_char e "u" then
              match rest' with
              | String _ (String _ (String h (String l rest''))) =>
                  String (ascii_of_nat (16 * hex_value h + hex_value l))
                    <$> read_key rest''
              | _ => None
              end
            else
              let c' :=
                if is_char e "b" then ascii_of_nat 8
                else if is_char e "t" then ascii_of_nat 9
                else if is_char e "n" then ascii_of_nat 10
                else if is_char e "f" then ascii_of_nat 12
                else if is_char e "r" then ascii_of_nat 13
                else e in
              String c' <$> read_key rest'
        | EmptyString => None
        end
      else String c <$> read_key rest
  end.

(** The key of a line that starts a top-level item: two spaces and an
    encoded string. *)
Definition line_key (line : string) : option string :=
  match line with
  | String c1 (String c2 (String c3 rest)) =>
      if is_char c1 " " && is_char c2 " " && (nat_of_ascii c3 =? 34)%nat
      then read_key rest
      else None
  | _ => None
  end.

(** A line that starts with two spaces and goes on with something other
    than a quote: a line inside a top-level item. *)
Definition deep (line : string) : bool :=
  match line with
  | String c1 (String c2 (String c3 _)) =>
      is_char c1 " " && is_char c2 " " && negb (nat_of_ascii c3 =? 34)%nat
  | _ => false
  end.

(** The lines of one item between the brackets. *)
Definition chunk_lines (comma : bool) (ind : string) (c : list string)
  : list string :=
  with_prefix ind (if comma then with_suffix "," c else c).

(** A top-level item: its key and the lines of its value. *)
Definition item_chunk (e : string * list string) : list string :=
  with_prefix (encode_string (fst e) ++ ": ")%string (snd e).

(** The second document has one key more, and the key is not the last
    in key order. *)
Definition key_before_another (key : string) (members : list (string * json))
  : Prop :=
  exists k, In k (map fst members) /\ (key <=? k)%string = true.

(** The order in which [sort_by_key] puts the items. *)
Definition key_le {A} : relation (string * A) :=
  fun e e' => String.le (fst e) (fst e').

(** The lines of one top-level item, before indentation. *)
Definition top_chunk (e : string * json) : list string :=
  item_chunk (fst e, encode_lines 1 (snd e)).

(** A long list in which one item stands out, and the same document with
    one more key that sorts first. *)
Definition long_items : list json :=
  repeat (JInt 1) 120 ++ [JObj [("q", JArr [JStr "u"])]] ++ repeat (JInt 1) 120.

Definition long_doc : json := JObj [("z", JArr long_items)].

Definition long_doc_extra : json :=
  JObj [("z", JArr long_items);
        ("c", JArr [JObj [("q", JArr [JStr "u"])]; JInt 1])].
(** ** More on the exemption filter *)

(** The two pieces of running state after the lines [d]: whether the
    loop is inside a fully exempt block, and the active line globs. *)
Fixpoint state_after (r : rule_set) (exempt : bool) (active : list string)
    (d : list string) : bool * list string :=
  match d with
  | [] => (exempt, active)
  | line :: rest =>
      if exempt then
        state_after r (negb (String.eqb (strip line) "!")) active rest
      else if is_header line then
        match first_match line r with
        | Some WholeBlock => state_after r true [] rest
        | Some (Lines ps) => state_after r false ps rest
        | None => state_after r false [] rest
        end
      else state_after r false active rest
  end.

Definition is_str (x : json) : bool :=
  match x with JStr _ => true | _ => false end.

(** [d] is empty or starts with a block header. *)
Definition starts_block (d : list string) : bool :=
  match d with
  | [] => true
  | line :: _ => is_header line
  end.
(** ** More on the token lifecycle *)

(** A token record without the two credentials that [_save_token_data]
    stores beside the tokens. *)
Definition without_credentials (data : token_data) : token_data :=
  TokenData (refresh_token data) (access_token data) (timestamp data)
    None None.

(** A server that answers every exchange with the same pair of tokens. *)
Definition lab_server (_ : request) : exchange :=
  Responded (TokenResponse (Some "access-2") (Some "refresh-2")).

Definition stale_record_with_credentials : token_data :=
  TokenData (Some "refresh-1") (Some "access-1") (Some 1000%Z)
    (Some "old-id") (Some "old-secret").
(** ** The MAC address check: [validate_mac_address]

    The pattern of the check is a constant of the program; [regex] has
    the constructs that it is written with.  [rmatch r start s k] tells
    whether [r] can match at the front of [s] in a way that lets the
    rest of the pattern, [k], match what follows; [start] holds at
    position 0 of the text.  [re.match] looks for a match that begins at
    position 0 and may end anywhere. *)

Inductive regex : Type :=
| Bol                                      (* [^] *)
| Eol                                      (* [$] *)
| Class (ranges : list (ascii * ascii))    (* [[...]] *)
| Seq (r1 r2 : regex)                      (* [r1 r2] *)
| Alt (r1 r2 : regex)                      (* [r1|r2] *)
| Opt (r : regex)                          (* [r?] *)
| Rep (n : nat) (r : regex).               (* [r{n}] *)

Fixpoint rmatch (r : regex) (start : bool) (s : list ascii)
    (k : bool -> list ascii -> bool) : bool :=
  match r with
  | Bol => start && k start s
  | Eol =>
      (* the end of the text, or just before a line feed that ends it *)
      match s with
      | [] => k start s
      | [c] => (nat_of_ascii c =? 10)%nat && k start s
      | _ => false
      end
  | Class ranges =>
      match s with
      | c :: s' => existsb (in_range c) ranges && k false s'
      | [] => false
      end
  | Seq r1 r2 => rmatch r1 start s (fun start' s' => rmatch r2 start' s' k)
  | Alt r1 r2 => rmatch r1 start s k || rmatch r2 start s k
  | Opt r' => rmatch r' start s k || k start s
  | Rep n r' =>
      (fix rep (n : nat) (start : bool) (s : list ascii) : bool :=
         match n with
         | O => k start s
         | S n' => rmatch r' start s (fun start' s' => rep n' start' s')
         end) n start s
  end.

Definition re_match (pattern : regex) (text : string) : bool :=
  rmatch pattern true (chars text) (fun _ _ => true).

(** [[0-9a-fA-F]] and [[:\-]] *)
Definition hex_class : regex :=
  Class [("0", "9"); ("a", "f"); ("A", "F")]%char.

Definition separator_class : regex :=
  Class [(":", ":"); ("-", "-")]%char.

(** [^([0-9a-fA-F]{2}([:\-]?)){5}[0-9a-fA-F]{2}$] *)
Definition separated_pattern : regex :=
  Seq Bol
    (Seq (Rep 5 (Seq (Rep 2 hex_class) (Opt separator_class)))
       (Seq (Rep 2 hex_class) Eol)).

(** [^[0-9a-fA-F]{12}$] *)
Definition plain_pattern : regex :=
  Seq Bol (Seq (Rep 12 hex_class) Eol).

Definition mac_pattern : regex := Alt separated_pattern plain_pattern.

(** What an [argparse] type function gives: the converted value, or an
    [ArgumentTypeError]. *)
Inductive converted : Type :=
| Value (v : string)
| ArgumentTypeError (message : string).

Definition validate_mac_address (mac : string) : converted :=
  if negb (re_match mac_pattern mac)
  then ArgumentTypeError ("'" ++ mac ++ "' is not a valid MAC address format.")
  else Value mac.

(** *** Notions for the proofs about the check *)

(** The ways in which [r] matches at the front of [s]: the text that is
    left and whether that is still position 0. *)
Fixpoint matches (r : regex) (start : bool) (s : list ascii)
    (start' : bool) (s' : list ascii) : Prop :=
  match r with
  | Bol => start = true /\ start' = start /\ s' = s
  | Eol => (s = [] \/ s = [ascii_of_nat 10]) /\ start' = start /\ s' = s
  | Class ranges =>
      exists c, s = c :: s' /\ existsb (in_range c) ranges = true
                /\ start' = false
  | Seq r1 r2 =>
      exists start1 s1,
        matches r1 start s start1 s1 /\ matches r2 start1 s1 start' s'
  | Alt r1 r2 => matches r1 start s start' s' \/ matches r2 start s start' s'
  | Opt r' => matches r' start s start' s' \/ (start' = start /\ s' = s)
  | Rep n r' =>
      (fix rep (n : nat) (start : bool) (s : list ascii) : Prop :=
         match n with
         | O => start' = start /\ s' = s
         | S n' =>
             exists start1 s1,
               matches r' start s start1 s1 /\ rep n' start1 s1
         end) n start s
  end.

Definition is_hex (c : ascii) : bool :=
  existsb (in_range c) [("0", "9"); ("a", "f"); ("A", "F")]%char.

(** Two hexadecimal digits. *)
Definition octet (s : string) : Prop :=
  exists h l, s = String h (String l "")
              /\ is_hex h = true /\ is_hex l = true.

(** What may stand between two octets: nothing, a colon or a hyphen. *)
Definition gap (s : string) : Prop := s = "" \/ s = ":" \/ s = "-".

(** Six octets, with a gap of its own after each of the first five. *)
Definition mac_text (s : string) : Prop :=
  exists o1 g1 o2 g2 o3 g3 o4 g4 o5 g5 o6 : string,
    s = (o1 ++ g1 ++ o2 ++ g2 ++ o3 ++ g3 ++ o4 ++ g4 ++ o5 ++ g5 ++ o6)%string
    /\ octet o1 /\ octet o2 /\ octet o3 /\ octet o4 /\ octet o5 /\ octet o6
    /\ gap g1 /\ gap g2 /\ gap g3 /\ gap g4 /\ gap g5.
(** ** The API client: the rest of [ArubaCentralAPI] *)

(** [os.getenv], after [load_dotenv()], for the four variables that the
    constructor reads. *)
Record environment : Type := Environment {
  ARUBA_BASE_URL : option string;
  ARUBA_CLIENT_ID : option string;
  ARUBA_CLIENT_SECRET : option string;
  ARUBA_GROUP_NAME : option string
}.

(** The object that [__init__] builds. *)
Record client : Type := Client {
  client_api : api;
  group_name : option string;
  session_access_token : option string
}.

(** [x or y] *)
Definition py_or (x y : option string) : option string :=
  if truthy x then x else y.

(** The constructor returns, or leaves through [sys.exit]. *)
Inductive constructed : Type :=
| Constructed (self : client)
| SystemExit (code : Z).

Definition __init__ (post : request -> exchange) (env : environment)
    (group_name : option string) (w : world) : constructed * world :=
  let self :=
    Api (ARUBA_BASE_URL env) (ARUBA_CLIENT_ID env) (ARUBA_CLIENT_SECRET env) in
  let group_name := py_or group_name (ARUBA_GROUP_NAME env) in
  let '(access_token, w) := _get_access_token post self w in
  if negb (truthy (base_url self)) then (SystemExit 2, w)
  else (Constructed (Client self group_name access_token), w).

(** A call [requests.get(url, headers=headers)]. *)
Record get_request : Type := GetRequest {
  get_url : string;
  headers : list (string * string)
}.

(** What [requests.get], [raise_for_status] and [response.json] give
    together: the decoded body, or one of the three exceptions that
    [call_api] handles. *)
Inductive reply : Type :=
| Decoded (body : json)
| HTTPError
| OtherRequestException
| JSONDecodeError.

(** *** [requests.utils.quote], that is [urllib.parse.quote] with
    [safe='/']: the text is encoded in UTF-8 and every byte that is not
    a letter, a digit or one of [_.-~/] is written as [%XX]. *)

Definition upper_hex_digit (n : nat) : ascii :=
  nth n (chars "0123456789ABCDEF") "0"%char.

Definition percent (byte : nat) : string :=
  String "%" (String (upper_hex_digit (byte / 16))
                (String (upper_hex_digit (byte mod 16)) "")).

Definition always_safe (c : ascii) : bool :=
  let n := nat_of_ascii c in
  ((65 <=? n) && (n <=? 90) || (97 <=? n) && (n <=? 122)
   || (48 <=? n) && (n <=? 57))%nat
  || existsb (Ascii.eqb c) (chars "_.-~").

(** The UTF-8 bytes of a code point below 256. *)
Definition utf8 (c : ascii) : list nat :=
  let n := nat_of_ascii c in
  if (n <? 128)%nat then [n] else [192 + n / 64; 128 + n mod 64].

Definition quote_byte (byte : nat) : string :=
  let c := ascii_of_nat byte in
  if (byte <? 128)%nat && (always_safe c || is_char c "/")
  then String c ""
  else percent byte.

Definition quote (s : string) : string :=
  String.concat "" (quote_byte <$> concat (utf8 <$> chars s)).

(** *** The calls *)

Section Calls.

(** The server behind [requests.get]. *)
Variable get : get_request -> reply.

Variable self : client.

(** The result is [None], here [JNull], when there is no token or when
    the call fails; beside it, the requests that were sent. *)
Definition call_api (endpoint : string) : json * list get_request :=
  if negb (truthy (session_access_token self)) then (JNull, [])
  else
    let headers :=
      [("Authorization",
        ("Bearer " ++ format (session_access_token self))%string)] in
    let url := (format (base_url (client_api self)) ++ endpoint)%string in
    let req := GetRequest url headers in
    match get req with
    | Decoded body => (body, [req])
    | HTTPError | OtherRequestException | JSONDecodeError => (JNull, [req])
    end.

Definition get_group_level_config : json * list get_request :=
  if negb (truthy (group_name self)) then (JNull, [])
  else
    let encoded_group := quote (default "" (group_name self)) in
    let endpoint :=
      ("/caasapi/v1/showcommand/object/effective?group_name="
       ++ encoded_group)%string in
    call_api endpoint.

Definition get_device_override_config (mac_address : string)
  : json * list get_request :=
  if negb (truthy (group_name self)) then (JNull, [])
  else
    let encoded_group := quote (default "" (group_name self)) in
    let combined_name := (encoded_group ++ "/" ++ mac_address)%string in
    let endpoint :=
      ("/caasapi/v1/showcommand/object/committed?group_name="
       ++ combined_name)%string in
    call_api endpoint.

End Calls.

(** *** Notions for the proofs about [quote] *)

Definition hex_digit_value (c : ascii) : nat :=
  let n := nat_of_ascii c in
  if (65 <=? n)%nat then n - 55 else n - 48.

(** The bytes that a quoted text stands for. *)
Fixpoint unquote_bytes (s : list ascii) : list nat :=
  match s with
  | [] => []
  | c :: rest =>
      if is_char c "%" then
        match rest with
        | h :: l :: rest' =>
            (16 * hex_digit_value h + hex_digit_value l) :: unquote_bytes rest'
        | _ => []
        end
      else nat_of_ascii c :: unquote_bytes rest
  end.

(** The code points below 256 that a list of UTF-8 bytes stands for. *)
Fixpoint utf8_decode (bytes : list nat) : list ascii :=
  match bytes with
  | [] => []
  | b :: rest =>
      if (b <? 128)%nat then ascii_of_nat b :: utf8_decode rest
      else
        match rest with
        | b' :: rest' =>
            ascii_of_nat (64 * (b - 192) + (b' - 128)) :: utf8_decode rest'
        | [] => []
        end
  end.

(** A character that [quote] may write. *)
Definition url_char (c : ascii) : bool :=
  always_safe c || is_char c "/" || is_char c "%".

Definition lab_client : client :=
  Client (Api (Some "https://central") (Some "id") (Some "secret"))
    (Some "Branch Offices/EU") (Some "access-1").
(** ** The command: [main]

    [args] is what [parser.parse_args()] returned.  The calls to [print]
    are left out, except those of [compare_configs]; so is the choice of
    colours.  As in the token lifecycle, writing the token file
    succeeds. *)

Record namespace : Type := Namespace {
  template : string;
  args_group_name : option string;
  previous_config : option string;
  save_config : option string;
  simplified : bool;
  mac_address : option string;
  exemptions : option string
}.

(** [json.load] on a file opened for reading: the value, or what was
    raised ([OtherFailure]: an error that [main] names in no [except]
    clause of its own, such as [PermissionError]). *)
Inductive loaded : Type :=
| Parsed (value : json)
| FileNotFound
| InvalidJSON
| OtherFailure.

(** What one run of the command leaves: the exit status, the token
    world, the requests for a configuration, the file written for
    [--save-config] with its text, and what [compare_configs] printed. *)
Record outcome : Type := Outcome {
  exit_code : Z;
  world_after : world;
  fetched : list get_request;
  saved : option (string * string);
  report : list printed
}.

(** Truth value of a value loaded from JSON. *)
Definition py_truthy (x : json) : bool :=
  match x with
  | JNull => false
  | JBool b => b
  | JInt z => negb (z =? 0)%Z
  | JStr s => negb (String.eqb s "")
  | JArr items => match items with [] => false | _ => true end
  | JObj members => match members with [] => false | _ => true end
  end.

(** [sub in s] for two strings *)
Fixpoint contains (sub s : string) : bool :=
  String.prefix sub s
  || match s with
     | String _ s' => contains sub s'
     | EmptyString => false
     end.

(** [d[key] = value] for a key that [d] has: the item keeps its place. *)
Fixpoint dict_set (key : string) (value : json) (members : list (string * json))
  : list (string * json) :=
  match members with
  | [] => [(key, value)]
  | (k, v) :: rest =>
      if String.eqb k key then (k, value) :: rest
      else (k, v) :: dict_set key value rest
  end.

(** [if 'config' in doc: doc['config'] = apply_exemptions(doc['config'],
    rules)], giving [doc] afterwards.  The test looks for a key of a
    dict, an element of a list or a part of a string, and raises
    [TypeError] on anything else; the subscript raises [TypeError] on a
    list and on a string. *)
Definition filter_config (doc exemption_rules : json) : result json :=
  match doc with
  | JObj members =>
      match dict_get "config" members with
      | Some config_list =>
          filtered <-- apply_exemptions config_list exemption_rules ;;
          Ok (JObj (dict_set "config" filtered members))
      | None => Ok doc
      end
  | JArr items =>
      if existsb (py_eq (JStr "config")) items then Raise TypeError else Ok doc
  | JStr s =>
      if contains "config" s then Raise TypeError else Ok doc
  | JNull | JBool _ | JInt _ => Raise TypeError
  end.

(** A step of [main] goes on with a value or leaves through
    [sys.exit]. *)
Inductive step (A : Type) : Type :=
| Continue (a : A)
| Exit (o : outcome).
Arguments Continue {A} a.
Arguments Exit {A} o.

Definition step_bind {A B} (m : step A) (k : A -> step B) : step B :=
  match m with
  | Continue a => k a
  | Exit o => Exit o
  end.

Notation "x <== m ;; k" := (step_bind m (fun x => k))
  (at level 100, m at next level, right associativity).

Section Main.

Variable post : request -> exchange.
Variable get : get_request -> reply.
Variable env : environment.

(** The files that the command reads, as they are while the token world
    is [w]; whether the file for [--save-config] can be written; and
    [os.path.exists] once it has been. *)
Variable load : world -> string -> loaded.
Variable writable : string -> bool.
Variable path_exists : string -> bool.

Definition main (args : namespace) (w : world) : outcome :=
  let from_filename :=
    if truthy (previous_config args)
    then default "" (previous_config args)
    else template args in
  let run : step outcome :=
    config_to_compare <==
      (if truthy (previous_config args) then
         match load w (default "" (previous_config args)) with
         | Parsed value => Continue value
         | FileNotFound | InvalidJSON | OtherFailure =>
             Exit (Outcome 1 w [] None [])
         end
       else if negb (truthy (save_config args)) || truthy (previous_config args)
       then
         match load w (template args) with
         | Parsed value => Continue value
         | FileNotFound | InvalidJSON | OtherFailure =>
             Exit (Outcome 1 w [] None [])
         end
       else Continue JNull) ;;
    let '(built, w) := __init__ post env (args_group_name args) w in
    api <==
      (match built with
       | Constructed api => Continue api
       | SystemExit code => Exit (Outcome code w [] None [])
       end) ;;
    let '(live_config, gets) :=
      if truthy (mac_address args)
      then get_device_override_config get api (default "" (mac_address args))
      else get_group_level_config get api in
    both <==
      (match live_config with
       | JNull => Exit (Outcome 1 w gets None [])
       | _ =>
           if truthy (exemptions args) then
             match load w (default "" (exemptions args)) with
             | Parsed exemption_rules =>
                 match
                   (a <-- (if py_truthy config_to_compare
                           then filter_config config_to_compare exemption_rules
                           else Ok config_to_compare) ;;
                    b <-- filter_config live_config exemption_rules ;;
                    Ok (a, b))
                 with
                 | Ok both => Continue both
                 | Raise _ => Exit (Outcome 1 w gets None [])
                 end
             | FileNotFound | InvalidJSON | OtherFailure =>
                 Exit (Outcome 1 w gets None [])
             end
           else Continue (config_to_compare, live_config)
       end) ;;
    let '(config_to_compare, live_config) := both in
    saved <==
      (if truthy (save_config args) then
         let path := default "" (save_config args) in
         if writable path then
           let written := Some (path, dumps live_config) in
           if negb (truthy (previous_config args))
              && negb (path_exists (template args))
           then Exit (Outcome 0 w gets written [])
           else Continue written
         else Continue None
       else Continue None) ;;
    match config_to_compare with
    | JNull => Exit (Outcome 0 w gets saved [])
    | _ =>
        let '(different, printed) :=
          compare_configs config_to_compare live_config (simplified args)
            from_filename "live_config.json" in
        Exit (Outcome (if different then 3 else 0) w gets saved printed)
    end in
  match run with
  | Continue o => o
  | Exit o => o
  end.

End Main.

(** Sample data: command lines, a directory and a server. *)
Definition compare_args : namespace :=
  Namespace "template.json" None None None false None None.

Definition save_args : namespace :=
  Namespace "template.json" None None (Some "snapshot.json") false None None.

Definition lab_environment : environment :=
  Environment (Some "https://central") (Some "id") (Some "secret")
    (Some "lab").

Definition lab_files (_ : world) (path : string) : loaded :=
  if String.eqb path "template.json" then Parsed template_doc
  else FileNotFound.

Definition lab_config_server (_ : get_request) : reply :=
  Decoded (JObj [("config", JArr [JStr "hostname sw2"; JStr "!"]);
                 ("group", JStr "lab")]).

Definition fresh_world : world :=
  World (Some (TokenData (Some "refresh-1") (Some "access-1") (Some 1000%Z)
                 None None)) 2000 [].

Definition exemption_args : namespace :=
  Namespace "template.json" None None None false None (Some "exemptions.json").

(** A directory whose exemption file holds a list, and one whose
    exemption file holds rules. *)
Definition lab_exemption_files (_ : world) (path : string) : loaded :=
  if String.eqb path "template.json" then Parsed template_doc
  else if String.eqb path "exemptions.json"
  then Parsed (JArr [JStr "interface *"])
  else FileNotFound.

Definition lab_rule_files (_ : world) (path : string) : loaded :=
  if String.eqb path "template.json" then Parsed template_doc
  else if String.eqb path "exemptions.json"
  then Parsed (JObj [("interface *", JStr "*")])
  else FileNotFound.
(** ** More on the configuration differ *)

(** The lines of [a] that an opcode puts in the diff with a [-]. *)
Definition removed_by (a : list string) (c : opcode) : nat :=
  match op_tag c with
  | Replace | Delete => length (slice a (op_i1 c) (op_i2 c))
  | Insert | Equal => 0
  end.

Definition removed (a : list string) (codes : list opcode) : nat :=
  sum_list_with (removed_by a) codes.

(** *** Notions for the proof that the matching blocks follow one
    another *)

(** The part of [a] and of [b] that a block covers. *)
Definition block_region (m : block) : region :=
  let '(i, j, k) := m in (i, i + k, j, j + k).

(** [x] ends, in [a] and in [b], where [y] starts or earlier. *)
Definition before (x y : region) : Prop :=
  let '(_, ahi, _, bhi) := x in
  let '(alo, _, blo, _) := y in
  ahi <= alo /\ bhi <= blo.

Definition apart (x y : region) : Prop := before x y \/ before y x.

Fixpoint all_apart (l : list region) : Prop :=
  match l with
  | [] => True
  | x :: rest => Forall (apart x) rest /\ all_apart rest
  end.

Definition within (x r : region) : Prop :=
  let '(alo, ahi, blo, bhi) := x in
  let '(alo', ahi', blo', bhi') := r in
  alo' <= alo /\ ahi <= ahi' /\ blo' <= blo /\ bhi <= bhi'.

Definition block_before (x y : block) : Prop :=
  before (block_region x) (block_region y).

(** The blocks follow one another, from [a[i]] and [b[j]] on. *)
Fixpoint chain (i j : nat) (blocks : list block) : Prop :=
  match blocks with
  | [] => True
  | (ai, bj, size) :: rest =>
      i <= ai /\ j <= bj /\ chain (ai + size) (bj + size) rest
  end.

Definition no_minus (line : string) : bool := negb (startswith "-" line).

(** * Properties *)

(** ** Library models on sample inputs *)

Example fnmatch_star : fnmatch "interface Gi1" "interface *" = true.
Proof. reflexivity. Qed.

Example fnmatch_literal : fnmatch "community public" "location *" = false.
Proof. reflexivity. Qed.

Example fnmatch_question : fnmatch "vlan 12" "vlan ?2" = true.
Proof. reflexivity. Qed.

Example fnmatch_set : fnmatch "Gi3" "Gi[0-4]" = true.
Proof. reflexivity. Qed.

Example fnmatch_negset : fnmatch "Gi3" "Gi[!0-4]" = false.
Proof. reflexivity. Qed.

Example fnmatch_open_bracket : fnmatch "a[b" "a[b" = true.
Proof. reflexivity. Qed.

(** An empty range in front of the mark: the mark is what is left of
    the first chunk, and the hyphen behind it stands for itself. *)
Example fnmatch_mark_after_empty_range :
  fnmatch "-" "[b-a!-z]" = false /\ fnmatch "y" "[b-a!-z]" = true.
Proof. split; reflexivity. Qed.

Example strip_both : strip "  description x " = "description x".
Proof. reflexivity. Qed.

(** ** The exemption filter *)

Example scenario_whole_block :
  apply_exemptions
    (json_of_lines ["interface Gi1"; " description x"; "!"; "hostname sw1"])
    (json_of_rules [("interface *", WholeBlock)])
  = Ok (json_of_lines ["hostname sw1"]).
Proof. reflexivity. Qed.

Example scenario_line_rules :
  apply_exemptions
    (json_of_lines ["snmp-server host"; " community public"; " location lab"; "!"])
    (json_of_rules [("snmp-server *", Lines ["community *"])])
  = Ok (json_of_lines ["snmp-server host"; " location lab"; "!"]).
Proof. reflexivity. Qed.

Section Filter.

Implicit Types (r : rule_set) (d : list string) (st : filter_state).

Lemma scan_rules_first_match line r st :
  scan_rules line (items_of_rules r) st =
  match first_match line r with
  | Some WholeBlock => set_exempt true st
  | Some (Lines ps) => set_line_exemptions (JStr <$> ps) st
  | None => st
  end.
Proof.
  induction r as [|[p v] r IH]; simpl; [done|].
  destruct (fnmatch line p); [|exact IH].
  by destruct v.
Qed.

Lemma line_exempt_matches_any name ps :
  line_exempt name (JStr <$> ps) = Ok (matches_any name ps).
Proof.
  induction ps as [|p ps IH]; simpl; [done|].
  by destruct (fnmatch name p).
Qed.

(** On well-typed inputs the loop never raises and appends exactly the
    [survivors]. *)
Ltac continue_with IH st active :=
  let st' := fresh "st'" in
  let Hrun := fresh "Hrun" in
  let Hout := fresh "Hout" in
  destruct (IH st active) as (st' & Hrun & Hout); [reflexivity|];
  exists st'; split;
  [exact Hrun
  |rewrite Hout; simpl; rewrite <- ?app_assoc; reflexivity].

Lemma filter_lines_survivors r d : forall st active,
  current_line_exemptions st = JStr <$> active ->
  exists st',
    filter_lines (items_of_rules r) st (JStr <$> d) = Ok st' /\
    filtered_config st' =
      filtered_config st
      ++ (JStr <$> survivors r (in_fully_exempt_block st) active d).
Proof.
  induction d as [|line d IH]; intros st active Hact; simpl.
  - exists st. by rewrite app_nil_r.
  - destruct st as [out ex cur]; simpl in *; subst cur.
    destruct ex; simpl.
    + destruct (String.eqb (strip line) "!"); simpl.
      * continue_with IH (FilterState out false (JStr <$> active)) active.
      * continue_with IH (FilterState out true (JStr <$> active)) active.
    + unfold is_header. destruct (startswith_space line); simpl.
      * rewrite line_exempt_matches_any; simpl.
        destruct (matches_any (strip line) active); simpl.
        -- continue_with IH (FilterState out false (JStr <$> active)) active.
        -- continue_with IH (FilterState (out ++ [JStr line]) false
                               (JStr <$> active)) active.
      * rewrite scan_rules_first_match.
        destruct (first_match line r) as [[|ps]|]; simpl.
        -- continue_with IH (FilterState out true []) (@nil string).
        -- rewrite line_exempt_matches_any; simpl.
           destruct (matches_any (strip line) ps); simpl.
           ++ continue_with IH (FilterState out false (JStr <$> ps)) ps.
           ++ continue_with IH (FilterState (out ++ [JStr line]) false
                                  (JStr <$> ps)) ps.
        -- continue_with IH (FilterState (out ++ [JStr line]) false [])
             (@nil string).
Qed.

Lemma apply_exemptions_lines r d :
  apply_exemptions (json_of_lines d) (json_of_rules r)
  = Ok (json_of_lines (survivors r false [] d)).
Proof.
  unfold apply_exemptions, json_of_lines, json_of_rules.
  destruct (filter_lines_survivors r d (FilterState [] false []) [])
    as (st' & Hrun & Hout); [done|].
  fold (items_of_rules r). rewrite Hrun. simpl. by rewrite Hout.
Qed.

(** *** Subsequence *)

Lemma survivors_sublist r d : forall exempt active,
  sublist (survivors r exempt active d) d.
Proof.
  induction d as [|line d IH]; intros exempt active; simpl.
  - constructor.
  - repeat case_match; auto using sublist_skip, sublist_cons.
Qed.

(** C9. On every list of lines and every rule set the filter returns a
    list of lines that is a subsequence of its input: each line it emits
    is an input line, unmodified, and the emitted lines keep the order of
    the input. *)
Theorem apply_exemptions_subsequence r d :
  exists out,
    apply_exemptions (json_of_lines d) (json_of_rules r)
    = Ok (json_of_lines out)
    /\ sublist out d.
Proof.
  exists (survivors r false [] d). split.
  - apply apply_exemptions_lines.
  - apply survivors_sublist.
Qed.

(** *** The type guard *)

(** C10. When [config_list] is not a list or [exemption_rules] is not a
    dict, [apply_exemptions] returns [config_list] itself: nothing is
    filtered and nothing is raised. *)
Theorem apply_exemptions_guard (config_list exemption_rules : json) :
  is_list config_list = false \/ is_dict exemption_rules = false ->
  apply_exemptions config_list exemption_rules = Ok config_list.
Proof.
  intros [H|H].
  - by destruct config_list.
  - destruct config_list; try done. by destruct exemption_rules.
Qed.

Lemma apply_exemptions_guard_witness :
  apply_exemptions (JStr "hostname sw1") (JObj [("host*", JStr "*")])
  = Ok (JStr "hostname sw1").
Proof. apply apply_exemptions_guard. left. reflexivity. Defined.

(** *** Headers and the rule set *)

(** C7. The first entry of the rule set whose header glob matches the
    header line decides what happens: the scan ends with that entry's
    action, and whatever entries follow it do not change the outcome of
    this turn of the loop. *)
Theorem first_match_wins (line : string) (before after : list (string * json))
    (block_pattern : string) (rules : json) st :
  Forall (fun e => fnmatch line (fst e) = false) before ->
  fnmatch line block_pattern = true ->
  scan_rules line (before ++ (block_pattern, rules) :: after) st
  = apply_rule rules st
  /\ forall after',
      filter_line (before ++ (block_pattern, rules) :: after) st (JStr line)
      = filter_line (before ++ (block_pattern, rules) :: after') st (JStr line).
Proof.
  intros Hbefore Hmatch.
  assert (Hscan : forall rest st0,
    scan_rules line (before ++ (block_pattern, rules) :: rest) st0
    = apply_rule rules st0).
  { intros rest st0. induction Hbefore as [|[p v] before Hp _ IH]; simpl.
    - by rewrite Hmatch.
    - simpl in Hp. by rewrite Hp. }
  split; [apply Hscan|].
  intros after'. unfold filter_line. by rewrite !Hscan.
Qed.

Lemma first_match_wins_witness :
  scan_rules "interface Gi1"
    ([("vlan *", JStr "*")] ++ ("interface *", JArr [JStr "shutdown"])
       :: [("interface Gi*", JStr "*")])
    (FilterState [] false [])
  = FilterState [] false [JStr "shutdown"].
Proof.
  refine (proj1 (first_match_wins "interface Gi1" [("vlan *", JStr "*")]
                   [("interface Gi*", JStr "*")] "interface *"
                   (JArr [JStr "shutdown"]) (FilterState [] false []) _ _)).
  - repeat constructor.
  - reflexivity.
Defined.

(** C4, as the specification states it, fails: a header whose trimmed
    text matches one of the line globs of its own entry is dropped. *)
Lemma header_dropped_by_own_line_rule :
  is_header "h1" = true
  /\ first_match "h1" [("h*", Lines ["h*"])] = Some (Lines ["h*"])
  /\ filter_line (items_of_rules [("h*", Lines ["h*"])])
       (FilterState [] false []) (JStr "h1")
     = Ok (FilterState [] false [JStr "h*"])
  /\ apply_exemptions (json_of_lines ["h1"])
       (json_of_rules [("h*", Lines ["h*"])])
     = Ok (json_of_lines []).
Proof. repeat split; reflexivity. Qed.

(** C4, amended.  Outside an exempt block, a header line whose first
    matching entry is a list of line globs makes that list the active
    line rules; the header is then checked against that list like any
    other line, and it is emitted unless its trimmed text matches one of
    the globs. *)
Theorem header_with_line_rules r st (line : string) (ps : list string) :
  in_fully_exempt_block st = false ->
  is_header line = true ->
  first_match line r = Some (Lines ps) ->
  filter_line (items_of_rules r) st (JStr line)
  = Ok (let st' := set_line_exemptions (JStr <$> ps) st in
        if matches_any (strip line) ps then st'
        else append_line (JStr line) st').
Proof.
  intros Hex Hhead Hfirst. unfold filter_line. rewrite Hex.
  unfold is_header in Hhead. rewrite Hhead. simpl.
  rewrite scan_rules_first_match, Hfirst. simpl. rewrite Hex.
  rewrite line_exempt_matches_any. simpl.
  by destruct (matches_any (strip line) ps).
Qed.

Lemma header_with_line_rules_witness :
  filter_line (items_of_rules [("snmp-server *", Lines ["community *"])])
    (FilterState [] false []) (JStr "snmp-server host")
  = Ok (FilterState [JStr "snmp-server host"] false [JStr "community *"]).
Proof.
  apply (header_with_line_rules
           [("snmp-server *", Lines ["community *"])]
           (FilterState [] false []) "snmp-server host" ["community *"]);
    reflexivity.
Defined.

(** *** Idempotence *)

(** C1, as the specification states it, fails: once the whole block
    [x1 .. !] is gone, the indented line behind it falls under the line
    rules of the header [h1] and a second pass removes it. *)
Lemma second_pass_removes_more :
  apply_exemptions (json_of_lines ["h1"; "x1"; "!"; " a"])
    (json_of_rules [("h*", Lines ["a"]); ("x*", WholeBlock)])
  = Ok (json_of_lines ["h1"; " a"])
  /\ apply_exemptions (json_of_lines ["h1"; " a"])
       (json_of_rules [("h*", Lines ["a"]); ("x*", WholeBlock)])
     = Ok (json_of_lines ["h1"]).
Proof. split; reflexivity. Qed.

Lemma first_match_no_line_patterns r line ps :
  no_line_patterns r = true -> first_match line r = Some (Lines ps) -> ps = [].
Proof.
  induction r as [|[p v] r IH]; simpl; [done|].
  intros [Hv Hr]%andb_true_iff. destruct (fnmatch line p); [|auto].
  intros [= ->]. by destruct ps.
Qed.

Lemma survivors_stable_no_line_patterns r d :
  no_line_patterns r = true ->
  forall exempt active,
    survivors r false [] (survivors r exempt active d)
    = survivors r exempt active d.
Proof.
  intros Hr. induction d as [|line d IH]; intros exempt active; simpl; [done|].
  destruct exempt; [apply IH|].
  destruct (is_header line) eqn:Hhead.
  - destruct (first_match line r) as [[|ps]|] eqn:Hfirst.
    + apply IH.
    + pose proof (first_match_no_line_patterns _ _ _ Hr Hfirst) as ->.
      simpl. rewrite Hhead, Hfirst. simpl. by rewrite IH.
    + simpl. rewrite Hhead, Hfirst. by rewrite IH.
  - destruct (matches_any (strip line) active); [apply IH|].
    simpl. rewrite Hhead. simpl. by rewrite IH.
Qed.

Lemma survivors_stable_governed r d : forall exempt active orphan active',
  governed r exempt active orphan d = true ->
  (orphan = false -> exempt = false /\ active' = active) ->
  survivors r false active' (survivors r exempt active d)
  = survivors r exempt active d.
Proof.
  induction d as [|line d IH]; intros exempt active orphan active' Hgov Hsync;
    simpl in *; [done|].
  destruct exempt.
  { eapply IH; [exact Hgov|]. intros [=]. }
  destruct (is_header line) eqn:Hhead.
  - destruct (first_match line r) as [[|ps]|] eqn:Hfirst.
    + eapply IH; [exact Hgov|]. intros [=].
    + destruct (matches_any (strip line) ps) eqn:Hown.
      * eapply IH; [exact Hgov|]. intros [=].
      * simpl. rewrite Hhead, Hfirst, Hown. f_equal.
        eapply IH; [exact Hgov|]. done.
    + simpl. rewrite Hhead, Hfirst. f_equal.
      eapply IH; [exact Hgov|]. done.
  - destruct (matches_any (strip line) active) eqn:Hline.
    + eapply IH; [exact Hgov|exact Hsync].
    + apply andb_true_iff in Hgov as [Horph Hgov].
      apply negb_true_iff in Horph.
      destruct (Hsync Horph) as [_ ->].
      simpl. rewrite Hhead, Hline. f_equal.
      eapply IH; [exact Hgov|]. done.
Qed.

(** C1, amended.  The filter is idempotent on [d] and [r] whenever the
    rule set carries no line patterns, or no indented line of [d]
    survives as an orphan (that is, after a header that the filter
    dropped, alone or with its block, and before the next header that
    survives). *)
Theorem apply_exemptions_idempotent r d :
  no_line_patterns r = true \/ no_orphans r d = true ->
  exists out,
    apply_exemptions (json_of_lines d) (json_of_rules r)
    = Ok (json_of_lines out)
    /\ apply_exemptions (json_of_lines out) (json_of_rules r)
       = Ok (json_of_lines out).
Proof.
  intros H. exists (survivors r false [] d).
  split; [apply apply_exemptions_lines|].
  rewrite apply_exemptions_lines. do 2 f_equal.
  destruct H as [H|H].
  - by apply survivors_stable_no_line_patterns.
  - by eapply survivors_stable_governed.
Qed.

Lemma apply_exemptions_idempotent_witness :
  exists out,
    apply_exemptions
      (json_of_lines ["snmp-server host"; " community public";
                      "interface Gi1"; " description x"; "!";
                      "hostname sw1"])
      (json_of_rules [("snmp-server *", Lines ["community *"]);
                      ("interface *", WholeBlock)])
    = Ok (json_of_lines out)
    /\ apply_exemptions (json_of_lines out)
         (json_of_rules [("snmp-server *", Lines ["community *"]);
                         ("interface *", WholeBlock)])
       = Ok (json_of_lines out).
Proof.
  apply apply_exemptions_idempotent. right. reflexivity.
Defined.

End Filter.

(** ** The token lifecycle *)

Section Token.

Variable post : request -> exchange.
Variable self : api.

Lemma _authenticate_new_token_failure w detail :
  post (reissue_request self) = RequestException detail ->
  _authenticate_new_token post self w
  = (None, World (token_file w) (now w) (sent w ++ [reissue_request self])).
Proof. intros H. unfold _authenticate_new_token, send. by rewrite H. Qed.

(** A cached access token is used exactly when it is younger than two
    hours. *)
Lemma cached_token_fresh w data token issued_at :
  token_file w = Some data ->
  access_token data = Some token -> token <> "" ->
  timestamp data = Some issued_at -> issued_at <> 0%Z ->
  (now w - issued_at < 7200)%Z ->
  _get_access_token post self w = (Some token, w).
Proof.
  intros Hfile Htok Hne Hts Hnz Hage.
  unfold _get_access_token, _load_token_data. rewrite Hfile, Htok, Hts. simpl.
  apply String.eqb_neq in Hne. rewrite Hne. simpl.
  apply Z.eqb_neq in Hnz. rewrite Hnz. simpl.
  apply Z.ltb_lt in Hage. by rewrite Hage.
Qed.

Lemma cached_token_stale w data issued_at :
  token_file w = Some data ->
  timestamp data = Some issued_at ->
  (7200 <= now w - issued_at)%Z ->
  _get_access_token post self w =
  if truthy (refresh_token data)
  then _refresh_token post self (default "" (refresh_token data)) w
  else if negb (truthy (client_id self)) || negb (truthy (client_secret self))
  then (None, w)
  else _authenticate_new_token post self w.
Proof.
  intros Hfile Hts Hage.
  unfold _get_access_token, _load_token_data. rewrite Hfile, Hts. simpl.
  apply Z.ltb_ge in Hage. rewrite Hage.
  by rewrite andb_false_r.
Qed.

Lemma _refresh_token_sends_refresh rt w :
  exists rest,
    sent (snd (_refresh_token post self rt w))
    = sent w ++ refresh_request self rt :: rest.
Proof.
  unfold _refresh_token, _authenticate_new_token, send; simpl.
  destruct (post (refresh_request self rt)); simpl.
  - by exists [].
  - destruct (post (reissue_request self)); simpl;
      exists [reissue_request self]; by rewrite <- app_assoc.
Qed.

Lemma _authenticate_new_token_sends_reissue w :
  sent (snd (_authenticate_new_token post self w))
  = sent w ++ [reissue_request self].
Proof.
  unfold _authenticate_new_token, send.
  by destruct (post (reissue_request self)).
Qed.

Lemma sent_grows (l : list request) req rest : l ++ req :: rest <> l.
Proof.
  intros H. apply (f_equal length) in H.
  rewrite length_app in H. simpl in H. lia.
Qed.

(** C5, amended.  For a stored record with a non-empty access token and
    a non-zero time of issue: at an age of 7199 seconds the cached token
    is returned at once, with no request sent and nothing written; at an
    age of exactly 7200 seconds it is not.  Then, if the record holds a
    refresh token, the next thing sent is the refresh exchange; if it
    holds none, the manager takes the client-credentials path: it
    returns no token and sends nothing when the client id or the client
    secret is missing, and sends the reissue exchange otherwise. *)
Theorem freshness_boundary w data token issued_at :
  token_file w = Some data ->
  access_token data = Some token -> token <> "" ->
  timestamp data = Some issued_at -> issued_at <> 0%Z ->
  ((now w - issued_at = 7199)%Z ->
     _get_access_token post self w = (Some token, w))
  /\ ((now w - issued_at = 7200)%Z ->
      _get_access_token post self w <> (Some token, w)
      /\ (forall rt, refresh_token data = Some rt -> rt <> "" ->
            _get_access_token post self w = _refresh_token post self rt w
            /\ exists rest,
                sent (snd (_get_access_token post self w))
                = sent w ++ refresh_request self rt :: rest)
      /\ (truthy (refresh_token data) = false ->
            _get_access_token post self w
            = (if negb (truthy (client_id self))
                  || negb (truthy (client_secret self))
               then (None, w)
               else _authenticate_new_token post self w)
            /\ sent (snd (_get_access_token post self w))
               = (if negb (truthy (client_id self))
                     || negb (truthy (client_secret self))
                  then sent w
                  else sent w ++ [reissue_request self]))).
Proof.
  intros Hfile Htok Hne Hts Hnz. split.
  - intros Hage. eapply cached_token_fresh; eauto. lia.
  - intros Hage.
    pose proof (cached_token_stale w data issued_at Hfile Hts
                  ltac:(lia)) as Hstale.
    assert (Hrefresh : forall rt, refresh_token data = Some rt -> rt <> "" ->
              _get_access_token post self w = _refresh_token post self rt w).
    { intros rt Hrt Hrtne. rewrite Hstale, Hrt. simpl.
      apply String.eqb_neq in Hrtne. by rewrite Hrtne. }
    assert (Hnone : truthy (refresh_token data) = false ->
              _get_access_token post self w
              = (if negb (truthy (client_id self))
                    || negb (truthy (client_secret self))
                 then (None, w)
                 else _authenticate_new_token post self w)).
    { intros Hrt. by rewrite Hstale, Hrt. }
    split; [|split].
    + destruct (truthy (refresh_token data)) eqn:Hrt.
      * destruct (refresh_token data) as [rt|] eqn:Hdata; [|done].
        assert (rt <> "") as Hrtne.
        { intros ->. done. }
        rewrite (Hrefresh rt eq_refl Hrtne). intros Heq.
        destruct (_refresh_token_sends_refresh rt w) as [rest Hsent].
        rewrite Heq in Hsent. simpl in Hsent.
        symmetry in Hsent. by apply sent_grows in Hsent.
      * rewrite (Hnone eq_refl).
        destruct (negb (truthy (client_id self))
                  || negb (truthy (client_secret self))); [done|].
        intros Heq.
        pose proof (_authenticate_new_token_sends_reissue w) as Hsent.
        rewrite Heq in Hsent. simpl in Hsent.
        symmetry in Hsent. by apply sent_grows in Hsent.
    + intros rt Hrt Hrtne. split; [by apply Hrefresh|].
      rewrite (Hrefresh rt Hrt Hrtne). apply _refresh_token_sends_refresh.
    + intros Hrt. split; [by apply Hnone|]. rewrite (Hnone Hrt).
      destruct (negb (truthy (client_id self))
                || negb (truthy (client_secret self))); [done|].
      apply _authenticate_new_token_sends_reissue.
Qed.

(** C6.  When the refresh exchange fails and the reissue exchange that
    follows fails too, no token is returned and the token file is what it
    was; an exchange that fails never writes the file. *)
Theorem failed_exchanges_keep_record rt w detail detail' :
  post (refresh_request self rt) = RequestException detail ->
  post (reissue_request self) = RequestException detail' ->
  fst (_refresh_token post self rt w) = None
  /\ token_file (snd (_refresh_token post self rt w)) = token_file w
  /\ sent (snd (_refresh_token post self rt w))
     = sent w ++ [refresh_request self rt; reissue_request self]
  /\ fst (_authenticate_new_token post self w) = None
  /\ token_file (snd (_authenticate_new_token post self w)) = token_file w.
Proof.
  intros Hrefresh Hreissue.
  unfold _refresh_token, send. rewrite Hrefresh.
  rewrite !(_authenticate_new_token_failure _ detail') by done. simpl.
  by rewrite <- app_assoc.
Qed.

End Token.

(** C5, as the specification states it, fails in two places.  A stale
    record without a refresh token triggers no refresh (here, with no
    client credentials either, nothing is sent at all); and a record
    issued at second 0 is not served from the cache even at an age of
    7199 seconds, because its time stamp counts as missing. *)
Lemma stale_without_refresh_token_sends_nothing :
  (now (World (Some record_without_refresh_token) 8200 []) - 1000 = 7200)%Z
  /\ _get_access_token unreachable_server central_without_credentials
       (World (Some record_without_refresh_token) 8200 [])
     = (None, World (Some record_without_refresh_token) 8200 [])
  /\ (now (World (Some record_issued_at_zero) 7199 []) - 0 = 7199)%Z
  /\ _get_access_token unreachable_server central_without_credentials
       (World (Some record_issued_at_zero) 7199 [])
     = (None, World (Some record_issued_at_zero) 7199 []).
Proof. repeat split; reflexivity. Qed.

Lemma freshness_boundary_witness :
  (_get_access_token unreachable_server central_with_credentials
     (World (Some stale_record) 8199 [])
   = (Some "access-1", World (Some stale_record) 8199 []))
  /\ (exists rest,
        sent (snd (_get_access_token unreachable_server
                     central_with_credentials
                     (World (Some stale_record) 8200 [])))
        = [] ++ refresh_request central_with_credentials "refresh-1" :: rest)
  /\ (_get_access_token unreachable_server central_with_credentials
        (World (Some record_without_refresh_token) 8200 [])
      <> (Some "access-1", World (Some record_without_refresh_token) 8200 []))
  /\ (sent (snd (_get_access_token unreachable_server
                   central_with_credentials
                   (World (Some record_without_refresh_token) 8200 [])))
      = [] ++ [reissue_request central_with_credentials]).
Proof.
  split; [|split; [|split]].
  - refine (proj1 (freshness_boundary unreachable_server _
                     (World (Some stale_record) 8199 []) stale_record
                     "access-1" 1000 _ _ _ _ _) _);
      (reflexivity || discriminate).
  - refine (proj2 (proj1 (proj2 (proj2 (freshness_boundary unreachable_server _
                     (World (Some stale_record) 8200 []) stale_record
                     "access-1" 1000 _ _ _ _ _) _)) "refresh-1" _ _));
      (reflexivity || discriminate).
  - refine (proj1 (proj2 (freshness_boundary unreachable_server _
                     (World (Some record_without_refresh_token) 8200 [])
                     record_without_refresh_token
                     "access-1" 1000 _ _ _ _ _) _));
      (reflexivity || discriminate).
  - refine (proj2 (proj2 (proj2 (proj2 (freshness_boundary unreachable_server
                     central_with_credentials
                     (World (Some record_without_refresh_token) 8200 [])
                     record_without_refresh_token
                     "access-1" 1000 _ _ _ _ _) _)) _));
      (reflexivity || discriminate).
Defined.

Lemma failed_exchanges_keep_record_witness :
  fst (_refresh_token unreachable_server central_with_credentials
         "refresh-1" (World (Some stale_record) 8200 [])) = None
  /\ token_file (snd (_refresh_token unreachable_server
                        central_with_credentials "refresh-1"
                        (World (Some stale_record) 8200 [])))
     = Some stale_record.
Proof.
  destruct (failed_exchanges_keep_record unreachable_server
              central_with_credentials "refresh-1"
              (World (Some stale_record) 8200 [])
              "503 Server Error" "503 Server Error" eq_refl eq_refl)
    as (Hnone & Hfile & _).
  split; [exact Hnone|exact Hfile].
Defined.

(** C2: the code at the failing input.  With neither client id nor
    client secret configured, a failed refresh is still followed by a
    client-credentials exchange, sent with both credentials [None]. *)
Theorem refresh_failure_reissues_without_credentials :
  truthy (client_id central_without_credentials) = false
  /\ truthy (client_secret central_without_credentials) = false
  /\ sent (snd (_get_access_token unreachable_server
                  central_without_credentials
                  (World (Some record_with_refresh_token_only) 8200 [])))
     = [refresh_request central_without_credentials "refresh-1";
        reissue_request central_without_credentials]
  /\ reissue_request central_without_credentials
     = Request "https://central/oauth2/token"
         [("grant_type", Some "client_credentials");
          ("client_id", None); ("client_secret", None)].
Proof. repeat split; reflexivity. Qed.

(** The sibling path, for comparison: with no refresh token stored, the
    same missing credentials stop the manager before anything is sent. *)
Lemma no_refresh_token_no_credentials_sends_nothing :
  _get_access_token unreachable_server central_without_credentials
    (World None 8200 [])
  = (None, World None 8200 []).
Proof. reflexivity. Qed.

(** ** The configuration differ *)

(** An induction principle for [json] that reaches the values inside
    lists and dicts. *)
Lemma json_nested_ind (P : json -> Prop) :
  P JNull ->
  (forall b, P (JBool b)) ->
  (forall z, P (JInt z)) ->
  (forall s, P (JStr s)) ->
  (forall items, Forall P items -> P (JArr items)) ->
  (forall members, Forall (fun e => P (snd e)) members -> P (JObj members)) ->
  forall o, P o.
Proof.
  intros Hnull Hbool Hint Hstr Harr Hobj.
  fix IH 1.
  intros [|b|z|s|items|members];
    [exact Hnull|apply Hbool|apply Hint|apply Hstr| |].
  - apply Harr. induction items as [|x items IHitems]; constructor.
    + apply IH.
    + exact IHitems.
  - apply Hobj. induction members as [|e members IHm]; constructor.
    + apply IH.
    + exact IHm.
Qed.

Section Equality.

Lemma existsb_eqb_In k (keys : list string) :
  existsb (String.eqb k) keys = true <-> In k keys.
Proof.
  rewrite existsb_exists. split.
  - intros (x & Hin & ->%String.eqb_eq). done.
  - intros Hin. exists k. split; [done|apply String.eqb_refl].
Qed.

Lemma distinct_NoDup keys : distinct keys = true <-> List.NoDup keys.
Proof.
  induction keys as [|k keys IH]; simpl.
  - split; [constructor|done].
  - rewrite andb_true_iff, negb_true_iff, IH. split.
    + intros [Hk Hrest]. constructor; [|done].
      intros Hin%existsb_eqb_In. congruence.
    + intros Hnd. inversion Hnd as [|? ? Hk Hrest]; subst. split; [|done].
      destruct (existsb (String.eqb k) keys) eqn:E; [|done].
      by apply existsb_eqb_In in E.
Qed.

(** In a dict a key leads to its one value. *)
Lemma dict_get_In k v (members : list (string * json)) :
  List.NoDup (map fst members) -> In (k, v) members ->
  dict_get k members = Some v.
Proof.
  induction members as [|[k' v'] members IH]; simpl; [done|].
  intros Hnd [Hin|Hin]; inversion Hnd as [|? ? Hk Hrest]; subst.
  - injection Hin as -> ->. by rewrite String.eqb_refl.
  - destruct (String.eqb k' k) eqn:E; [|by apply IH].
    apply String.eqb_eq in E as ->. destruct Hk.
    change k with (fst (k, v)). by apply in_map.
Qed.

Lemma Forall2_keys (xs zs : list (string * json)) Q :
  Forall2 (fun x z => fst x = fst z /\ Q x z) xs zs ->
  map fst xs = map fst zs.
Proof. induction 1 as [|x z xs zs [Hk _] _ IH]; simpl; congruence. Qed.

Lemma py_eq_arr_cons x xs y ys :
  py_eq (JArr (x :: xs)) (JArr (y :: ys))
  = py_eq x y && py_eq (JArr xs) (JArr ys).
Proof. reflexivity. Qed.

Lemma py_eq_obj xs ys :
  py_eq (JObj xs) (JObj ys)
  = (length xs =? length ys)%nat
    && forallb (fun e => match dict_get (fst e) ys with
                         | Some v' => py_eq (snd e) v'
                         | None => false
                         end) xs.
Proof.
  simpl. f_equal. induction xs as [|[k v] xs IH]; simpl; [done|].
  destruct (dict_get k ys); [|done]. by rewrite IH.
Qed.

Lemma py_eq_same_document x :
  wf_json x = true -> forall y, same_document x y -> py_eq x y = true.
Proof.
  induction x as [| | | |items IH|members IH] using json_nested_ind;
    intros Hwf y Hsame; inversion Hsame as [| | | |? ys Hitems|? ys zs Hmembers Hperm];
    subst.
  - done.
  - by destruct b.
  - apply Z.eqb_refl.
  - apply String.eqb_refl.
  - clear Hsame. simpl in Hwf. revert IH Hwf.
    induction Hitems as [|x y xs ys Hxy _ IHitems]; intros IH Hwf; [done|].
    simpl in Hwf. apply andb_true_iff in Hwf as [Hx Hxs].
    apply Forall_cons in IH as [IHx IHxs].
    rewrite py_eq_arr_cons, (IHx Hx y Hxy). simpl. by apply IHitems.
  - clear Hsame. simpl in Hwf. apply andb_true_iff in Hwf as [Hkeys Hvalues].
    apply distinct_NoDup in Hkeys.
    rewrite py_eq_obj. apply andb_true_iff. split.
    { apply Nat.eqb_eq. rewrite <- (Permutation_length Hperm).
      by apply Forall2_length in Hmembers. }
    assert (Hnd : List.NoDup (map fst ys)).
    { eapply Permutation_NoDup; [apply Permutation_map, Hperm|].
      by rewrite <- (Forall2_keys _ _ _ Hmembers). }
    assert (Hsub : forall e, In e zs -> In e ys).
    { intros e. by apply Permutation_in. }
    clear Hperm Hkeys. revert IH Hvalues Hsub.
    induction Hmembers as [|[k v] [k' v'] xs zs' [Hk Hv] _ IHm];
      intros IH Hvalues Hsub; [done|].
    simpl in Hk, Hv, Hvalues. subst k'.
    apply andb_true_iff in Hvalues as [Hwv Hwxs].
    apply Forall_cons in IH as [IHv IHxs]. simpl in IHv.
    cbn [forallb fst snd].
    rewrite (dict_get_In k v' ys Hnd) by (apply Hsub; by left).
    rewrite (IHv Hwv v' Hv). cbn [andb].
    apply IHm; [done|done|]. intros e He. apply Hsub. by right.
Qed.

Lemma same_document_refl x : same_document x x.
Proof.
  induction x as [| | | |items IH|members IH] using json_nested_ind;
    try constructor.
  - induction IH; by constructor.
  - apply same_obj with (zs := members); [|done].
    induction IH; by constructor.
Qed.

(** C8.  Comparing a well-formed document with itself, or with any
    representation of it whose dicts list their keys in another order,
    reports equality: the result is [False] (no difference) and only the
    match banner is printed, no diff. *)
Theorem compare_configs_same_document (x y : json) simplified from_file to_file :
  wf_json x = true ->
  same_document x y ->
  compare_configs x x simplified from_file to_file
  = (false, [ConfigurationsMatch])
  /\ compare_configs x y simplified from_file to_file
     = (false, [ConfigurationsMatch]).
Proof.
  intros Hwf Hsame. unfold compare_configs.
  rewrite (py_eq_same_document x Hwf x (same_document_refl x)).
  by rewrite (py_eq_same_document x Hwf y Hsame).
Qed.

End Equality.

(** *** The matcher stays inside its region *)

Section Matcher.

Variables a b : list string.

Lemma j2len_get_ok (Q : nat * nat -> Prop) j2len key :
  Forall Q j2len ->
  j2len_get j2len key = 0 \/ Q (key, j2len_get j2len key).
Proof.
  induction 1 as [|[j k] j2len Hjk _ IH]; simpl; [by left|].
  destruct (j =? key)%nat eqn:E; [|exact IH].
  apply Nat.eqb_eq in E as ->. by right.
Qed.

Section Region.

Variables alo ahi blo bhi : nat.

Lemma scan_row_inside i j2len js : forall bst newj2len,
  alo <= i < ahi ->
  Forall (len_ok alo blo bhi i) j2len ->
  inside alo ahi blo bhi bst ->
  Forall (len_ok alo blo bhi (S i)) newj2len ->
  inside alo ahi blo bhi (fst (scan_row i blo bhi j2len js bst newj2len))
  /\ Forall (len_ok alo blo bhi (S i))
       (snd (scan_row i blo bhi j2len js bst newj2len)).
Proof.
  intros bst newj2len Hi Hj2len.
  revert bst newj2len.
  induction js as [|j js IH]; intros bst newj2len Hbst Hnew; simpl; [done|].
  destruct (j <? blo)%nat eqn:Hlo; [by apply IH|].
  destruct (bhi <=? j)%nat eqn:Hhi; [done|].
  apply Nat.ltb_ge in Hlo. apply Nat.leb_gt in Hhi.
  set (k' := match j with O => 0 | S j' => j2len_get j2len j' end).
  assert (Hk' : k' + alo <= i /\ k' + blo <= j).
  { subst k'. destruct j as [|j']; [lia|].
    destruct (j2len_get_ok _ j2len j' Hj2len) as [->|Hok]; [lia|].
    unfold len_ok in Hok. lia. }
  apply IH.
  - destruct (snd bst <? S k')%nat; [|done]. unfold inside. lia.
  - constructor; [|done]. unfold len_ok. lia.
Qed.

Lemma scan_rows_inside count : forall i j2len bst,
  alo <= i -> i + count <= ahi ->
  Forall (len_ok alo blo bhi i) j2len ->
  inside alo ahi blo bhi bst ->
  inside alo ahi blo bhi (scan_rows a b count i blo bhi j2len bst).
Proof.
  induction count as [|count IH]; intros i j2len bst Hlo Hhi Hj2len Hbst;
    simpl; [done|].
  destruct (scan_row i blo bhi j2len (b2j b (item a i)) bst [])
    as [bst' newj2len] eqn:Hrow.
  destruct (scan_row_inside i j2len (b2j b (item a i)) bst [])
    as [Hbst' Hnew]; [lia|done|done|constructor|].
  rewrite Hrow in Hbst', Hnew. apply IH; [lia|lia|done|done].
Qed.

Lemma extend_back_inside besti : forall bestj bestsize,
  inside alo ahi blo bhi (besti, bestj, bestsize) ->
  inside alo ahi blo bhi (extend_back a b alo blo besti bestj bestsize).
Proof.
  induction besti as [|besti IH]; intros bestj bestsize Hin; simpl; [done|].
  destruct ((alo <? S besti)%nat && (blo <? bestj)%nat
            && String.eqb (item a besti) (item b (bestj - 1))) eqn:E; [|done].
  apply andb_true_iff in E as [[Hi%Nat.ltb_lt Hj%Nat.ltb_lt]%andb_true_iff _].
  apply IH. unfold inside in *. lia.
Qed.

Lemma extend_forward_inside room : forall besti bestj bestsize,
  besti + bestsize + room <= ahi ->
  inside alo ahi blo bhi (besti, bestj, bestsize) ->
  inside alo ahi blo bhi
    (extend_forward a b room bhi besti bestj bestsize).
Proof.
  induction room as [|room IH]; intros besti bestj bestsize Hroom Hin;
    simpl; [done|].
  destruct ((bestj + bestsize <? bhi)%nat
            && String.eqb (item a (besti + bestsize))
                 (item b (bestj + bestsize))) eqn:E; [|done].
  apply andb_true_iff in E as [Hj%Nat.ltb_lt _].
  apply IH; [lia|]. unfold inside in *. lia.
Qed.

Lemma find_longest_match_inside :
  alo <= ahi -> blo <= bhi ->
  inside alo ahi blo bhi (find_longest_match a b alo ahi blo bhi).
Proof.
  intros Ha Hb. unfold find_longest_match.
  pose proof (scan_rows_inside (ahi - alo) alo [] (alo, blo, 0)) as Hscan.
  destruct (scan_rows a b (ahi - alo) alo blo bhi [] (alo, blo, 0))
    as [[besti bestj] bestsize].
  pose proof (extend_back_inside besti bestj bestsize) as Hback.
  destruct (extend_back a b alo blo besti bestj bestsize)
    as [[besti' bestj'] bestsize'].
  assert (Hin : inside alo ahi blo bhi (besti', bestj', bestsize')).
  { apply Hback, Hscan; [lia|lia|constructor|]. unfold inside. lia. }
  apply extend_forward_inside; [|done]. unfold inside in Hin. lia.
Qed.

End Region.

(** *** The matching blocks *)

Local Abbreviation la := (length a).
Local Abbreviation lb := (length b).

Lemma total_size_app l1 l2 :
  total_size (l1 ++ l2) = total_size l1 + total_size l2.
Proof. apply sum_list_with_app. Qed.

Lemma queue_room_app q1 q2 : queue_room (q1 ++ q2) = queue_room q1 + queue_room q2.
Proof. apply sum_list_with_app. Qed.

Lemma match_queue_inside fuel : forall queue blocks,
  Forall (region_ok la lb) queue ->
  Forall (inside 0 la 0 lb) blocks ->
  total_size blocks + queue_room queue <= la ->
  Forall (inside 0 la 0 lb) (match_queue a b fuel queue blocks)
  /\ total_size (match_queue a b fuel queue blocks) <= la.
Proof.
  induction fuel as [|fuel IH]; intros queue blocks Hq Hbl Hroom.
  { simpl. split; [done|lia]. }
  destruct queue as [|[[[alo ahi] blo] bhi] queue]; simpl.
  { split; [done|lia]. }
  apply Forall_cons in Hq as [(Ha1 & Ha2 & Hb1 & Hb2) Hq].
  pose proof (find_longest_match_inside alo ahi blo bhi Ha1 Hb1) as Hin.
  destruct (find_longest_match a b alo ahi blo bhi) as [[i j] k].
  destruct Hin as (Hi1 & Hi2 & Hj1 & Hj2).
  unfold queue_room in Hroom. simpl in Hroom. fold (queue_room queue) in Hroom.
  destruct (k =? 0)%nat; [apply IH; [done|done|lia]|].
  apply IH.
  - apply Forall_app. split; [|apply Forall_app; split; [|done]].
    + destruct ((i + k <? ahi)%nat && (j + k <? bhi)%nat); constructor; [|done].
      unfold region_ok. lia.
    + destruct ((alo <? i)%nat && (blo <? j)%nat); constructor; [|done].
      unfold region_ok. lia.
  - apply Forall_app. split; [done|]. constructor; [|done]. unfold inside. lia.
  - rewrite total_size_app, !queue_room_app.
    destruct ((i + k <? ahi)%nat && (j + k <? bhi)%nat);
      destruct ((alo <? i)%nat && (blo <? j)%nat);
      change (total_size [(i, j, k)]) with (k + 0);
      unfold queue_room; simpl; fold (queue_room queue); lia.
Qed.

Lemma insert_block_perm x l : Permutation (insert_block x l) (x :: l).
Proof.
  induction l as [|y l IH]; simpl; [done|].
  destruct (block_leb x y); [done|].
  rewrite IH. apply perm_swap.
Qed.

Lemma sort_blocks_perm l : Permutation (sort_blocks l) l.
Proof.
  induction l as [|x l IH]; simpl; [done|].
  rewrite insert_block_perm. by constructor.
Qed.

Lemma total_size_cons i j k l : total_size ((i, j, k) :: l) = k + total_size l.
Proof. reflexivity. Qed.

Lemma collapse_inside blocks : forall i1 j1 k1,
  inside 0 la 0 lb (i1, j1, k1) ->
  Forall (inside 0 la 0 lb) blocks ->
  Forall (inside 0 la 0 lb) (collapse i1 j1 k1 blocks)
  /\ total_size (collapse i1 j1 k1 blocks) = k1 + total_size blocks.
Proof.
  induction blocks as [|[[i2 j2] k2] blocks IH]; intros i1 j1 k1 Hin Hbl;
    cbn [collapse].
  - destruct (k1 =? 0)%nat eqn:E.
    + apply Nat.eqb_eq in E as ->. done.
    + split; [by constructor|]. by rewrite total_size_cons.
  - apply Forall_cons in Hbl as [Hin2 Hbl]. rewrite total_size_cons.
    destruct ((i1 + k1 =? i2)%nat && (j1 + k1 =? j2)%nat) eqn:E.
    + apply andb_true_iff in E as [Hi%Nat.eqb_eq Hj%Nat.eqb_eq].
      destruct (IH i1 j1 (k1 + k2)) as [Hall Hsum]; [|done|].
      { unfold inside in *. lia. }
      split; [done|]. rewrite Hsum. lia.
    + destruct (IH i2 j2 k2 Hin2 Hbl) as [Hall Hsum].
      rewrite total_size_app, Hsum. split.
      * apply Forall_app. split; [|done].
        destruct (k1 =? 0)%nat; by constructor.
      * destruct (k1 =? 0)%nat eqn:E1.
        -- apply Nat.eqb_eq in E1 as ->. done.
        -- rewrite total_size_cons. change (total_size []) with 0. lia.
Qed.

(** The blocks of [get_matching_blocks] without the sentinel that ends
    them. *)
Lemma get_matching_blocks_inside :
  exists blocks,
    get_matching_blocks a b = blocks ++ [(la, lb, 0)]
    /\ Forall (inside 0 la 0 lb) blocks
    /\ total_size blocks <= la.
Proof.
  unfold get_matching_blocks. eexists. split; [reflexivity|].
  destruct (match_queue_inside (2 * la + 1) [(0, la, 0, lb)] [])
    as [Hall Hsum].
  { constructor; [|done]. unfold region_ok. lia. }
  { done. }
  { unfold queue_room, total_size. simpl. lia. }
  destruct (collapse_inside
              (sort_blocks (match_queue a b (2 * la + 1) [(0, la, 0, lb)] []))
              0 0 0) as [Hall' Hsum'].
  { unfold inside. lia. }
  { by rewrite sort_blocks_perm. }
  split; [done|]. rewrite Hsum'. simpl.
  unfold total_size. rewrite sort_blocks_perm. exact Hsum.
Qed.

(** *** What the opcodes add *)

Lemma slice_length {A} (l : list A) i1 i2 :
  i2 <= length l -> length (slice l i1 i2) = i2 - i1.
Proof. intros H. unfold slice. rewrite length_take, length_drop. lia. Qed.

Lemma added_app codes1 codes2 :
  added b (codes1 ++ codes2) = added b codes1 + added b codes2.
Proof. apply sum_list_with_app. Qed.

Lemma added_cons c codes : added b (c :: codes) = added_by b c + added b codes.
Proof. reflexivity. Qed.

(** Between two blocks, whatever of [b] lies there is inserted or
    replaces something. *)
Lemma gap_added i ai j bj :
  bj <= lb ->
  bj - j <=
  added b (if (i <? ai)%nat && (j <? bj)%nat then [Opcode Replace i ai j bj]
           else if (i <? ai)%nat then [Opcode Delete i ai j bj]
           else if (j <? bj)%nat then [Opcode Insert i ai j bj]
           else []).
Proof.
  intros Hbj.
  destruct (i <? ai)%nat, (j <? bj)%nat eqn:Hj; simpl;
    rewrite ?added_cons; unfold added_by; simpl;
    rewrite ?slice_length by done;
    try apply Nat.ltb_ge in Hj; lia.
Qed.

Lemma opcodes_from_added blocks : forall i j,
  Forall (inside 0 la 0 lb) blocks ->
  lb <= j + total_size blocks
        + added b (opcodes_from i j (blocks ++ [(la, lb, 0)])).
Proof.
  induction blocks as [|[[ai bj] size] blocks IH]; intros i j Hbl.
  - cbn [app opcodes_from]. rewrite !added_app.
    pose proof (gap_added i la j lb (Nat.le_refl _)). lia.
  - apply Forall_cons in Hbl as [(_ & _ & _ & Hbj) Hbl].
    cbn [app opcodes_from]. rewrite total_size_cons, !added_app.
    pose proof (gap_added i ai j bj ltac:(lia)).
    pose proof (IH (ai + size) (bj + size) Hbl). lia.
Qed.

Lemma get_opcodes_added : lb - la <= added b (get_opcodes a b).
Proof.
  unfold get_opcodes.
  destruct get_matching_blocks_inside as (blocks & -> & Hbl & Hsum).
  pose proof (opcodes_from_added blocks 0 0 Hbl) as H.
  set (t := total_size _) in *. set (n := added _ _) in *. lia.
Qed.

(** *** Grouping keeps every change *)

Lemma changes_app codes1 codes2 :
  changes (codes1 ++ codes2) = changes codes1 ++ changes codes2.
Proof. apply List.filter_app. Qed.

Lemma added_changes codes : added b (changes codes) = added b codes.
Proof.
  unfold added, changes.
  induction codes as [|[[] i1 i2 j1 j2] codes IH]; simpl; rewrite ?IH; done.
Qed.

Lemma changes_fix_first n codes : changes (fix_first n codes) = changes codes.
Proof.
  destruct codes as [|[[] i1 i2 j1 j2] codes]; done.
Qed.

Lemma changes_fix_last n codes : changes (fix_last n codes) = changes codes.
Proof.
  induction codes as [|c codes IH]; [done|].
  destruct codes as [|c' codes].
  - destruct c as [[] i1 i2 j1 j2]; done.
  - change (fix_last n (c :: c' :: codes))
      with ([c] ++ fix_last n (c' :: codes)).
    change (c :: c' :: codes) with ([c] ++ c' :: codes).
    by rewrite !changes_app, IH.
Qed.

Lemma changes_group_codes n codes : forall group,
  changes (concat (group_codes n codes group)) = changes (group ++ codes).
Proof.
  induction codes as [|c codes IH]; intros group; cbn [group_codes].
  - rewrite app_nil_r. destruct group as [|c [|c' group]]; [done| |].
    + destruct c as [[] i1 i2 j1 j2]; done.
    + simpl. by rewrite app_nil_r.
  - destruct (is_equal (op_tag c) && (n + n <? op_i2 c - op_i1 c)%nat) eqn:E.
    + apply andb_true_iff in E as [Heq _].
      cbn [concat]. rewrite !changes_app, IH, !changes_app.
      assert (Hc : forall c', op_tag c' = op_tag c -> changes [c'] = []).
      { intros c' Htag. unfold changes. simpl. by rewrite Htag, Heq. }
      rewrite (Hc (trim_back n c)), (Hc (trim_front n c)) by done.
      change (c :: codes) with ([c] ++ codes).
      rewrite changes_app, (Hc c) by done. by rewrite app_nil_r.
    + rewrite IH, <- app_assoc. done.
Qed.

Lemma get_grouped_opcodes_added n :
  added b (concat (get_grouped_opcodes a b n)) = added b (get_opcodes a b).
Proof.
  unfold get_grouped_opcodes.
  rewrite <- added_changes, changes_group_codes, app_nil_l.
  rewrite changes_fix_last, changes_fix_first, added_changes.
  by destruct (get_opcodes a b).
Qed.

(** *** Counting the additions of the diff *)

Lemma count_lines_app f l1 l2 :
  count_lines f (l1 ++ l2) = count_lines f l1 + count_lines f l2.
Proof. induction l1 as [|x l1 IH]; simpl; [done|]. rewrite IH. lia. Qed.

Lemma count_prefix_lines_none f p l :
  (forall line, f (p ++ line)%string = false) ->
  count_lines f (prefix_lines p l) = 0.
Proof. intros H. induction l as [|x l IH]; simpl; [done|]. by rewrite H, IH. Qed.

Lemma count_prefix_lines_all f p l :
  Forall (fun line => f (p ++ line)%string = true) l ->
  count_lines f (prefix_lines p l) = length l.
Proof. induction 1 as [|x l Hx _ IH]; simpl; [done|]. by rewrite Hx, IH. Qed.

Hypothesis b_lines : Forall (fun line => startswith "++" line = false) b.

Lemma slice_b_additions j1 j2 :
  Forall (fun line => is_addition ("+" ++ line) = true) (slice b j1 j2).
Proof.
  unfold slice. apply Forall_take, Forall_drop.
  eapply Forall_impl; [exact b_lines|].
  intros line Hline. unfold is_addition, startswith in *. simpl.
  rewrite Hline. by destruct line.
Qed.

Lemma count_opcode_lines c :
  count_lines is_addition (opcode_lines a b c) = added_by b c.
Proof.
  unfold opcode_lines, added_by. destruct (op_tag c).
  - rewrite count_lines_app, count_prefix_lines_none by done.
    rewrite count_prefix_lines_all by apply slice_b_additions. done.
  - by rewrite count_prefix_lines_none.
  - by rewrite count_prefix_lines_all by apply slice_b_additions.
  - by rewrite count_prefix_lines_none.
Qed.

Lemma count_opcodes_lines codes :
  count_lines is_addition (concat (map (opcode_lines a b) codes))
  = added b codes.
Proof.
  induction codes as [|c codes IH]; [done|].
  cbn [map concat]. by rewrite count_lines_app, count_opcode_lines, IH.
Qed.

Lemma count_hunk group :
  count_lines is_addition (hunk a b group) = added b group.
Proof.
  unfold hunk. destruct group as [|c group]; [done|].
  destruct (last (c :: group)) as [c'|] eqn:Hlast.
  - cbn [count_lines]. by rewrite count_opcodes_lines.
  - by apply last_None in Hlast.
Qed.

Lemma count_unified_diff fromfile tofile :
  count_lines is_addition (unified_diff a b fromfile tofile)
  = added b (concat (get_grouped_opcodes a b 3)).
Proof.
  unfold unified_diff.
  destruct (get_grouped_opcodes a b 3) as [|g groups]; [done|].
  cbn [count_lines]. change (is_addition ("--- " ++ fromfile)) with false.
  change (is_addition ("+++ " ++ tofile)) with false.
  cbn [Nat.add]. induction (g :: groups) as [|g' gs IH]; [done|].
  cbn [map concat]. by rewrite count_lines_app, count_hunk, IH, added_app.
Qed.

(** When [b] has more lines than [a], the diff has a line that counts as
    an addition. *)
Lemma unified_diff_additions fromfile tofile :
  la < lb ->
  1 <= count_lines is_addition (unified_diff a b fromfile tofile).
Proof.
  intros Hlen. rewrite count_unified_diff, get_grouped_opcodes_added.
  pose proof get_opcodes_added. lia.
Qed.

End Matcher.

(** *** The lines of the encoder *)

Section Strings.

Lemma append_nil_r s : (s ++ "")%string = s.
Proof. induction s as [|c s IH]; simpl; congruence. Qed.

Lemma append_assoc s1 s2 s3 : ((s1 ++ s2) ++ s3)%string = (s1 ++ s2 ++ s3)%string.
Proof. induction s1 as [|c s1 IH]; simpl; congruence. Qed.

Lemma chars_append s1 s2 : chars (s1 ++ s2)%string = chars s1 ++ chars s2.
Proof. induction s1 as [|c s1 IH]; simpl; [done|]. by rewrite <- IH. Qed.

Lemma join_cons sep p rest :
  rest <> [] -> join sep (p :: rest) = (p ++ sep ++ join sep rest)%string.
Proof. by destruct rest. Qed.

Lemma join_with_prefix sep p lines :
  join sep (with_prefix p lines) = (p ++ join sep lines)%string.
Proof.
  destruct lines as [|first [|second rest]]; simpl.
  - by rewrite append_nil_r.
  - done.
  - by rewrite append_assoc.
Qed.

Lemma with_suffix_not_nil s lines : with_suffix s lines <> [].
Proof. by destruct lines as [|first [|second rest]]. Qed.

Lemma with_prefix_not_nil p lines : with_prefix p lines <> [].
Proof. by destruct lines. Qed.

Lemma join_with_suffix sep s lines :
  join sep (with_suffix s lines) = (join sep lines ++ s)%string.
Proof.
  induction lines as [|first lines IH]; [done|].
  destruct lines as [|second rest]; [done|].
  change (with_suffix s (first :: second :: rest))
    with (first :: with_suffix s (second :: rest)).
  rewrite !join_cons by (done || apply with_suffix_not_nil).
  by rewrite IH, !append_assoc.
Qed.

Lemma join_app sep l1 l2 :
  l1 <> [] -> l2 <> [] ->
  join sep (l1 ++ l2) = (join sep l1 ++ sep ++ join sep l2)%string.
Proof.
  intros H1 H2. induction l1 as [|p l1 IH]; [done|].
  destruct l1 as [|q l1].
  - cbn [app]. by rewrite join_cons.
  - change ((p :: q :: l1) ++ l2) with (p :: (q :: l1) ++ l2).
    rewrite !join_cons by done. rewrite IH by done.
    by rewrite !append_assoc.
Qed.

Lemma body_lines_not_nil ind chunks : chunks <> [] -> body_lines ind chunks <> [].
Proof.
  destruct chunks as [|c [|c' chunks]]; [done| |]; intros _.
  - apply with_prefix_not_nil.
  - cbn [body_lines]. destruct (with_suffix "," c) eqn:E; [|done].
    by apply with_suffix_not_nil in E.
Qed.

Lemma join_body ind chunks :
  chunks <> [] ->
  join newline (body_lines ind chunks)
  = (ind ++ join ("," ++ newline ++ ind) (map (join newline) chunks))%string.
Proof.
  intros Hne. induction chunks as [|c chunks IH]; [done|]. clear Hne.
  destruct chunks as [|c' chunks].
  - cbn [body_lines map join]. apply join_with_prefix.
  - change (body_lines ind (c :: c' :: chunks))
      with (with_prefix ind (with_suffix "," c) ++ body_lines ind (c' :: chunks)).
    rewrite join_app; [|apply with_prefix_not_nil|by apply body_lines_not_nil].
    rewrite join_with_prefix, join_with_suffix, IH by done.
    change (map (join newline) (c :: c' :: chunks))
      with (join newline c :: map (join newline) (c' :: chunks)).
    rewrite join_cons by done. by rewrite !append_assoc.
Qed.

End Strings.

Section SortByKey.

Context {A B : Type} (f : A -> B).

Lemma insert_by_key_map (e : string * A) l :
  insert_by_key (fst e, f (snd e)) (map (fun x => (fst x, f (snd x))) l)
  = map (fun x => (fst x, f (snd x))) (insert_by_key e l).
Proof.
  induction l as [|e' l IH]; simpl; [done|].
  destruct (fst e <=? fst e')%string; simpl; [done|]. by rewrite IH.
Qed.

Lemma sort_by_key_map (l : list (string * A)) :
  sort_by_key (map (fun x => (fst x, f (snd x))) l)
  = map (fun x => (fst x, f (snd x))) (sort_by_key l).
Proof.
  induction l as [|e l IH]; simpl; [done|].
  unfold sort_by_key in *. simpl. rewrite IH. apply insert_by_key_map.
Qed.

End SortByKey.

Lemma insert_by_key_perm {A} (e : string * A) l :
  Permutation (insert_by_key e l) (e :: l).
Proof.
  induction l as [|e' l IH]; simpl; [done|].
  destruct (fst e <=? fst e')%string; [done|].
  rewrite IH. apply perm_swap.
Qed.

Lemma sort_by_key_perm {A} (l : list (string * A)) :
  Permutation (sort_by_key l) l.
Proof.
  induction l as [|e l IH]; simpl; [done|].
  unfold sort_by_key in *. simpl. rewrite insert_by_key_perm. by constructor.
Qed.

Lemma sort_by_key_not_nil {A} (l : list (string * A)) :
  l <> [] -> sort_by_key l <> [].
Proof.
  intros Hl Hs. pose proof (sort_by_key_perm l) as Hp. rewrite Hs in Hp.
  by apply Permutation_nil in Hp.
Qed.

Lemma encode_join o : forall level,
  encode level o = join newline (encode_lines level o).
Proof.
  induction o as [| | | |items IH|members IH] using json_nested_ind;
    intros level; try done.
  - destruct items as [|x items]; [done|].
    cbn [encode encode_lines].
    rewrite join_cons by (by destruct (body_lines _ _)).
    rewrite join_app; [|by apply body_lines_not_nil|done].
    rewrite join_body by done.
    rewrite map_map.
    rewrite (map_ext_Forall (encode (S level))
               (fun x => join newline (encode_lines (S level) x))
               (l := x :: items)).
    + unfold newline_indent. cbn [join]. by rewrite !append_assoc.
    + eapply Forall_impl; [exact IH|]. intros y Hy. apply Hy.
  - destruct members as [|e members]; [done|].
    cbn [encode encode_lines].
    set (ms := e :: members) in *.
    assert (Hms : ms <> []) by done. clearbody ms.
    assert (Hsorted :
      map (fun e => (encode_string (fst e) ++ ": " ++ snd e)%string)
        (sort_by_key (map (fun e => (fst e, encode (S level) (snd e))) ms))
      = map (join newline)
          (map (fun e => with_prefix (encode_string (fst e) ++ ": ")%string (snd e))
             (sort_by_key
                (map (fun e => (fst e, encode_lines (S level) (snd e))) ms)))).
    { rewrite !sort_by_key_map, !map_map.
      apply map_ext_Forall.
      rewrite (sort_by_key_perm ms).
      eapply Forall_impl; [exact IH|]. intros [k v] Hv. cbn [fst snd] in *.
      rewrite join_with_prefix, (Hv (S level)). by rewrite append_assoc. }
    rewrite Hsorted.
    assert (Hne :
      map (fun e => with_prefix (encode_string (fst e) ++ ": ")%string (snd e))
        (sort_by_key (map (fun e => (fst e, encode_lines (S level) (snd e))) ms))
      <> []).
    { intros Hnil. apply map_eq_nil in Hnil.
      apply sort_by_key_not_nil in Hnil; [done|]. by destruct ms. }
    rewrite join_cons by (by destruct (body_lines _ _)).
    rewrite join_app; [|by apply body_lines_not_nil|done].
    rewrite join_body by done.
    unfold newline_indent. cbn [join]. by rewrite !append_assoc.
Qed.

(** No token of the encoder contains a line break. *)
Section BreakFree.

Lemma break_free_append s1 s2 :
  break_free (s1 ++ s2)%string = break_free s1 && break_free s2.
Proof. unfold break_free. by rewrite chars_append, forallb_app. Qed.

Lemma break_free_spaces n : break_free (spaces n) = true.
Proof. induction n as [|n IH]; [done|]. simpl. exact IH. Qed.

Lemma break_free_escape_char c : break_free (escape_char c) = true.
Proof. destruct c as [[] [] [] [] [] [] [] []]; reflexivity. Qed.

Lemma break_free_escape s : break_free (escape s) = true.
Proof.
  induction s as [|c s IH]; [done|]. simpl.
  by rewrite break_free_append, break_free_escape_char, IH.
Qed.

Lemma break_free_encode_string s : break_free (encode_string s) = true.
Proof.
  unfold encode_string. by rewrite !break_free_append, break_free_escape.
Qed.

Lemma break_free_uint d : break_free (NilEmpty.string_of_uint d) = true.
Proof. induction d; simpl; done. Qed.

Lemma break_free_nilzero d : break_free (NilZero.string_of_uint d) = true.
Proof.
  unfold NilZero.string_of_uint. destruct d; [done|..]; apply break_free_uint.
Qed.

Lemma break_free_int_str z : break_free (int_str z) = true.
Proof.
  unfold int_str. destruct (Z.to_int z) as [d|d]; simpl.
  - apply break_free_nilzero.
  - apply (break_free_nilzero d).
Qed.

Lemma int_str_not_empty z : int_str z <> EmptyString.
Proof.
  unfold int_str. destruct (Z.to_int z) as [d|d]; [|done].
  by destruct d.
Qed.

Lemma Forall_with_prefix (Q : string -> Prop) p lines :
  (forall s, Q (p ++ s)%string) -> Q p ->
  Forall Q (tail lines) -> Forall Q (with_prefix p lines).
Proof. intros Hp Hp0 Ht. destruct lines; simpl; by constructor. Qed.

Lemma Forall_with_suffix (Q : string -> Prop) s lines :
  (forall l, Q l -> Q (l ++ s)%string) ->
  lines <> [] -> Forall Q lines -> Forall Q (with_suffix s lines).
Proof.
  intros Hs Hne Hall. induction Hall as [|l lines Hl Hall IH]; [done|].
  destruct lines as [|l' lines]; simpl.
  - constructor; [by apply Hs|done].
  - constructor; [done|]. by apply IH.
Qed.

Lemma tail_with_suffix (Q : string -> Prop) s lines :
  (forall l, Q l -> Q (l ++ s)%string) ->
  Forall Q (tail lines) -> Forall Q (tail (with_suffix s lines)).
Proof.
  intros Hs Ht. destruct lines as [|l [|l' lines]]; simpl; [done|done|].
  by apply (Forall_with_suffix Q s (l' :: lines)).
Qed.

Lemma Forall_body_lines (Q : string -> Prop) ind chunks :
  (forall s, Q (ind ++ s)%string) -> Q ind ->
  (forall l, Q l -> Q (l ++ ",")%string) ->
  Forall (fun c => Forall Q (tail c)) chunks ->
  Forall Q (body_lines ind chunks).
Proof.
  intros Hind Hind0 Hcomma Hchunks.
  induction Hchunks as [|c chunks Hc _ IH]; [done|].
  destruct chunks as [|c' chunks].
  - by apply Forall_with_prefix.
  - change (body_lines ind (c :: c' :: chunks))
      with (with_prefix ind (with_suffix "," c) ++ body_lines ind (c' :: chunks)).
    apply Forall_app. split; [|done].
    apply Forall_with_prefix; [done|done|]. by apply tail_with_suffix.
Qed.

Lemma encode_lines_not_nil o level : encode_lines level o <> [].
Proof. destruct o as [| | | |[|x items]|[|e members]]; done. Qed.

Lemma body_lines_break_free n chunks :
  Forall (Forall (fun line => break_free line = true)) chunks ->
  Forall (fun line => break_free line = true) (body_lines (spaces n) chunks).
Proof.
  assert (Hpre : forall lines,
             Forall (fun line => break_free line = true) lines ->
             Forall (fun line => break_free line = true)
               (with_prefix (spaces n) lines)).
  { intros [|l lines] Hl; simpl.
    - repeat constructor. apply break_free_spaces.
    - apply Forall_cons in Hl as [Hl Hls]. constructor; [|done].
      by rewrite break_free_append, break_free_spaces. }
  induction 1 as [|c chunks Hc _ IH]; [done|].
  destruct chunks as [|c' chunks]; [by apply Hpre|].
  change (body_lines ?ind (c :: c' :: chunks))
    with (with_prefix ind (with_suffix "," c) ++ body_lines ind (c' :: chunks)).
  apply Forall_app. split; [|done].
  apply Hpre. destruct c as [|l c]; [by repeat constructor|].
  apply Forall_with_suffix; [|done|done].
  intros l0 Hl0. by rewrite break_free_append, Hl0.
Qed.

Lemma encode_lines_break_free o : forall level,
  Forall (fun line => break_free line = true) (encode_lines level o).
Proof.
  assert (Hclose : forall n s,
             break_free s = true -> break_free (spaces n ++ s) = true).
  { intros n s Hs. by rewrite break_free_append, break_free_spaces. }
  induction o as [|[]|z|s|items IH|members IH] using json_nested_ind;
    intros level; try (by repeat constructor).
  - repeat constructor. apply break_free_int_str.
  - repeat constructor. apply break_free_encode_string.
  - destruct items as [|x items]; [by repeat constructor|].
    cbn [encode_lines]. constructor; [done|].
    apply Forall_app. split; [|repeat constructor; by apply Hclose].
    apply body_lines_break_free, Forall_map.
    eapply Forall_impl; [exact IH|]. intros y Hy. apply Hy.
  - destruct members as [|e members]; [by repeat constructor|].
    cbn [encode_lines]. constructor; [done|].
    apply Forall_app. split; [|repeat constructor; by apply Hclose].
    apply body_lines_break_free, Forall_map.
    rewrite sort_by_key_perm. apply Forall_map.
    eapply Forall_impl; [exact IH|]. intros [k v] Hv. cbn [fst snd] in *.
    specialize (Hv (S level)).
    destruct (encode_lines (S level) v) as [|l lines]; cbn [with_prefix].
    + repeat constructor.
      by rewrite break_free_append, break_free_encode_string.
    + apply Forall_cons in Hv as [Hl Hls]. constructor; [|done].
      by rewrite !break_free_append, break_free_encode_string, Hl.
Qed.

End BreakFree.

Section SplitLines.

Lemma append_not_empty_r s1 s2 : s2 <> EmptyString -> (s1 ++ s2)%string <> EmptyString.
Proof. destruct s1; [done|]. discriminate. Qed.

Lemma encode_lines_last o level :
  exists line, last (encode_lines level o) = Some line /\ line <> EmptyString.
Proof.
  destruct o as [|[]|z|s|[|x items]|[|e members]];
    try (eexists; split; [reflexivity|discriminate]).
  - eexists. split; [reflexivity|]. apply int_str_not_empty.
  - eexists. split; [|by apply (append_not_empty_r (spaces (2 * level)) "]")].
    cbn [encode_lines]. by rewrite app_comm_cons, last_snoc.
  - eexists. split; [|by apply (append_not_empty_r (spaces (2 * level)) "}")].
    cbn [encode_lines]. by rewrite app_comm_cons, last_snoc.
Qed.

Lemma encode_lines_plain o level : plain_lines (encode_lines level o).
Proof. split; [apply encode_lines_break_free|apply encode_lines_last]. Qed.

Lemma splitlines_from_line line : forall cur rest,
  forallb (fun c => negb (is_linebreak c)) line = true ->
  splitlines_from cur false (line ++ ascii_of_nat 10 :: rest)
  = string_of_list_ascii (rev cur ++ line) :: splitlines_from [] false rest.
Proof.
  induction line as [|c line IH]; intros cur rest Hline.
  - cbn. by rewrite app_nil_r.
  - cbn [forallb] in Hline. apply andb_true_iff in Hline as [Hc Hline].
    apply negb_true_iff in Hc.
    cbn [app splitlines_from andb]. rewrite Hc.
    rewrite (IH (c :: cur) rest Hline). cbn [rev]. by rewrite <- app_assoc.
Qed.

Lemma splitlines_from_last line : forall cur,
  forallb (fun c => negb (is_linebreak c)) line = true ->
  rev cur ++ line <> [] ->
  splitlines_from cur false line = [string_of_list_ascii (rev cur ++ line)].
Proof.
  induction line as [|c line IH]; intros cur Hline Hne.
  - cbn. rewrite app_nil_r in *. destruct cur; [done|]. done.
  - cbn [forallb] in Hline. apply andb_true_iff in Hline as [Hc Hline].
    apply negb_true_iff in Hc.
    cbn [splitlines_from andb]. rewrite Hc.
    rewrite (IH (c :: cur) Hline); cbn [rev]; rewrite <- app_assoc; [done|].
    by destruct (rev cur).
Qed.

Lemma splitlines_join lines :
  plain_lines lines -> splitlines (join newline lines) = lines.
Proof.
  intros [Hfree (line & Hlast & Hne)]. unfold splitlines.
  induction lines as [|l lines IH]; [done|].
  apply Forall_cons in Hfree as [Hl Hfree].
  destruct lines as [|l' lines].
  - injection Hlast as ->. cbn [join].
    rewrite splitlines_from_last; [|done|by destruct line].
    cbn [rev app]. by rewrite string_of_list_ascii_of_string.
  - rewrite join_cons by done. rewrite chars_append.
    change (chars (newline ++ ?s)) with (ascii_of_nat 10 :: chars s).
    rewrite splitlines_from_line by done.
    cbn [rev app]. rewrite string_of_list_ascii_of_string.
    f_equal. by apply IH.
Qed.

(** What [json.dumps(o, indent=2, sort_keys=True).splitlines()] is. *)
Lemma splitlines_dumps o : splitlines (dumps o) = encode_lines 0 o.
Proof.
  unfold dumps. rewrite encode_join. apply splitlines_join, encode_lines_plain.
Qed.

End SplitLines.

Section Lines.

Lemma length_with_prefix p lines :
  length (with_prefix p lines) = max 1 (length lines).
Proof. by destruct lines. Qed.

Lemma length_with_suffix s lines :
  length (with_suffix s lines) = max 1 (length lines).
Proof.
  induction lines as [|l lines IH]; [done|].
  destruct lines as [|l' lines]; [done|].
  change (with_suffix s (l :: l' :: lines))
    with (l :: with_suffix s (l' :: lines)).
  cbn [length] in *. lia.
Qed.

Lemma length_body_lines ind chunks :
  length (body_lines ind chunks)
  = sum_list_with (fun c => max 1 (length c)) chunks.
Proof.
  induction chunks as [|c chunks IH]; [done|].
  destruct chunks as [|c' chunks].
  - cbn [body_lines sum_list_with]. rewrite length_with_prefix. lia.
  - change (body_lines ind (c :: c' :: chunks))
      with (with_prefix ind (with_suffix "," c) ++ body_lines ind (c' :: chunks)).
    rewrite length_app, IH, length_with_prefix, length_with_suffix.
    cbn [sum_list_with]. lia.
Qed.

(** The number of lines of a dict that is not empty: the two braces and
    the lines of its values. *)
Lemma length_encode_lines_obj level members :
  members <> [] ->
  length (encode_lines level (JObj members))
  = 2 + sum_list_with
          (fun e => max 1 (length (encode_lines (S level) (snd e)))) members.
Proof.
  intros Hne. destruct members as [|e members]; [done|].
  cbn [encode_lines]. set (ms := e :: members). clearbody ms.
  cbn [length]. rewrite length_app, length_body_lines.
  cbn [length]. rewrite sort_by_key_map.
  set (f := fun e : string * json =>
              max 1 (length (encode_lines (S level) (snd e)))).
  assert (Hsum : forall l : list (string * json),
    sum_list_with (fun c => max 1 (length c))
      (map (fun e => with_prefix (encode_string (fst e) ++ ": ")%string (snd e))
         (map (fun x => (fst x, encode_lines (S level) (snd x))) l))
    = sum_list_with f l).
  { induction l as [|[k v] l IHl]; [done|].
    cbn [map sum_list_with fst snd]. rewrite IHl, length_with_prefix.
    unfold f. cbn [snd]. lia. }
  rewrite Hsum. rewrite (sort_by_key_perm ms). lia.
Qed.

Lemma prefix_empty s : String.prefix "" s = true.
Proof. by destruct s. Qed.

Lemma no_plus_append_comma l :
  no_plus l = true -> no_plus (l ++ ",") = true.
Proof.
  destruct l as [|c l]; [done|]. unfold no_plus, startswith.
  cbn [String.append String.prefix]. destruct (ascii_dec _ _); [|done].
  by rewrite !prefix_empty.
Qed.

Lemma no_plus_indent level s : no_plus (spaces (2 * S level) ++ s) = true.
Proof. reflexivity. Qed.

Lemma no_plus_close level s :
  no_plus s = true -> no_plus (spaces (2 * level) ++ s) = true.
Proof. by destruct level. Qed.

(** Every line after the first starts with a space or with the closing
    bracket. *)
Lemma encode_lines_tail_no_plus o : forall level,
  Forall (fun line => no_plus line = true) (tail (encode_lines level o)).
Proof.
  induction o as [|[]|z|s|items IH|members IH] using json_nested_ind;
    intros level; try done.
  - destruct items as [|x items]; [done|].
    cbn [encode_lines tail]. apply Forall_app. split.
    + apply Forall_body_lines.
      * apply no_plus_indent.
      * apply (no_plus_indent level "").
      * apply no_plus_append_comma.
      * apply Forall_map. eapply Forall_impl; [exact IH|].
        intros y Hy. apply Hy.
    + repeat constructor. by apply no_plus_close.
  - destruct members as [|e members]; [done|].
    cbn [encode_lines tail]. apply Forall_app. split.
    + apply Forall_body_lines.
      * apply no_plus_indent.
      * apply (no_plus_indent level "").
      * apply no_plus_append_comma.
      * apply Forall_map. rewrite sort_by_key_perm. apply Forall_map.
        eapply Forall_impl; [exact IH|]. intros [k v] Hv. cbn [fst snd] in *.
        specialize (Hv (S level)).
        by destruct (encode_lines (S level) v).
    + repeat constructor. by apply no_plus_close.
Qed.

Lemma encode_lines_obj_no_plus level members :
  Forall (fun line => no_plus line = true) (encode_lines level (JObj members)).
Proof.
  pose proof (encode_lines_tail_no_plus (JObj members) level) as Ht.
  destruct members as [|e members]; [by repeat constructor|].
  cbn [encode_lines tail] in *. by constructor.
Qed.

End Lines.

(** *** The fuel of the queue loop *)

Section Fuel.

Variables a b : list string.

Lemma queue_turns_app q1 q2 :
  queue_turns (q1 ++ q2) = queue_turns q1 + queue_turns q2.
Proof. apply sum_list_with_app. Qed.

(** The loop of [get_matching_blocks] ends by itself within the turns
    it is given: more turns change nothing. *)
Lemma match_queue_fuel fuel : forall queue blocks extra,
  Forall (region_ok (length a) (length b)) queue ->
  queue_turns queue <= fuel ->
  match_queue a b (fuel + extra) queue blocks
  = match_queue a b fuel queue blocks.
Proof.
  induction fuel as [|fuel IH]; intros queue blocks extra Hq Hturns.
  - destruct queue as [|r queue]; [by destruct extra|].
    unfold queue_turns in Hturns. simpl in Hturns. lia.
  - destruct queue as [|[[[alo ahi] blo] bhi] queue]; [done|].
    apply Forall_cons in Hq as [(Ha1 & Ha2 & Hb1 & Hb2) Hq].
    cbn [Nat.add match_queue].
    pose proof (find_longest_match_inside a b alo ahi blo bhi Ha1 Hb1) as Hin.
    destruct (find_longest_match a b alo ahi blo bhi) as [[i j] k].
    destruct Hin as (Hi1 & Hi2 & Hj1 & Hj2).
    change (queue_turns ((alo, ahi, blo, bhi) :: queue))
      with (2 * (ahi - alo) + 1 + queue_turns queue) in Hturns.
    destruct (k =? 0)%nat eqn:Hk; [apply IH; [done|lia]|].
    apply Nat.eqb_neq in Hk.
    apply IH.
    + apply Forall_app. split; [|apply Forall_app; split; [|done]].
      * destruct ((i + k <? ahi)%nat && (j + k <? bhi)%nat);
          constructor; [|done].
        unfold region_ok. lia.
      * destruct ((alo <? i)%nat && (blo <? j)%nat); constructor; [|done].
        unfold region_ok. lia.
    + rewrite !queue_turns_app.
      destruct ((i + k <? ahi)%nat && (j + k <? bhi)%nat);
        destruct ((alo <? i)%nat && (blo <? j)%nat);
        unfold queue_turns at 1 2; cbn [sum_list_with region_room]; lia.
Qed.

Lemma get_matching_blocks_fuel extra :
  match_queue a b (2 * length a + 1 + extra) [(0, length a, 0, length b)] []
  = match_queue a b (2 * length a + 1) [(0, length a, 0, length b)] [].
Proof.
  apply match_queue_fuel.
  - constructor; [|done]. unfold region_ok. lia.
  - unfold queue_turns. cbn [sum_list_with region_room]. lia.
Qed.

End Fuel.

(** *** One extra top-level key *)

Lemma no_plus_startswith line :
  no_plus line = true -> startswith "++" line = false.
Proof.
  unfold no_plus, startswith. destruct line as [|c line]; [done|].
  cbn [String.prefix]. destruct (ascii_dec _ _); [|done].
  by rewrite prefix_empty.
Qed.

Lemma extra_key_more_lines members members' key value :
  Permutation members' ((key, value) :: members) ->
  length (encode_lines 0 (JObj members))
  < length (encode_lines 0 (JObj members')).
Proof.
  intros Hperm.
  assert (Hne : members' <> []).
  { intros ->. by apply Permutation_nil in Hperm. }
  rewrite (length_encode_lines_obj 0 members') by done.
  rewrite Hperm. cbn [sum_list_with].
  destruct members as [|e members]; [cbn; lia|].
  rewrite length_encode_lines_obj by done. lia.
Qed.

(** C3, as the specification states it, fails: when the extra key sorts
    after the keys of the first document, the line that was last gets a
    comma, and the diff counts it as removed and added again. *)
Lemma extra_last_key_counts_a_removal :
  compare_configs (JObj [("a", JInt 1)]) (JObj [("a", JInt 1); ("b", JInt 2)])
    false "template.json" "live_config.json"
  = (true,
     [ConfigurationsDoNotMatch; DetailedDifferences;
      DiffLine "--- template.json";
      DiffLine "+++ live_config.json";
      DiffLine "@@ -1,3 +1,4 @@";
      DiffLine " {";
      DiffLine ("-  " ++ quoted "a" ++ ": 1");
      DiffLine ("+  " ++ quoted "a" ++ ": 1,");
      DiffLine ("+  " ++ quoted "b" ++ ": 2");
      DiffLine " }";
      Summary 2 1]).
Proof. vm_compute. reflexivity. Qed.

(** A key that sorts first, by contrast, leaves every old line alone. *)
Example extra_first_key_counts_no_removal :
  compare_configs (JObj [("b", JInt 1)]) (JObj [("b", JInt 1); ("a", JInt 2)])
    true "template.json" "live_config.json"
  = (true, [ConfigurationsDoNotMatch; Summary 1 0]).
Proof. vm_compute. reflexivity. Qed.

Lemma compare_configs_same_document_witness :
  compare_configs template_doc template_doc false "template.json"
    "live_config.json"
  = (false, [ConfigurationsMatch])
  /\ compare_configs template_doc live_doc_reordered false "template.json"
       "live_config.json"
     = (false, [ConfigurationsMatch]).
Proof.
  apply compare_configs_same_document.
  - reflexivity.
  - apply same_obj
      with (zs := [("config", JArr [JStr "hostname sw1"; JStr "!"]);
                   ("group", JStr "lab")]).
    + repeat constructor.
    + apply perm_swap.
Defined.

(** *** The matcher finds a longest common block

    For a [b] of fewer than 200 elements no element is popular, and
    [find_longest_match] returns a block of equal elements that no
    other such block of the region exceeds in length. *)

Section Longest.

Variables a b : list string.
Hypothesis small : length b < 200.

Lemma b2j_small elt : b2j b elt = indices_from 0 elt b.
Proof.
  unfold b2j, popular.
  destruct (200 <=? length b)%nat eqn:E; [|done].
  apply Nat.leb_le in E. lia.
Qed.

Lemma elem_of_indices_from l : forall j0 elt j,
  In j (indices_from j0 elt l)
  <-> j0 <= j /\ j < j0 + length l /\ item l (j - j0) = elt.
Proof.
  induction l as [|y l IH]; intros j0 elt j; simpl.
  - split; [done|lia].
  - assert (Hrest : In j (indices_from (S j0) elt l)
                    <-> j0 < j /\ j < j0 + S (length l)
                        /\ item (y :: l) (j - j0) = elt).
    { rewrite IH. unfold item.
      split; intros (H1 & H2 & H3); (split; [lia|split; [lia|]]).
      - replace (j - j0) with (S (j - S j0)) by lia. done.
      - replace (j - j0) with (S (j - S j0)) in H3 by lia. done. }
    destruct (String.eqb y elt) eqn:E.
    + apply String.eqb_eq in E as ->. simpl. rewrite Hrest. split.
      * intros [<-|(H1 & H2 & H3)].
        -- rewrite Nat.sub_diag. unfold item. simpl.
           split; [lia|]. split; [lia|done].
        -- split; [lia|]. split; [lia|done].
      * intros (H1 & H2 & H3).
        destruct (decide (j = j0)) as [->|Hne]; [by left|right].
        split; [lia|]. split; [lia|done].
    + apply String.eqb_neq in E. rewrite Hrest. split.
      * intros (H1 & H2 & H3). split; [lia|]. split; [lia|done].
      * intros (H1 & H2 & H3).
        destruct (decide (j = j0)) as [->|Hne].
        -- rewrite Nat.sub_diag in H3. unfold item in H3. simpl in H3. done.
        -- split; [lia|]. split; [lia|done].
Qed.

Lemma indices_from_sorted l : forall j0 elt,
  StronglySorted lt (indices_from j0 elt l).
Proof.
  induction l as [|y l IH]; intros j0 elt; simpl; [constructor|].
  destruct (String.eqb y elt); [|apply IH].
  constructor; [apply IH|].
  apply Forall_forall. intros j Hj%list_elem_of_In%elem_of_indices_from. lia.
Qed.

Section Region.

Variables alo ahi blo bhi : nat.
Hypothesis bhi_le : bhi <= length b.

Local Abbreviation run := (runlen a b alo blo).
Local Abbreviation prev := (prev_runlen a b alo blo).

Lemma runlen_unfold i j :
  run i j =
  if (alo <=? i)%nat && (blo <=? j)%nat && String.eqb (item a i) (item b j)
  then S (match j with O => 0 | S j' => prev i j' end)
  else 0.
Proof. destruct i, j; reflexivity. Qed.

Lemma runlen_bound i : forall j,
  run i j <= i + 1 - alo /\ run i j <= j + 1 - blo.
Proof.
  induction i as [|i IH]; intros j; rewrite runlen_unfold;
    destruct (_ && _ && _) eqn:E; try lia;
    apply andb_true_iff in E as [[Hi%Nat.leb_le Hj%Nat.leb_le]%andb_true_iff _];
    destruct j as [|j]; cbn [prev_runlen]; try lia.
  specialize (IH j). lia.
Qed.

Lemma common_single i j :
  item a i = item b j -> common a b (i + 1 - 1) (j + 1 - 1) 1.
Proof.
  intros Heq t Ht. assert (t = 0) as -> by lia.
  replace (i + 1 - 1 + 0) with i by lia. replace (j + 1 - 1 + 0) with j by lia.
  done.
Qed.

Lemma runlen_common i : forall j,
  common a b (i + 1 - run i j) (j + 1 - run i j) (run i j).
Proof.
  induction i as [|i IH]; intros j; rewrite runlen_unfold;
    destruct (_ && _ && _) eqn:E; try (intros t Ht; lia);
    apply andb_true_iff in E as [_ Heq%String.eqb_eq].
  - assert (match j with O => 0 | S j' => prev 0 j' end = 0) as ->
      by (by destruct j).
    by apply common_single.
  - destruct j as [|j]; cbn [prev_runlen]; [by apply common_single|].
    pose proof (runlen_bound i j) as [Hb1 Hb2].
    intros t Ht. destruct (decide (t = run i j)) as [->|Hne].
    + replace (S i + 1 - S (run i j) + run i j) with (S i) by lia.
      replace (S j + 1 - S (run i j) + run i j) with (S j) by lia. done.
    + pose proof (IH j t ltac:(lia)) as Hc.
      replace (S i + 1 - S (run i j) + t) with (i + 1 - run i j + t) by lia.
      replace (S j + 1 - S (run i j) + t) with (j + 1 - run i j + t) by lia.
      exact Hc.
Qed.

(** A block of equal elements in the region is seen by the run that
    ends at its last pair. *)
Lemma common_runlen i j k :
  alo <= i -> blo <= j -> common a b i j (S k) -> S k <= run (i + k) (j + k).
Proof.
  intros Hi Hj. induction k as [|k IH]; intros Hc.
  - rewrite !Nat.add_0_r, runlen_unfold.
    apply Nat.leb_le in Hi, Hj. rewrite Hi, Hj. simpl.
    pose proof (Hc 0 ltac:(lia)) as H0. rewrite !Nat.add_0_r in H0.
    rewrite H0, String.eqb_refl. lia.
  - assert (Hk : S k <= run (i + k) (j + k)).
    { apply IH. intros t Ht. apply Hc. lia. }
    rewrite runlen_unfold.
    assert (H1 : (alo <=? i + S k)%nat = true) by (apply Nat.leb_le; lia).
    assert (H2 : (blo <=? j + S k)%nat = true) by (apply Nat.leb_le; lia).
    rewrite H1, H2, (Hc (S k) ltac:(lia)), String.eqb_refl. simpl.
    replace (j + S k) with (S (j + k)) by lia.
    replace (i + S k) with (S (i + k)) by lia. simpl. lia.
Qed.

Lemma runlen_zero i j : item a i <> item b j -> run i j = 0.
Proof.
  intros Hne. rewrite runlen_unfold.
  apply String.eqb_neq in Hne. rewrite Hne. by rewrite andb_false_r.
Qed.

Lemma runlen_below i j : j < blo -> run i j = 0.
Proof.
  intros Hj. rewrite runlen_unfold.
  apply Nat.leb_gt in Hj. rewrite Hj. by rewrite andb_false_r.
Qed.

Hypothesis region : alo <= ahi /\ blo <= bhi.

(** One row of the table: [for j in b2j[a[i]]]. *)
Lemma scan_row_spec i j2len :
  alo <= i < ahi ->
  (forall j, j < bhi -> j2len_get j2len j = prev i j) ->
  forall js m bst newj2len,
    StronglySorted lt js ->
    (forall j, In j js <-> m <= j /\ j < length b /\ item b j = item a i) ->
    m <= bhi ->
    (forall j, j2len_get newj2len j = if (j <? m)%nat then run i j else 0) ->
    best_upto a b alo ahi blo bhi i m bst ->
    best_upto a b alo ahi blo bhi i bhi
      (fst (scan_row i blo bhi j2len js bst newj2len))
    /\ forall j, j < bhi ->
         j2len_get (snd (scan_row i blo bhi j2len js bst newj2len)) j = run i j.
Proof.
  intros Hi Hold js.
  induction js as [|j js IH]; intros m bst newj2len Hsorted Hjs Hm Hnew Hbst.
  - (* nothing of row [i] is left from column [m] on *)
    assert (Hzero : forall j, m <= j -> j < bhi -> run i j = 0).
    { intros j Hj1 Hj2. apply runlen_zero. intros Heq.
      apply (proj2 (Hjs j)). split; [done|]. split; [lia|done]. }
    cbn [scan_row fst snd]. split.
    + destruct Hbst as (H1 & H2 & H3 & H4). repeat split; try done.
      intros j' Hj'. destruct (decide (j' < m)); [by apply H4|].
      rewrite Hzero by lia. lia.
    + intros j Hj. rewrite Hnew. destruct (j <? m)%nat eqn:E; [done|].
      apply Nat.ltb_ge in E. by rewrite Hzero.
  - apply StronglySorted_inv in Hsorted as [Hsorted Hlt].
    assert (Hj : m <= j /\ j < length b /\ item b j = item a i).
    { apply Hjs. by left. }
    destruct Hj as (Hmj & Hjb & Hjeq).
    assert (Hzero : forall j', m <= j' -> j' < j -> run i j' = 0).
    { intros j' H1 H2. apply runlen_zero. intros Heq.
      assert (Hin : In j' (j :: js)).
      { apply Hjs. split; [done|]. split; [lia|done]. }
      destruct Hin as [->|Hin]; [lia|].
      rewrite Forall_forall in Hlt.
      apply list_elem_of_In, Hlt in Hin. lia. }
    assert (Hjs' : forall j', In j' js
                   <-> S j <= j' /\ j' < length b /\ item b j' = item a i).
    { intros j'. split.
      - intros Hin. rewrite Forall_forall in Hlt.
        pose proof (Hlt j' (proj2 (list_elem_of_In _ _) Hin)) as Hjj'.
        assert (Hin' : In j' (j :: js)) by (by right).
        apply Hjs in Hin' as (_ & H2 & H3). split; [lia|done].
      - intros (H1 & H2 & H3).
        assert (Hin : In j' (j :: js)).
        { apply Hjs. split; [lia|done]. }
        destruct Hin as [->|Hin]; [lia|done]. }
    cbn [scan_row].
    destruct (j <? blo)%nat eqn:Hlo.
    { (* [continue] *)
      apply Nat.ltb_lt in Hlo.
      apply (IH (S j)); [done|done|lia| |].
      - intros j'. rewrite Hnew.
        destruct (j' <? m)%nat eqn:E1, (j' <? S j)%nat eqn:E2; try done.
        + apply Nat.ltb_lt in E1. apply Nat.ltb_ge in E2. lia.
        + apply Nat.ltb_ge in E1. apply Nat.ltb_lt in E2.
          destruct (decide (j' = j)) as [->|Hne].
          * by rewrite runlen_below.
          * rewrite Hzero by lia. done.
      - destruct Hbst as (H1 & H2 & H3 & H4). repeat split; try done.
        intros j' Hj'. destruct (decide (j' < m)); [by apply H4|].
        destruct (decide (j' = j)) as [->|Hne].
        + rewrite runlen_below by done. lia.
        + rewrite Hzero by lia. lia. }
    destruct (bhi <=? j)%nat eqn:Hhi.
    { (* [break] *)
      apply Nat.leb_le in Hhi. cbn [fst snd]. split.
      - destruct Hbst as (H1 & H2 & H3 & H4). repeat split; try done.
        intros j' Hj'. destruct (decide (j' < m)); [by apply H4|].
        rewrite Hzero by lia. lia.
      - intros j' Hj'. rewrite Hnew. destruct (j' <? m)%nat eqn:E; [done|].
        apply Nat.ltb_ge in E. by rewrite Hzero by lia. }
    apply Nat.ltb_ge in Hlo. apply Nat.leb_gt in Hhi.
    set (k := S (match j with O => 0 | S j' => j2len_get j2len j' end)).
    assert (Hk : k = run i j).
    { subst k. rewrite runlen_unfold.
      assert (E1 : (alo <=? i)%nat = true) by (apply Nat.leb_le; lia).
      assert (E2 : (blo <=? j)%nat = true) by (by apply Nat.leb_le).
      rewrite E1, E2, <- Hjeq, String.eqb_refl. cbn [andb]. f_equal.
      destruct j as [|j']; [done|]. apply Hold. lia. }
    apply (IH (S j)); [done|done|lia| |].
    + intros j'. cbn [j2len_get]. rewrite Hnew.
      destruct (j =? j')%nat eqn:E.
      * apply Nat.eqb_eq in E as <-.
        assert ((j <? S j)%nat = true) as -> by (apply Nat.ltb_lt; lia). done.
      * apply Nat.eqb_neq in E.
        destruct (j' <? m)%nat eqn:E1, (j' <? S j)%nat eqn:E2; try done.
        -- apply Nat.ltb_lt in E1. apply Nat.ltb_ge in E2. lia.
        -- apply Nat.ltb_ge in E1. apply Nat.ltb_lt in E2.
           rewrite Hzero by lia. done.
    + destruct Hbst as (H1 & H2 & H3 & H4).
      assert (Hrun : forall j', j' < S j ->
                run i j' <= snd bst \/ run i j' <= k).
      { intros j' Hj'. destruct (decide (j' < m)); [left; by apply H4|right].
        destruct (decide (j' = j)) as [->|Hne]; [lia|].
        rewrite Hzero by lia. lia. }
      destruct (snd bst <? k)%nat eqn:Hbetter.
      * apply Nat.ltb_lt in Hbetter.
        pose proof (runlen_bound i j) as [Hb1 Hb2].
        pose proof (runlen_common i j) as Hc. rewrite <- Hk in Hb1, Hb2, Hc.
        repeat split; cbn [fst snd]; try lia; try done.
        -- intros i' j' Hi' Hj'. specialize (H3 i' j' Hi' Hj'). lia.
        -- intros j' Hj'. destruct (Hrun j' Hj'); lia.
      * apply Nat.ltb_ge in Hbetter. repeat split; try done.
        intros j' Hj'. destruct (Hrun j' Hj'); lia.
Qed.

Lemma scan_rows_spec count : forall i j2len bst,
  alo <= i -> i + count = ahi ->
  (forall j, j < bhi -> j2len_get j2len j = prev i j) ->
  best_upto a b alo ahi blo bhi i 0 bst ->
  best_upto a b alo ahi blo bhi ahi 0
    (scan_rows a b count i blo bhi j2len bst).
Proof.
  induction count as [|count IH]; intros i j2len bst Hlo Hhi Hold Hbst.
  - cbn [scan_rows]. destruct Hbst as (H1 & H2 & H3 & H4).
    repeat split; try done; [|lia].
    intros i' j' Hi' Hj'. apply H3; [lia|done].
  - cbn [scan_rows].
    destruct (scan_row_spec i j2len ltac:(lia) Hold
                (b2j b (item a i)) 0 bst []) as [Hbst' Hnew].
    + rewrite b2j_small. apply indices_from_sorted.
    + intros j. rewrite b2j_small, elem_of_indices_from.
      by rewrite Nat.sub_0_r.
    + lia.
    + done.
    + done.
    + destruct (scan_row i blo bhi j2len (b2j b (item a i)) bst [])
        as [bst' newj2len].
      cbn [fst snd] in *. apply IH; [lia|lia|done|].
      destruct Hbst' as (H1 & H2 & H3 & H4). repeat split; try done; [|lia].
      intros i' j' Hi' Hj'.
      destruct (decide (i' = i)) as [->|Hne]; [by apply H4|].
      apply H3; [lia|done].
Qed.

Lemma extend_back_longest besti : forall bestj bestsize,
  longest_in a b alo ahi blo bhi (besti, bestj, bestsize) ->
  longest_in a b alo ahi blo bhi (extend_back a b alo blo besti bestj bestsize).
Proof.
  induction besti as [|besti IH]; intros bestj bestsize Hbest;
    cbn [extend_back]; [done|].
  destruct ((alo <? S besti)%nat && (blo <? bestj)%nat
            && String.eqb (item a besti) (item b (bestj - 1))) eqn:E; [|done].
  apply andb_true_iff in E as [[Hi%Nat.ltb_lt Hj%Nat.ltb_lt]%andb_true_iff
                                 Heq%String.eqb_eq].
  apply IH. destruct Hbest as (Hin & Hc & Hmax). cbn [fst snd] in *.
  repeat split; cbn [fst snd]; try (unfold inside in Hin; lia).
  - intros t Ht. destruct t as [|t].
    + by rewrite !Nat.add_0_r.
    + pose proof (Hc t ltac:(lia)) as Hct.
      replace (besti + S t) with (S besti + t) by lia.
      replace (bestj - 1 + S t) with (bestj + t) by lia. done.
  - intros i j k Hin' Hc'. specialize (Hmax i j k Hin' Hc'). lia.
Qed.

Lemma extend_forward_longest room : forall besti bestj bestsize,
  besti + bestsize + room <= ahi ->
  longest_in a b alo ahi blo bhi (besti, bestj, bestsize) ->
  longest_in a b alo ahi blo bhi
    (extend_forward a b room bhi besti bestj bestsize).
Proof.
  induction room as [|room IH]; intros besti bestj bestsize Hroom Hbest;
    cbn [extend_forward]; [done|].
  destruct ((bestj + bestsize <? bhi)%nat
            && String.eqb (item a (besti + bestsize))
                 (item b (bestj + bestsize))) eqn:E; [|done].
  apply andb_true_iff in E as [Hj%Nat.ltb_lt Heq%String.eqb_eq].
  apply IH; [lia|]. destruct Hbest as (Hin & Hc & Hmax). cbn [fst snd] in *.
  repeat split; cbn [fst snd]; try (unfold inside in Hin; lia).
  - intros t Ht. destruct (decide (t = bestsize)) as [->|Hne]; [done|].
    apply Hc. lia.
  - intros i j k Hin' Hc'. specialize (Hmax i j k Hin' Hc'). lia.
Qed.

Lemma find_longest_match_longest :
  longest_in a b alo ahi blo bhi (find_longest_match a b alo ahi blo bhi).
Proof.
  destruct region as [Ha Hb]. unfold find_longest_match.
  pose proof (scan_rows_spec (ahi - alo) alo [] (alo, blo, 0)) as Hscan.
  destruct (scan_rows a b (ahi - alo) alo blo bhi [] (alo, blo, 0))
    as [[besti bestj] bestsize].
  assert (Hbest : longest_in a b alo ahi blo bhi (besti, bestj, bestsize)).
  { destruct Hscan as (H1 & H2 & H3 & _); [lia|lia| | |].
    - intros j Hj. unfold prev_runlen.
      destruct alo as [|alo'] eqn:Halo; [done|].
      cbn [j2len_get]. symmetry. rewrite <- Halo.
      pose proof (runlen_bound alo' j) as [Hrun _]. lia.
    - repeat split; cbn [fst snd]; try lia; [|intros; lia..].
      intros t Ht. lia.
    - split; [exact H1|]. split; [exact H2|].
      intros i j k (Hi1 & Hi2 & Hj1 & Hj2) Hc. cbn [snd].
      destruct k as [|k]; [lia|].
      pose proof (common_runlen i j k Hi1 Hj1 Hc) as Hrun.
      specialize (H3 (i + k) (j + k) ltac:(lia) ltac:(lia)).
      cbn [snd] in H3. lia. }
  pose proof (extend_back_longest besti bestj bestsize Hbest) as Hback.
  destruct (extend_back a b alo blo besti bestj bestsize)
    as [[besti' bestj'] bestsize'].
  apply extend_forward_longest; [|done].
  destruct Hback as ((_ & H & _) & _). lia.
Qed.

End Region.

End Longest.

(** *** A block of lines inserted into a short document

    [b] is [a] with [x] lines put in after the first [p]; the first
    line of [b], and the line that follows the inserted ones, occur
    nowhere else in [b].  Then every line of [a] ends up in a matching
    block. *)

Ltac decide_tests :=
  repeat match goal with
  | |- context [(?m <? ?n)%nat] =>
      first [ assert ((m <? n)%nat = true) as -> by (apply Nat.ltb_lt; lia)
            | assert ((m <? n)%nat = false) as -> by (apply Nat.ltb_ge; lia) ]
  | |- context [(?m <=? ?n)%nat] =>
      first [ assert ((m <=? n)%nat = true) as -> by (apply Nat.leb_le; lia)
            | assert ((m <=? n)%nat = false) as -> by (apply Nat.leb_gt; lia) ]
  | |- context [(?m =? ?n)%nat] =>
      first [ assert ((m =? n)%nat = true) as -> by (apply Nat.eqb_eq; lia)
            | assert ((m =? n)%nat = false) as -> by (apply Nat.eqb_neq; lia) ]
  end.

Section Insertion.

Variables a b : list string.
Variables p x s : nat.
Hypothesis la_eq : length a = p + s.
Hypothesis lb_eq : length b = p + x + s.
Hypothesis p_pos : 0 < p.
Hypothesis x_pos : 0 < x.
Hypothesis s_pos : 0 < s.
Hypothesis same_before : forall t, t < p -> item a t = item b t.
Hypothesis same_after : forall t, p <= t < p + s -> item a t = item b (t + x).
Hypothesis first_unique :
  forall j, j < length b -> item b j = item b 0 -> j = 0.
Hypothesis anchor_unique :
  forall j, j < length b -> item b j = item b (p + x) -> j = p + x.
Hypothesis small : length b < 200.

Lemma common_before i : i <= p -> common a b 0 0 i.
Proof. intros Hi t Ht. apply same_before. lia. Qed.

Lemma common_after : common a b p (p + x) s.
Proof.
  intros t Ht. rewrite (same_after (p + t)) by lia. f_equal. lia.
Qed.

Lemma whole_match :
  find_longest_match a b 0 (length a) 0 (length b) = (0, 0, p)
  \/ exists i, 0 < i <= p
       /\ find_longest_match a b 0 (length a) 0 (length b)
          = (i, i + x, length a - i).
Proof.
  pose proof (find_longest_match_longest a b small 0 (length a) 0 (length b)
                (Nat.le_refl _) ltac:(lia)) as Hlong.
  destruct (find_longest_match a b 0 (length a) 0 (length b)) as [[i j] k].
  destruct Hlong as ((_ & Hi & _ & Hj) & Hc & Hmax). cbn [fst snd] in *.
  assert (Hkp : p <= k).
  { apply (Hmax 0 0 p); [unfold inside; lia|by apply common_before]. }
  assert (Hks : s <= k).
  { apply (Hmax p (p + x) s); [unfold inside; lia|apply common_after]. }
  assert (Hanchor : i <= p -> p < i + k -> j = i + x).
  { intros H1 H2. pose proof (Hc (p - i) ltac:(lia)) as Heq.
    replace (i + (p - i)) with p in Heq by lia.
    rewrite (same_after p) in Heq by lia.
    symmetry in Heq. apply anchor_unique in Heq; lia. }
  destruct (decide (i = 0)) as [->|Hi0].
  - left. pose proof (Hc 0 ltac:(lia)) as Heq. rewrite !Nat.add_0_r in Heq.
    rewrite (same_before 0) in Heq by lia.
    symmetry in Heq. apply first_unique in Heq as ->; [|lia].
    destruct (decide (k = p)) as [->|Hne]; [done|].
    pose proof (Hanchor ltac:(lia) ltac:(lia)). lia.
  - right. destruct (decide (i + k = length a)) as [Hend|Hend].
    + exists i. split; [lia|].
      rewrite (Hanchor ltac:(lia) ltac:(lia)).
      by replace (length a - i) with k by lia.
    + exfalso. pose proof (Hanchor ltac:(lia) ltac:(lia)) as ->.
      assert (S k <= k); [|lia].
      apply (Hmax i (i + x) (S k)); [unfold inside; lia|].
      intros t Ht. destruct (decide (t = k)) as [->|Hne]; [|apply Hc; lia].
      rewrite (same_after (i + k)) by lia. f_equal. lia.
Qed.

Lemma right_match :
  find_longest_match a b p (length a) p (length b) = (p, p + x, s).
Proof.
  pose proof (find_longest_match_longest a b small p (length a) p (length b)
                (Nat.le_refl _) ltac:(lia)) as Hlong.
  destruct (find_longest_match a b p (length a) p (length b)) as [[i j] k].
  destruct Hlong as ((Hi1 & Hi2 & Hj1 & Hj2) & Hc & Hmax). cbn [fst snd] in *.
  assert (Hks : s <= k).
  { apply (Hmax p (p + x) s); [unfold inside; lia|apply common_after]. }
  assert (i = p) as -> by lia. assert (k = s) as -> by lia.
  pose proof (Hc 0 ltac:(lia)) as Heq. rewrite !Nat.add_0_r in Heq.
  rewrite (same_after p) in Heq by lia.
  symmetry in Heq. apply anchor_unique in Heq as ->; [done|lia].
Qed.

Lemma left_match i :
  0 < i <= p -> find_longest_match a b 0 i 0 (i + x) = (0, 0, i).
Proof.
  intros Hi.
  pose proof (find_longest_match_longest a b small 0 i 0 (i + x)
                ltac:(lia) ltac:(lia)) as Hlong.
  destruct (find_longest_match a b 0 i 0 (i + x)) as [[i' j] k].
  destruct Hlong as ((Hi1 & Hi2 & Hj1 & Hj2) & Hc & Hmax). cbn [fst snd] in *.
  assert (Hk : i <= k).
  { apply (Hmax 0 0 i); [unfold inside; lia|apply common_before; lia]. }
  assert (i' = 0) as -> by lia. assert (k = i) as -> by lia.
  pose proof (Hc 0 ltac:(lia)) as Heq. rewrite !Nat.add_0_r in Heq.
  rewrite (same_before 0) in Heq by lia.
  symmetry in Heq. apply first_unique in Heq as ->; [done|lia].
Qed.

Lemma match_queue_step fuel alo ahi blo bhi queue blocks i j k :
  find_longest_match a b alo ahi blo bhi = (i, j, k) -> k <> 0 ->
  match_queue a b (S fuel) ((alo, ahi, blo, bhi) :: queue) blocks
  = match_queue a b fuel
      ((if (i + k <? ahi)%nat && (j + k <? bhi)%nat
        then [(i + k, ahi, j + k, bhi)] else [])
       ++ (if (alo <? i)%nat && (blo <? j)%nat then [(alo, i, blo, j)] else [])
       ++ queue)
      (blocks ++ [(i, j, k)]).
Proof.
  intros Hm Hk. cbn [match_queue]. rewrite Hm.
  apply Nat.eqb_neq in Hk. by rewrite Hk.
Qed.

Lemma match_queue_nil fuel blocks : match_queue a b fuel [] blocks = blocks.
Proof. by destruct fuel. Qed.

Lemma inserted_matching_blocks :
  exists i, 0 < i <= p
    /\ get_matching_blocks a b
       = [(0, 0, i); (i, i + x, length a - i); (length a, length b, 0)].
Proof.
  unfold get_matching_blocks.
  replace (2 * length a + 1) with (S (S (S (2 * length a - 2)))) by lia.
  destruct whole_match as [Hm|(i & Hi & Hm)].
  - exists p. split; [lia|].
    rewrite (match_queue_step _ _ _ _ _ _ _ _ _ _ Hm) by lia.
    cbn [Nat.add]. decide_tests. cbn [andb app].
    rewrite (match_queue_step _ _ _ _ _ _ _ _ _ _ right_match) by lia.
    decide_tests. cbn [andb app]. rewrite match_queue_nil.
    cbn [sort_blocks foldr insert_block block_leb]. decide_tests.
    cbn [orb andb collapse]. decide_tests. cbn [andb collapse app].
    decide_tests. cbn [andb collapse app]. decide_tests.
    by replace (length a - p) with s by lia.
  - exists i. split; [lia|].
    rewrite (match_queue_step _ _ _ _ _ _ _ _ _ _ Hm) by lia.
    decide_tests. cbn [andb app].
    rewrite (match_queue_step _ _ _ _ _ _ _ _ _ _ (left_match i Hi)) by lia.
    cbn [Nat.add]. decide_tests. cbn [andb app]. rewrite match_queue_nil.
    cbn [sort_blocks foldr insert_block block_leb]. decide_tests.
    cbn [orb andb collapse]. decide_tests. cbn [andb collapse app].
    decide_tests. cbn [andb collapse app]. decide_tests. done.
Qed.

(** Only insertions: no opcode takes a line of [a] out. *)
Lemma inserted_opcodes :
  Forall (fun c => removes (op_tag c) = false) (get_opcodes a b).
Proof.
  unfold get_opcodes.
  destruct inserted_matching_blocks as (i & Hi & ->).
  cbn [opcodes_from]. decide_tests. cbn [andb app].
  decide_tests. cbn [andb app]. decide_tests. cbn [andb app].
  repeat constructor.
Qed.

End Insertion.

(** *** Counting the removals of the diff *)

Section Removals.

Variables a b : list string.

Local Abbreviation keeps := (fun c => removes (op_tag c) = false).

Lemma group_codes_keeps n codes : forall group,
  Forall keeps codes -> Forall keeps group ->
  Forall (Forall keeps) (group_codes n codes group).
Proof.
  induction codes as [|c codes IH]; intros group Hcodes Hgroup;
    cbn [group_codes].
  - destruct group as [|c [|c' group]]; [done| |].
    + destruct (is_equal (op_tag c)); [done|]. by constructor.
    + by constructor.
  - apply Forall_cons in Hcodes as [Hc Hcodes].
    destruct (is_equal (op_tag c) && (n + n <? op_i2 c - op_i1 c)%nat).
    + constructor.
      * apply Forall_app. split; [done|]. by repeat constructor.
      * apply IH; [done|]. by repeat constructor.
    + apply IH; [done|]. apply Forall_app. split; [done|]. by repeat constructor.
Qed.

Lemma fix_first_keeps n codes : Forall keeps codes -> Forall keeps (fix_first n codes).
Proof.
  destruct codes as [|c codes]; [done|]. intros [Hc Hcodes]%Forall_cons.
  cbn [fix_first]. destruct (is_equal (op_tag c)); by constructor.
Qed.

Lemma fix_last_keeps n codes : Forall keeps codes -> Forall keeps (fix_last n codes).
Proof.
  induction codes as [|c codes IH]; [done|]. intros [Hc Hcodes]%Forall_cons.
  destruct codes as [|c' codes].
  - cbn [fix_last]. destruct (is_equal (op_tag c)); by repeat constructor.
  - change (fix_last n (c :: c' :: codes)) with (c :: fix_last n (c' :: codes)).
    constructor; [done|]. by apply IH.
Qed.

Lemma count_removals_opcode c :
  keeps c -> count_lines is_removal (opcode_lines a b c) = 0.
Proof.
  unfold opcode_lines. destruct (op_tag c); try done; intros _;
    by apply count_prefix_lines_none.
Qed.

Lemma count_removals_hunk group :
  Forall keeps group -> count_lines is_removal (hunk a b group) = 0.
Proof.
  intros Hgroup. unfold hunk. destruct group as [|c group]; [done|].
  destruct (last (c :: group)); [|done]. cbn [count_lines].
  change (is_removal _) with false. cbn [Nat.add].
  induction Hgroup as [|c' group' Hc _ IH]; [done|].
  cbn [map concat]. by rewrite count_lines_app, count_removals_opcode, IH.
Qed.

(** When no opcode removes or replaces, the diff has no line that counts
    as a removal. *)
Lemma unified_diff_no_removals fromfile tofile :
  Forall keeps (get_opcodes a b) ->
  count_lines is_removal (unified_diff a b fromfile tofile) = 0.
Proof.
  intros Hcodes. unfold unified_diff.
  assert (Hgroups : Forall (Forall keeps) (get_grouped_opcodes a b 3)).
  { unfold get_grouped_opcodes.
    apply group_codes_keeps; [|done].
    apply fix_last_keeps, fix_first_keeps.
    destruct (get_opcodes a b); [by repeat constructor|done]. }
  destruct (get_grouped_opcodes a b 3) as [|g groups]; [done|].
  cbn [count_lines]. change (is_removal ("--- " ++ fromfile)) with false.
  change (is_removal ("+++ " ++ tofile)) with false. cbn [Nat.add].
  induction Hgroups as [|g' gs Hg _ IH]; [done|].
  cbn [map concat]. by rewrite count_lines_app, count_removals_hunk, IH.
Qed.

End Removals.

(** *** The lines of a dict and their keys *)

Section LineKeys.

Lemma read_key_escape_char c s :
  read_key (escape_char c ++ s) = String c <$> read_key s.
Proof. destruct c as [[] [] [] [] [] [] [] []]; reflexivity. Qed.

Lemma read_key_escape k rest :
  read_key (escape k ++ dquote ++ rest) = Some k.
Proof.
  induction k as [|c k IH]; [done|].
  cbn [escape]. by rewrite append_assoc, read_key_escape_char, IH.
Qed.

Lemma line_key_item k rest :
  line_key (spaces (2 * 1) ++ (encode_string k ++ ": ") ++ rest) = Some k.
Proof.
  unfold encode_string. rewrite !append_assoc.
  change (spaces (2 * 1) ++ dquote ++ ?s)%string
    with (String " " (String " " (String (ascii_of_nat 34) s))).
  cbn [line_key is_char]. cbn. apply read_key_escape.
Qed.

Lemma deep_no_key line : deep line = true -> line_key line = None.
Proof.
  destruct line as [|c1 [|c2 [|c3 rest]]]; try done. cbn [deep line_key].
  intros [[-> ->]%andb_true_iff ->%negb_true_iff]%andb_true_iff. done.
Qed.

Lemma deep_append line s : deep line = true -> deep (line ++ s) = true.
Proof. by destruct line as [|c1 [|c2 [|c3 rest]]]. Qed.

Lemma deep_indent level s : deep (spaces (2 * S (S level)) ++ s) = true.
Proof.
  by replace (2 * S (S level)) with (S (S (S (S (2 * level))))) by lia.
Qed.

Lemma deep_close level s :
  (forall c rest, s = String c rest -> nat_of_ascii c <> 34) ->
  s <> EmptyString ->
  deep (spaces (2 * S level) ++ s) = true.
Proof.
  intros Hs Hne. destruct level as [|level].
  - destruct s as [|c rest]; [done|]. cbn.
    apply negb_true_iff, Nat.eqb_neq. by eapply Hs.
  - by replace (2 * S (S level)) with (S (S (S (S (2 * level))))) by lia.
Qed.

(** Below the top level every line after the first is a deep one. *)
Lemma encode_lines_tail_deep o : forall level,
  Forall (fun line => deep line = true) (tail (encode_lines (S level) o)).
Proof.
  induction o as [|[]|z|s|items IH|members IH] using json_nested_ind;
    intros level; try done.
  - destruct items as [|x items]; [done|].
    cbn [encode_lines tail]. apply Forall_app. split.
    + apply Forall_body_lines.
      * apply deep_indent.
      * rewrite <- (append_nil_r (spaces _)). apply deep_indent.
      * intros l. apply deep_append.
      * apply Forall_map. eapply Forall_impl; [exact IH|].
        intros y Hy. apply Hy.
    + repeat constructor. apply deep_close; [|done].
      by intros c rest [= <- _].
  - destruct members as [|e members]; [done|].
    cbn [encode_lines tail]. apply Forall_app. split.
    + apply Forall_body_lines.
      * apply deep_indent.
      * rewrite <- (append_nil_r (spaces _)). apply deep_indent.
      * intros l. apply deep_append.
      * apply Forall_map. rewrite sort_by_key_perm. apply Forall_map.
        eapply Forall_impl; [exact IH|]. intros [k v] Hv. cbn [fst snd] in *.
        specialize (Hv (S level)).
        by destruct (encode_lines (S (S level)) v).
    + repeat constructor. apply deep_close; [|done].
      by intros c rest [= <- _].
Qed.

End LineKeys.

(** *** Sorting by key *)

Section Sorting.

Context {A : Type}.
Implicit Types (e : string * A) (l : list (string * A)).

#[local] Instance key_le_trans : Transitive (key_le (A:=A)).
Proof. intros e1 e2 e3. unfold key_le. apply transitivity. Qed.

Lemma leb_false_le k k' : (k <=? k')%string = false -> String.le k' k.
Proof.
  intros H. destruct (String.leb_total k k') as [E|E]; [congruence|].
  unfold String.le. by rewrite E.
Qed.

Lemma insert_by_key_sorted e l :
  Sorted (key_le (A:=A)) l -> Sorted (key_le (A:=A)) (insert_by_key e l).
Proof.
  induction 1 as [|e' l Hl IH Hhd]; cbn [insert_by_key].
  - by repeat constructor.
  - destruct (fst e <=? fst e')%string eqn:E.
    + constructor; [by constructor|]. constructor.
      unfold key_le, String.le. by rewrite E.
    + constructor; [done|].
      destruct l as [|e'' l]; cbn [insert_by_key] in *.
      * constructor. by apply leb_false_le.
      * destruct (fst e <=? fst e'')%string.
        -- constructor. by apply leb_false_le.
        -- constructor. by inversion Hhd.
Qed.

Lemma sort_by_key_sorted l : Sorted (key_le (A:=A)) (sort_by_key l).
Proof.
  induction l as [|e l IH]; [constructor|]. by apply insert_by_key_sorted.
Qed.

Lemma same_key_same_item l e e' :
  List.NoDup (map fst l) -> In e l -> In e' l -> fst e = fst e' -> e = e'.
Proof.
  induction l as [|x l IH]; [done|]. cbn [map].
  intros Hnd. inversion Hnd as [|? ? Hx Hl]; subst.
  intros [->|He] [->|He'] Hk; [done| | |by apply IH].
  - destruct Hx. rewrite Hk. by apply in_map.
  - destruct Hx. rewrite <- Hk. by apply in_map.
Qed.

(** With distinct keys the sorted list does not depend on the order of
    insertion. *)
Lemma sort_by_key_unique l1 l2 :
  Permutation l1 l2 -> List.NoDup (map fst l1) ->
  sort_by_key l1 = sort_by_key l2.
Proof.
  intros Hperm Hnd.
  apply (Sorted_unique_strong (key_le (A:=A))); try apply sort_by_key_sorted.
  - intros e e' He He' H1 H2.
    apply (same_key_same_item l1); [done| | |].
    + apply list_elem_of_In. by rewrite <- (sort_by_key_perm l1).
    + apply list_elem_of_In. by rewrite Hperm, <- (sort_by_key_perm l2).
    + unfold key_le in *. by apply (anti_symm String.le).
  - by rewrite !sort_by_key_perm.
Qed.

Lemma insert_by_key_split e l :
  exists l1 l2,
    insert_by_key e l = l1 ++ e :: l2 /\ l = l1 ++ l2
    /\ ((exists e', In e' l /\ (fst e <=? fst e')%string = true) -> l2 <> []).
Proof.
  induction l as [|e' l IH]; cbn [insert_by_key].
  - exists [], []. repeat split. by intros (e' & [] & _).
  - destruct (fst e <=? fst e')%string eqn:E.
    + exists [], (e' :: l). by repeat split.
    + destruct IH as (l1 & l2 & -> & -> & Hl2).
      exists (e' :: l1), l2. repeat split. intros (e'' & [->|Hin] & He'').
      * congruence.
      * apply Hl2. by exists e''.
Qed.

End Sorting.

(** *** One extra key that is not the last *)

Section Items.

Lemma item_app_l (l1 l2 : list string) t :
  t < length l1 -> item (l1 ++ l2) t = item l1 t.
Proof. intros Ht. unfold item. by rewrite app_nth1. Qed.

Lemma item_app_r (l1 l2 : list string) t :
  item (l1 ++ l2) (length l1 + t) = item l2 t.
Proof.
  unfold item. rewrite app_nth2 by lia. f_equal. lia.
Qed.

Lemma item_In (l : list string) t : t < length l -> In (item l t) l.
Proof. intros Ht. by apply nth_In. Qed.

(** A line that occurs once in a list is found at its position only. *)
Lemma unique_position (l1 l2 : list string) z j :
  Forall (fun line => line <> z) l1 ->
  Forall (fun line => line <> z) l2 ->
  j < length (l1 ++ z :: l2) ->
  item (l1 ++ z :: l2) j = z ->
  j = length l1.
Proof.
  intros H1 H2 Hj Heq. rewrite length_app in Hj. cbn [length] in Hj.
  destruct (decide (j < length l1)) as [Hlt|Hge].
  - rewrite item_app_l in Heq by done.
    rewrite Forall_forall in H1.
    destruct (H1 (item l1 j)); [|done].
    by apply list_elem_of_In, item_In.
  - destruct (decide (j = length l1)) as [|Hne]; [done|].
    replace j with (length l1 + S (j - length l1 - 1)) in Heq by lia.
    rewrite item_app_r in Heq. unfold item in Heq. cbn [nth] in Heq.
    rewrite Forall_forall in H2.
    destruct (H2 (nth (j - length l1 - 1) l2 EmptyString)); [|done].
    apply list_elem_of_In, nth_In. lia.
Qed.

End Items.

Section TopLevel.

Local Abbreviation ind := (spaces (2 * 1)).

Lemma encode_lines_obj_chunks members :
  members <> [] ->
  encode_lines 0 (JObj members)
  = "{" :: body_lines ind (map top_chunk (sort_by_key members)) ++ ["}"].
Proof.
  intros Hne. destruct members as [|e members]; [done|].
  cbn [encode_lines]. by rewrite sort_by_key_map, map_map.
Qed.

Lemma body_lines_one c : body_lines ind [c] = chunk_lines false ind c.
Proof. reflexivity. Qed.

Lemma body_lines_two c c' rest :
  body_lines ind (c :: c' :: rest)
  = chunk_lines true ind c ++ body_lines ind (c' :: rest).
Proof. reflexivity. Qed.

Lemma body_lines_app chunks1 chunks2 :
  chunks2 <> [] ->
  body_lines ind (chunks1 ++ chunks2)
  = concat (map (chunk_lines true ind) chunks1) ++ body_lines ind chunks2.
Proof.
  intros Hne. induction chunks1 as [|c chunks1 IH]; [done|].
  destruct (chunks1 ++ chunks2) as [|c' rest] eqn:E.
  { by destruct chunks1, chunks2. }
  cbn [app map concat]. rewrite E, body_lines_two, IH. by rewrite app_assoc.
Qed.

(** The lines of a top-level item: the first carries the key, the
    others are deep. *)
Lemma top_chunk_lines comma e :
  exists first rest,
    chunk_lines comma ind (top_chunk e) = first :: rest
    /\ line_key first = Some (fst e)
    /\ Forall (fun line => deep line = true) rest.
Proof.
  destruct e as [k v]. unfold top_chunk, item_chunk, chunk_lines.
  cbn [fst snd].
  pose proof (encode_lines_tail_deep v 0) as Hdeep.
  pose proof (encode_lines_not_nil v 1) as Hne.
  destruct (encode_lines 1 v) as [|h t]; [done|]. cbn [tail with_prefix] in *.
  destruct comma.
  - destruct t as [|l t]; cbn [with_suffix with_prefix].
    + eexists _, []. split; [reflexivity|]. split; [|done].
      rewrite append_assoc. apply line_key_item.
    + eexists _, _. split; [reflexivity|]. split; [apply line_key_item|].
      apply (Forall_with_suffix _ "," (l :: t)); [|done|done].
      intros l0. apply deep_append.
  - eexists _, _. split; [reflexivity|]. split; [apply line_key_item|done].
Qed.

Lemma deep_not_key line k : deep line = true -> line_key line <> Some k.
Proof. intros H. by rewrite deep_no_key. Qed.

Lemma chunk_lines_other_key comma e k :
  fst e <> k ->
  Forall (fun line => line_key line <> Some k)
    (chunk_lines comma ind (top_chunk e)).
Proof.
  intros Hne. destruct (top_chunk_lines comma e) as (first & rest & -> & Hk & Hd).
  constructor; [rewrite Hk; congruence|].
  eapply Forall_impl; [exact Hd|]. intros line. apply deep_not_key.
Qed.

Lemma full_chunks_other_key l k :
  ~ In k (map fst l) ->
  Forall (fun line => line_key line <> Some k)
    (concat (map (chunk_lines true ind) (map top_chunk l))).
Proof.
  induction l as [|e l IH]; intros Hk; [done|]. cbn [map concat].
  apply Forall_app. split.
  - apply chunk_lines_other_key. intros <-. apply Hk. by left.
  - apply IH. intros Hin. apply Hk. by right.
Qed.

Lemma body_lines_other_key l k :
  ~ In k (map fst l) ->
  Forall (fun line => line_key line <> Some k)
    (body_lines ind (map top_chunk l)).
Proof.
  induction l as [|e l IH]; intros Hk; [done|].
  destruct l as [|e' l].
  - cbn [map]. rewrite body_lines_one. apply chunk_lines_other_key.
    intros <-. apply Hk. by left.
  - cbn [map] in *. rewrite body_lines_two. apply Forall_app. split.
    + apply chunk_lines_other_key. intros <-. apply Hk. by left.
    + apply IH. intros Hin. apply Hk. by right.
Qed.

(** No line between the braces is an opening brace. *)
Lemma chunk_lines_not_brace comma e :
  Forall (fun line => line <> "{") (chunk_lines comma ind (top_chunk e)).
Proof.
  destruct (top_chunk_lines comma e) as (first & rest & -> & Hk & Hd).
  constructor; [by intros ->|].
  eapply Forall_impl; [exact Hd|]. by intros line Hl ->.
Qed.

Lemma body_lines_not_brace l :
  Forall (fun line => line <> "{") (body_lines ind (map top_chunk l)).
Proof.
  induction l as [|e l IH]; [done|]. destruct l as [|e' l].
  - cbn [map]. rewrite body_lines_one. apply chunk_lines_not_brace.
  - cbn [map] in *. rewrite body_lines_two. apply Forall_app. split; [|done].
    apply chunk_lines_not_brace.
Qed.

End TopLevel.

Section ExtraKey.

Local Abbreviation ind := (spaces (2 * 1)).

Variables (members members' : list (string * json)).
Variables (key : string) (value : json).
Hypothesis extra : Permutation members' ((key, value) :: members).
Hypothesis distinct_keys : List.NoDup (map fst members').
Hypothesis not_last : key_before_another key members.
Hypothesis small :
  length (encode_lines 0 (JObj members')) < 200.

(** The sorted items of the second document are those of the first with
    the new item put in before some other. *)
Lemma sorted_items_split :
  exists l1 e2 l2,
    sort_by_key members = l1 ++ e2 :: l2
    /\ sort_by_key members' = l1 ++ (key, value) :: e2 :: l2.
Proof.
  destruct (insert_by_key_split (key, value) (sort_by_key members))
    as (l1 & l2 & Hins & Hsorted & Hl2).
  assert (Hne : l2 <> []).
  { apply Hl2. destruct not_last as (k & Hk & Hle).
    apply in_map_iff in Hk as (e' & <- & He').
    exists e'. split; [|done].
    apply list_elem_of_In. rewrite sort_by_key_perm. by apply list_elem_of_In. }
  destruct l2 as [|e2 l2]; [done|].
  exists l1, e2, l2. split; [done|].
  rewrite (sort_by_key_unique members' ((key, value) :: members)) by done.
  exact Hins.
Qed.

Lemma extra_key_opcodes :
  Forall (fun c => removes (op_tag c) = false)
    (get_opcodes (encode_lines 0 (JObj members))
       (encode_lines 0 (JObj members'))).
Proof.
  destruct sorted_items_split as (l1 & e2 & l2 & Ha & Hb).
  assert (Hnd : List.NoDup (map fst (l1 ++ (key, value) :: e2 :: l2))).
  { rewrite <- Hb. eapply Permutation_NoDup; [|exact distinct_keys].
    apply Permutation_map. symmetry. apply sort_by_key_perm. }
  rewrite map_app in Hnd. cbn [map fst] in Hnd.
  apply NoDup_ListNoDup in Hnd.
  apply NoDup_app in Hnd as (Hnd1 & Hnd12 & Hnd2).
  apply NoDup_cons in Hnd2 as [Hkey Hnd2].
  apply NoDup_cons in Hnd2 as [He2 Hnd2].
  rewrite list_elem_of_In in Hkey. cbn [In] in Hkey.
  rewrite list_elem_of_In in He2.
  assert (Hl1 : ~ In (fst e2) (map fst l1)).
  { intros Hin%list_elem_of_In. apply (Hnd12 _ Hin). right. by left. }
  assert (Hma : members <> []).
  { intros ->. by destruct l1. }
  assert (Hmb : members' <> []).
  { intros ->. by apply Permutation_nil in extra. }
  pose proof small as Hsmall.
  rewrite (encode_lines_obj_chunks members') in Hsmall by done.
  rewrite (encode_lines_obj_chunks members),
    (encode_lines_obj_chunks members') by done.
  rewrite Ha, Hb in *.
  rewrite !map_app in *. cbn [map] in *.
  set (full1 := concat (map (chunk_lines true ind) (map top_chunk l1))) in *.
  rewrite (body_lines_app _ (top_chunk e2 :: map top_chunk l2)) by done.
  rewrite (body_lines_app _ (top_chunk (key, value) :: top_chunk e2
                             :: map top_chunk l2)) in * by done.
  rewrite (body_lines_two (top_chunk (key, value))) in *.
  fold full1 in Hsmall |- *.
  set (X := chunk_lines true ind (top_chunk (key, value))) in *.
  (* the line that follows the inserted ones *)
  assert (Hbody : exists anchor rest,
    body_lines ind (top_chunk e2 :: map top_chunk l2) = anchor :: rest
    /\ line_key anchor = Some (fst e2)
    /\ Forall (fun line => line_key line <> Some (fst e2)) rest
    /\ Forall (fun line => line <> "{") (anchor :: rest)).
  { destruct l2 as [|e3 l2].
    - cbn [map]. rewrite body_lines_one.
      pose proof (chunk_lines_not_brace false e2) as Hnb.
      destruct (top_chunk_lines false e2) as (first & rest & Heq & Hk & Hd).
      rewrite Heq in *. exists first, rest. repeat split; try done.
      eapply Forall_impl; [exact Hd|]. intros line. apply deep_not_key.
    - cbn [map]. rewrite body_lines_two.
      pose proof (chunk_lines_not_brace true e2) as Hnb.
      pose proof (body_lines_not_brace (e3 :: l2)) as Hnb'.
      destruct (top_chunk_lines true e2) as (first & rest & Heq & Hk & Hd).
      rewrite Heq in *. exists first, (rest ++ body_lines ind (map top_chunk (e3 :: l2))).
      repeat split; try done.
      + apply Forall_app. split.
        * eapply Forall_impl; [exact Hd|]. intros line. apply deep_not_key.
        * apply body_lines_other_key. exact He2.
      + rewrite app_comm_cons. by apply Forall_app. }
  destruct Hbody as (anchor & rest & Hbody & Hanchor & Hrest & Hnb).
  rewrite Hbody in *. clear Hbody.
  destruct (top_chunk_lines true (key, value)) as (xfirst & xrest & HX & HXk & HXd).
  fold X in HX.
  set (P := "{" :: full1).
  set (S' := rest ++ ["}"]).
  assert (Ea : "{" :: (full1 ++ anchor :: rest) ++ ["}"] = P ++ anchor :: S').
  { subst P S'. cbn [app]. by rewrite <- app_assoc. }
  assert (Eb : "{" :: (full1 ++ X ++ anchor :: rest) ++ ["}"]
               = (P ++ X) ++ anchor :: S').
  { subst P S'. cbn [app]. by rewrite <- !app_assoc. }
  rewrite Ea, Eb in *. clear Ea Eb.
  assert (HP : Forall (fun line => line_key line <> Some (fst e2)) P).
  { subst P. constructor; [done|]. by apply full_chunks_other_key. }
  assert (HXa : Forall (fun line => line_key line <> Some (fst e2)) X).
  { apply (chunk_lines_other_key true (key, value)). cbn [fst].
    intros Heq. apply Hkey. by left. }
  assert (HS' : Forall (fun line => line_key line <> Some (fst e2)) S').
  { subst S'. apply Forall_app. split; [done|]. by repeat constructor. }
  assert (Hdiffer : forall l : list string,
            Forall (fun line => line_key line <> Some (fst e2)) l ->
            Forall (fun line => line <> anchor) l).
  { intros l Hl. eapply Forall_impl; [exact Hl|]. by intros line Hline ->. }
  apply (inserted_opcodes _ _ (length P) (length X) (length (anchor :: S'))).
  - by rewrite length_app.
  - rewrite !length_app. lia.
  - subst P. cbn [length]. lia.
  - rewrite HX. cbn [length]. lia.
  - cbn [length]. lia.
  - intros t Ht. rewrite <- app_assoc. by rewrite !item_app_l.
  - intros t Ht. replace t with (length P + (t - length P)) at 1 by lia.
    replace (t + length X) with (length (P ++ X) + (t - length P))
      by (rewrite length_app; lia).
    by rewrite !item_app_r.
  - intros j Hj Heq.
    assert (Hzero : item ((P ++ X) ++ anchor :: S') 0 = "{") by done.
    rewrite Hzero in Heq.
    apply (unique_position [] (full1 ++ X ++ anchor :: S') "{" j); [done| | |].
    + apply Forall_app. split.
      * clear. subst full1. induction l1 as [|e l IH]; [done|].
        cbn [map concat]. apply Forall_app. split; [|done].
        apply chunk_lines_not_brace.
      * apply Forall_app. split; [apply chunk_lines_not_brace|].
        subst S'. rewrite app_comm_cons. apply Forall_app.
        split; [done|]. by repeat constructor.
    + cbn [app]. subst P. cbn [app] in Hj. rewrite <- app_assoc in Hj. exact Hj.
    + cbn [app]. subst P. cbn [app] in Heq. rewrite <- app_assoc in Heq.
      exact Heq.
  - intros j Hj Heq.
    assert (Hat : item ((P ++ X) ++ anchor :: S') (length P + length X) = anchor).
    { rewrite <- length_app.
      replace (length (P ++ X)) with (length (P ++ X) + 0) by lia.
      by rewrite item_app_r. }
    rewrite Hat in Heq.
    rewrite <- length_app.
    apply (unique_position (P ++ X) S' anchor j); [| |done|done].
    + apply Hdiffer, Forall_app. by split.
    + by apply Hdiffer.
  - done.
Qed.

Lemma extra_key_no_removals fromfile tofile :
  count_lines is_removal
    (unified_diff (encode_lines 0 (JObj members))
       (encode_lines 0 (JObj members')) fromfile tofile) = 0.
Proof. apply unified_diff_no_removals, extra_key_opcodes. Qed.

End ExtraKey.

(** C3, amended.  When the second document is the first with one more
    top-level key, [compare_configs] reports a difference and counts at
    least one added line.  It counts no removed line when, in addition,
    the new key is not the last in key order and the second document
    takes fewer than 200 lines (so that the matcher treats no line as
    popular). *)
Theorem compare_configs_extra_key members members' key value
    simplified from_file to_file :
  Permutation members' ((key, value) :: members) ->
  exists diff additions removals,
    compare_configs (JObj members) (JObj members') simplified from_file to_file
    = (true,
       [ConfigurationsDoNotMatch]
       ++ (if simplified then [] else DetailedDifferences :: map DiffLine diff)
       ++ [Summary additions removals])
    /\ 1 <= additions
    /\ (distinct (map fst members') = true ->
        key_before_another key members ->
        length (splitlines (dumps (JObj members'))) < 200 ->
        removals = 0).
Proof.
  intros Hperm. unfold compare_configs.
  assert (Heq : py_eq (JObj members) (JObj members') = false).
  { rewrite py_eq_obj. apply andb_false_iff. left. apply Nat.eqb_neq.
    rewrite (Permutation_length Hperm). simpl. lia. }
  rewrite Heq. do 3 eexists. split; [reflexivity|].
  rewrite !splitlines_dumps. split.
  - apply unified_diff_additions.
    + eapply Forall_impl; [apply encode_lines_obj_no_plus|].
      apply no_plus_startswith.
    + by eapply extra_key_more_lines.
  - intros Hkeys Hlast Hsmall.
    by apply (extra_key_no_removals members members' key value);
      [|apply distinct_NoDup|..].
Qed.

Lemma compare_configs_extra_key_witness :
  exists diff additions,
    compare_configs (JObj [("group", JStr "lab")])
      (JObj [("group", JStr "lab"); ("config", JArr [])])
      true "template.json" "live_config.json"
    = (true,
       [ConfigurationsDoNotMatch]
       ++ (if true then [] else DetailedDifferences :: map DiffLine diff)
       ++ [Summary additions 0])
    /\ 1 <= additions.
Proof.
  destruct (compare_configs_extra_key [("group", JStr "lab")]
              [("group", JStr "lab"); ("config", JArr [])] "config" (JArr [])
              true "template.json" "live_config.json" (perm_swap _ _ _))
    as (diff & additions & removals & Hcmp & Hadd & Hrem).
  exists diff, additions. split; [|exact Hadd].
  rewrite Hcmp. rewrite Hrem; [reflexivity|reflexivity| |].
  - exists "group". split; [by left|reflexivity].
  - vm_compute. lia.
Defined.

(** In a document of 200 lines or more the matcher leaves popular lines
    out of its index, and an extra key in the middle can then cost
    removals as well. *)
Example extra_key_long_document :
  compare_configs long_doc long_doc_extra true "template.json"
    "live_config.json"
  = (true, [ConfigurationsDoNotMatch; Summary 129 121]).
Proof. vm_compute. reflexivity. Qed.
(** ** The exemption filter: blocks, terminators and ill-typed lines *)

Section FilterBlocks.

Implicit Types (r : rule_set) (d : list string) (st : filter_state).

(** *** Lines that no rule touches *)

Lemma scan_rules_no_match line rules st :
  Forall (fun e => fnmatch line (fst e) = false) rules ->
  scan_rules line rules st = st.
Proof.
  induction 1 as [|[p v] rules Hp _ IH]; simpl; [done|].
  simpl in Hp. by rewrite Hp.
Qed.

Lemma filter_lines_no_match rules d : forall out,
  Forall (fun line =>
            is_header line = true ->
            Forall (fun e => fnmatch line (fst e) = false) rules) d ->
  filter_lines rules (FilterState out false []) (JStr <$> d)
  = Ok (FilterState (out ++ (JStr <$> d)) false []).
Proof.
  induction d as [|line d IH]; intros out Hd; simpl.
  - by rewrite app_nil_r.
  - apply Forall_cons in Hd as [Hline Hd]. unfold is_header in Hline.
    destruct (startswith_space line); simpl.
    + unfold append_line; simpl. rewrite IH by done.
      by rewrite <- app_assoc.
    + rewrite scan_rules_no_match by auto. simpl.
      unfold append_line; simpl. rewrite IH by done.
      by rewrite <- app_assoc.
Qed.

(** X1.  When no header line of the config matches the header glob of
    any entry of the rule dict, the filter returns the config as it is,
    whatever the values of the entries are; with an empty rule dict in
    particular. *)
Theorem apply_exemptions_no_match (rules : list (string * json)) d :
  Forall (fun line =>
            is_header line = true ->
            Forall (fun e => fnmatch line (fst e) = false) rules) d ->
  apply_exemptions (json_of_lines d) (JObj rules) = Ok (json_of_lines d).
Proof.
  intros Hd. unfold apply_exemptions, json_of_lines.
  by rewrite filter_lines_no_match.
Qed.

Lemma apply_exemptions_no_match_witness :
  apply_exemptions (json_of_lines ["hostname sw1"; " banner x"; "!"])
    (JObj [("interface *", JStr "*"); ("vlan *", JArr [JStr "name *"])])
  = Ok (json_of_lines ["hostname sw1"; " banner x"; "!"]).
Proof.
  apply apply_exemptions_no_match.
  repeat constructor.
Defined.

(** *** A fully exempt block *)

Lemma survivors_exempt_body r active body rest :
  Forall (fun line => strip line <> "!") body ->
  survivors r true active (body ++ rest) = survivors r true active rest.
Proof.
  induction 1 as [|line body Hline _ IH]; simpl; [done|].
  apply String.eqb_neq in Hline. by rewrite Hline.
Qed.

Lemma survivors_exempt_all r active body :
  Forall (fun line => strip line <> "!") body ->
  survivors r true active body = [].
Proof.
  intros H. rewrite <- (app_nil_r body). by rewrite survivors_exempt_body.
Qed.

(** X2.  A block whose header first matches an entry with the value
    ["*"] is removed up to and including the first line whose trimmed
    text is [!]; the lines behind that terminator are filtered as if the
    config started there. *)
Theorem exempt_block_removed r header body terminator rest :
  is_header header = true ->
  first_match header r = Some WholeBlock ->
  Forall (fun line => strip line <> "!") body ->
  strip terminator = "!" ->
  apply_exemptions (json_of_lines (header :: body ++ terminator :: rest))
    (json_of_rules r)
  = apply_exemptions (json_of_lines rest) (json_of_rules r).
Proof.
  intros Hhead Hfirst Hbody Hterm. rewrite !apply_exemptions_lines.
  do 2 f_equal. cbn [survivors]. rewrite Hhead, Hfirst.
  rewrite survivors_exempt_body by done. cbn [survivors].
  by rewrite Hterm.
Qed.

Lemma exempt_block_removed_witness :
  apply_exemptions
    (json_of_lines ("interface Gi1" :: [" description x"; "shutdown"]
                      ++ " !" :: ["hostname sw1"]))
    (json_of_rules [("interface *", WholeBlock)])
  = apply_exemptions (json_of_lines ["hostname sw1"])
      (json_of_rules [("interface *", WholeBlock)]).
Proof.
  apply exempt_block_removed; try reflexivity.
  repeat constructor; discriminate.
Defined.

(** X3.  A fully exempt block that no [!] line closes takes everything
    behind its header with it, later headers included. *)
Theorem unterminated_block_removes_rest r header body :
  is_header header = true ->
  first_match header r = Some WholeBlock ->
  Forall (fun line => strip line <> "!") body ->
  apply_exemptions (json_of_lines (header :: body)) (json_of_rules r)
  = Ok (json_of_lines []).
Proof.
  intros Hhead Hfirst Hbody. rewrite apply_exemptions_lines.
  do 2 f_equal. cbn [survivors]. rewrite Hhead, Hfirst.
  by apply survivors_exempt_all.
Qed.

Lemma unterminated_block_removes_rest_witness :
  apply_exemptions
    (json_of_lines ["interface Gi1"; " description x"; "hostname sw1";
                    "vlan 10"; " name lab"])
    (json_of_rules [("interface *", WholeBlock)])
  = Ok (json_of_lines []).
Proof.
  apply unterminated_block_removes_rest; try reflexivity.
  repeat constructor; discriminate.
Defined.

(** *** Headers that survive *)

Lemma survivors_headers r d : forall exempt active line,
  In line (survivors r exempt active d) ->
  is_header line = true ->
  match first_match line r with
  | Some WholeBlock => False
  | Some (Lines ps) => matches_any (strip line) ps = false
  | None => True
  end.
Proof.
  induction d as [|l d IH]; intros exempt active line Hin Hhead;
    simpl in Hin; [done|].
  destruct exempt; [by eapply IH|].
  destruct (is_header l) eqn:Hl.
  - destruct (first_match l r) as [[|ps]|] eqn:Hfirst.
    + by eapply IH.
    + destruct (matches_any (strip l) ps) eqn:Hown; [by eapply IH|].
      destruct Hin as [->|Hin]; [by rewrite Hfirst|by eapply IH].
    + destruct Hin as [->|Hin]; [by rewrite Hfirst|by eapply IH].
  - destruct (matches_any (strip l) active).
    + by eapply IH.
    + destruct Hin as [->|Hin]; [congruence|by eapply IH].
Qed.

Lemma json_of_lines_inj d1 d2 :
  JStr <$> d1 = JStr <$> d2 -> d1 = d2.
Proof.
  unfold json_of_lines. intros H.
  revert d2 H. induction d1 as [|x d1 IH]; intros [|y d2] H; try done.
  injection H as -> H. f_equal. by apply IH.
Qed.

(** X4.  No header of the output is exempt under its own entry: the
    first entry that matches a surviving header does not have the value
    ["*"], and if it is a list of line globs, none of them matches the
    trimmed header. *)
Theorem surviving_headers_not_exempt r d out line :
  apply_exemptions (json_of_lines d) (json_of_rules r)
  = Ok (json_of_lines out) ->
  In line out ->
  is_header line = true ->
  first_match line r <> Some WholeBlock
  /\ forall ps, first_match line r = Some (Lines ps) ->
       matches_any (strip line) ps = false.
Proof.
  rewrite apply_exemptions_lines. intros [= Hout%json_of_lines_inj] Hin Hhead.
  subst out.
  pose proof (survivors_headers _ _ _ _ _ Hin Hhead) as H.
  split.
  - intros Hfirst. by rewrite Hfirst in H.
  - intros ps Hfirst. by rewrite Hfirst in H.
Qed.

Lemma surviving_headers_not_exempt_witness :
  first_match "snmp-server host"
    [("snmp-server *", Lines ["community *"]); ("interface *", WholeBlock)]
  <> Some WholeBlock.
Proof.
  refine (proj1 (surviving_headers_not_exempt
                   [("snmp-server *", Lines ["community *"]);
                    ("interface *", WholeBlock)]
                   ["snmp-server host"; " community public";
                    "interface Gi1"; "!"]
                   ["snmp-server host"] "snmp-server host" _ _ _)).
  - reflexivity.
  - by left.
  - reflexivity.
Defined.

(** *** Blocks are filtered one by one *)

(** The run of the loop on well-typed inputs, with the state it ends
    in. *)
Lemma filter_lines_state r d : forall st active,
  current_line_exemptions st = JStr <$> active ->
  filter_lines (items_of_rules r) st (JStr <$> d)
  = Ok (FilterState
          (filtered_config st
           ++ (JStr <$> survivors r (in_fully_exempt_block st) active d))
          (fst (state_after r (in_fully_exempt_block st) active d))
          (JStr <$> snd (state_after r (in_fully_exempt_block st) active d))).
Proof.
  induction d as [|line d IH]; intros st active Hact.
  - destruct st as [out ex cur]; simpl in *. by rewrite app_nil_r, Hact.
  - destruct st as [out ex cur]; simpl in *; subst cur.
    destruct ex; simpl.
    + destruct (String.eqb (strip line) "!"); simpl;
        by rewrite (IH _ active).
    + unfold is_header. destruct (startswith_space line); simpl.
      * rewrite line_exempt_matches_any; simpl.
        destruct (matches_any (strip line) active); simpl.
        -- by rewrite (IH _ active).
        -- rewrite (IH _ active) by done. simpl.
           by rewrite <- app_assoc.
      * rewrite scan_rules_first_match.
        destruct (first_match line r) as [[|ps]|]; simpl.
        -- by rewrite (IH _ []).
        -- rewrite line_exempt_matches_any; simpl.
           destruct (matches_any (strip line) ps); simpl.
           ++ by rewrite (IH _ ps).
           ++ rewrite (IH _ ps) by done. simpl. by rewrite <- app_assoc.
        -- rewrite (IH _ []) by done. simpl. by rewrite <- app_assoc.
Qed.

Lemma survivors_app r d1 d2 : forall exempt active,
  survivors r exempt active (d1 ++ d2)
  = survivors r exempt active d1
    ++ survivors r (fst (state_after r exempt active d1))
         (snd (state_after r exempt active d1)) d2.
Proof.
  induction d1 as [|line d1 IH]; intros exempt active; simpl; [done|].
  destruct exempt; [apply IH|].
  destruct (is_header line).
  - destruct (first_match line r) as [[|ps]|]; [apply IH| |].
    + destruct (matches_any (strip line) ps); simpl; by rewrite IH.
    + simpl. by rewrite IH.
  - destruct (matches_any (strip line) active); simpl; by rewrite IH.
Qed.

Lemma survivors_starts_block r d active :
  starts_block d = true ->
  survivors r false active d = survivors r false [] d.
Proof.
  destruct d as [|line d]; simpl; [done|]. by intros ->.
Qed.

(** X5.  The filter works block by block: when the loop is outside a
    fully exempt block after the lines [d1] and [d2] starts with a
    header, filtering [d1 ++ d2] gives the filtered [d1] followed by the
    filtered [d2]. *)
Theorem apply_exemptions_app r d1 d2 st1 :
  filter_lines (items_of_rules r) (FilterState [] false []) (JStr <$> d1)
  = Ok st1 ->
  in_fully_exempt_block st1 = false ->
  starts_block d2 = true ->
  exists out1 out2,
    apply_exemptions (json_of_lines d1) (json_of_rules r)
    = Ok (json_of_lines out1)
    /\ apply_exemptions (json_of_lines d2) (json_of_rules r)
       = Ok (json_of_lines out2)
    /\ apply_exemptions (json_of_lines (d1 ++ d2)) (json_of_rules r)
       = Ok (json_of_lines (out1 ++ out2)).
Proof.
  intros Hrun Hopen Hblock.
  rewrite (filter_lines_state r d1 (FilterState [] false []) []) in Hrun
    by done.
  injection Hrun as <-. simpl in Hopen.
  exists (survivors r false [] d1), (survivors r false [] d2).
  split; [apply apply_exemptions_lines|].
  split; [apply apply_exemptions_lines|].
  rewrite apply_exemptions_lines. do 2 f_equal. rewrite (survivors_app r d1 d2), Hopen.
  by rewrite (survivors_starts_block r d2 (snd (state_after r false [] d1))).
Qed.

Lemma apply_exemptions_app_witness :
  exists out1 out2,
    apply_exemptions (json_of_lines ["interface Gi1"; " shutdown"; "!"])
      (json_of_rules [("interface *", WholeBlock); ("vlan *", Lines ["name *"])])
    = Ok (json_of_lines out1)
    /\ apply_exemptions (json_of_lines ["vlan 10"; " name lab"; " mtu 9000"])
         (json_of_rules [("interface *", WholeBlock); ("vlan *", Lines ["name *"])])
       = Ok (json_of_lines out2)
    /\ apply_exemptions
         (json_of_lines (["interface Gi1"; " shutdown"; "!"]
                           ++ ["vlan 10"; " name lab"; " mtu 9000"]))
         (json_of_rules [("interface *", WholeBlock); ("vlan *", Lines ["name *"])])
       = Ok (json_of_lines (out1 ++ out2)).
Proof.
  apply (apply_exemptions_app _ _ _ (FilterState [] false [])); reflexivity.
Defined.

(** *** Lines that are not text *)

Lemma filter_lines_non_string rules lines : forall st,
  Exists (fun x => is_str x = false) lines ->
  exists e, filter_lines rules st lines = Raise e.
Proof.
  induction lines as [|line lines IH]; intros st Hex.
  - by apply Exists_nil in Hex.
  - simpl. apply Exists_cons in Hex as [Hline|Hex].
    + destruct line; try done; by exists AttributeError.
    + destruct (filter_line rules st line) as [st'|e]; simpl.
      * by apply IH.
      * by exists e.
Qed.

(** X6.  A config list with an element that is not a string makes the
    filter raise, whatever the rule dict is: no such element is passed
    on or skipped, not even inside a fully exempt block. *)
Theorem apply_exemptions_non_string (lines : list json)
    (rules : list (string * json)) :
  Exists (fun x => is_str x = false) lines ->
  exists e, apply_exemptions (JArr lines) (JObj rules) = Raise e.
Proof.
  intros Hex. unfold apply_exemptions.
  destruct (filter_lines_non_string rules lines (FilterState [] false []) Hex)
    as [e He].
  exists e. by rewrite He.
Qed.

Lemma apply_exemptions_non_string_witness :
  exists e,
    apply_exemptions (JArr [JStr "interface Gi1"; JInt 7; JStr "!"])
      (JObj [("interface *", JStr "*")])
    = Raise e.
Proof.
  apply apply_exemptions_non_string.
  apply Exists_cons_tl, Exists_cons_hd. reflexivity.
Defined.

End FilterBlocks.
(** ** The token lifecycle: the cache, the requests, the stored credentials *)

Section TokenCache.

Variable post : request -> exchange.
Variable self : api.

Lemma _authenticate_new_token_saved w tok w1 :
  _authenticate_new_token post self w = (Some tok, w1) ->
  exists data,
    token_file w1 = Some data
    /\ access_token data = Some tok
    /\ timestamp data = Some (now w)
    /\ now w1 = now w.
Proof.
  unfold _authenticate_new_token, send.
  destruct (post (reissue_request self)) as [response|detail]; simpl;
    [|done].
  intros [= Htok <-]. simpl. eexists. by repeat split.
Qed.

Lemma _refresh_token_saved rt w tok w1 :
  _refresh_token post self rt w = (Some tok, w1) ->
  exists data,
    token_file w1 = Some data
    /\ access_token data = Some tok
    /\ timestamp data = Some (now w)
    /\ now w1 = now w.
Proof.
  unfold _refresh_token, send.
  destruct (post (refresh_request self rt)) as [response|detail]; simpl.
  - intros [= Htok <-]. simpl. eexists. by repeat split.
  - intros H. by apply _authenticate_new_token_saved in H.
Qed.

(** X7.  A token that a call obtained over the network is served from
    the cache afterwards: as long as the token file is what that call
    left and less than 7200 seconds have passed, every later call (of
    any client, against any server) returns the same token, sends
    nothing and writes nothing.  The clock must not read 0 when the
    token is saved, because a time stamp of 0 counts as missing. *)
Theorem issued_token_is_cached w tok w1 :
  _get_access_token post self w = (Some tok, w1) ->
  sent w1 <> sent w ->
  tok <> "" ->
  now w <> 0%Z ->
  forall (post' : request -> exchange) (self' : api) (w2 : world),
    token_file w2 = token_file w1 ->
    (now w2 - now w < 7200)%Z ->
    _get_access_token post' self' w2 = (Some tok, w2).
Proof.
  intros Hget Hsent Htok Hnow post' self' w2 Hfile Hage.
  assert (Hsaved : exists data,
             token_file w1 = Some data
             /\ access_token data = Some tok
             /\ timestamp data = Some (now w)
             /\ now w1 = now w).
  { unfold _get_access_token in Hget.
    destruct (truthy (access_token (_load_token_data w))
              && truthy_number (timestamp (_load_token_data w))
              && (now w - default 0 (timestamp (_load_token_data w)) <? 7200)%Z).
    { injection Hget as _ <-. done. }
    destruct (truthy (refresh_token (_load_token_data w))).
    { by apply _refresh_token_saved in Hget. }
    destruct (negb (truthy (client_id self))
              || negb (truthy (client_secret self))).
    { done. }
    by apply _authenticate_new_token_saved in Hget. }
  destruct Hsaved as (data & Hdata & Hacc & Hts & _).
  eapply cached_token_fresh; eauto. congruence.
Qed.

(** X8.  One call sends at most two requests, all of them to the token
    endpoint, and leaves the requests sent before and the clock as they
    were. *)
Theorem get_access_token_requests w :
  exists new,
    sent (snd (_get_access_token post self w)) = sent w ++ new
    /\ length new <= 2
    /\ Forall (fun req => url req = token_url self) new
    /\ now (snd (_get_access_token post self w)) = now w.
Proof.
  assert (Hauth : forall w0, exists new,
    sent (snd (_authenticate_new_token post self w0)) = sent w0 ++ new
    /\ length new <= 1
    /\ Forall (fun req => url req = token_url self) new
    /\ now (snd (_authenticate_new_token post self w0)) = now w0).
  { intros w0. unfold _authenticate_new_token, send.
    exists [reissue_request self].
    destruct (post (reissue_request self)); simpl;
      repeat split; auto; by repeat constructor. }
  assert (Hrefresh : forall rt, exists new,
    sent (snd (_refresh_token post self rt w)) = sent w ++ new
    /\ length new <= 2
    /\ Forall (fun req => url req = token_url self) new
    /\ now (snd (_refresh_token post self rt w)) = now w).
  { intros rt. unfold _refresh_token, send.
    destruct (post (refresh_request self rt)); simpl.
    - exists [refresh_request self rt].
      repeat split; auto; by repeat constructor.
    - destruct (Hauth (World (token_file w) (now w)
                         (sent w ++ [refresh_request self rt])))
        as (new & Hsent & Hlen & Hurl & Hnow).
      exists (refresh_request self rt :: new). simpl in *.
      rewrite Hsent, <- app_assoc.
      repeat split; auto; lia. }
  unfold _get_access_token.
  destruct (_ && _ && _).
  { exists []. simpl. rewrite app_nil_r. repeat split; auto. }
  destruct (truthy (refresh_token (_load_token_data w))); [apply Hrefresh|].
  destruct (_ || _).
  { exists []. simpl. rewrite app_nil_r. repeat split; auto. }
  destruct (Hauth w) as (new & Hsent & Hlen & Hurl & Hnow).
  exists new. repeat split; auto.
Qed.

(** X9.  The client id and the client secret that [_save_token_data]
    writes into the token file are never read back: two token files that
    differ in them only give the same token, the same requests, and
    token files that again differ in them only. *)
Theorem stored_credentials_never_read w w' :
  (without_credentials <$> token_file w)
  = (without_credentials <$> token_file w') ->
  now w = now w' ->
  sent w = sent w' ->
  fst (_get_access_token post self w) = fst (_get_access_token post self w')
  /\ sent (snd (_get_access_token post self w))
     = sent (snd (_get_access_token post self w'))
  /\ (without_credentials <$> token_file (snd (_get_access_token post self w)))
     = (without_credentials <$> token_file (snd (_get_access_token post self w'))).
Proof.
  destruct w as [file t log], w' as [file' t' log']; simpl.
  intros Hfile <- <-.
  assert (Hload : without_credentials (_load_token_data (World file t log))
                  = without_credentials (_load_token_data (World file' t log))).
  { unfold _load_token_data; simpl.
    destruct file as [data|], file' as [data'|]; simpl in *; congruence. }
  injection Hload as Hrt Hacc Hts.
  unfold _get_access_token. rewrite Hrt, Hacc, Hts.
  destruct (_ && _ && _); [done|].
  destruct (truthy (refresh_token (_load_token_data (World file' t log)))).
  { unfold _refresh_token, _authenticate_new_token, send; simpl.
    destruct (post (refresh_request self _)); simpl; [done|].
    by destruct (post (reissue_request self)). }
  destruct (_ || _); [done|].
  unfold _authenticate_new_token, send; simpl.
  by destruct (post (reissue_request self)).
Qed.

End TokenCache.

Lemma issued_token_is_cached_witness :
  _get_access_token unreachable_server central_without_credentials
    (World (Some (TokenData (Some "refresh-2") (Some "access-2")
                    (Some 8200%Z) (Some "id") (Some "secret")))
       15399 [])
  = (Some "access-2",
     World (Some (TokenData (Some "refresh-2") (Some "access-2")
                    (Some 8200%Z) (Some "id") (Some "secret")))
       15399 []).
Proof.
  apply (issued_token_is_cached lab_server central_with_credentials
           (World (Some stale_record) 8200 []) "access-2"
           (World (Some (TokenData (Some "refresh-2") (Some "access-2")
                           (Some 8200%Z) (Some "id") (Some "secret")))
              8200
              [refresh_request central_with_credentials "refresh-1"]));
    try reflexivity; discriminate.
Defined.

Lemma stored_credentials_never_read_witness :
  fst (_get_access_token lab_server central_with_credentials
         (World (Some stale_record) 8200 []))
  = fst (_get_access_token lab_server central_with_credentials
           (World (Some stale_record_with_credentials) 8200 [])).
Proof.
  refine (proj1 (stored_credentials_never_read lab_server
                   central_with_credentials
                   (World (Some stale_record) 8200 [])
                   (World (Some stale_record_with_credentials) 8200 [])
                   _ _ _)); reflexivity.
Defined.
(** ** The MAC address check *)

Section MacAddress.

Implicit Types (r : regex) (s : list ascii) (k : bool -> list ascii -> bool).

(** [rmatch] finds a match exactly when there is one. *)
Lemma rmatch_matches r : forall start s k,
  rmatch r start s k = true
  <-> exists start' s', matches r start s start' s' /\ k start' s' = true.
Proof.
  induction r as [| |ranges|r1 IH1 r2 IH2|r1 IH1 r2 IH2|r IH|n r IH];
    intros start s k; cbn [rmatch matches].
  - rewrite andb_true_iff. split.
    + intros [-> Hk]. by exists true, s.
    + by intros (start' & s' & (-> & -> & ->) & Hk).
  - destruct s as [|c [|c' s]].
    + split.
      * intros Hk. exists start, []. repeat split; [by left|done].
      * by intros (start' & s' & (_ & -> & ->) & Hk).
    + rewrite andb_true_iff, Nat.eqb_eq. split.
      * intros [Hc Hk]. exists start, [c]. repeat split; [|done].
        right. by rewrite <- Hc, ascii_nat_embedding.
      * intros (start' & s' & ([?|[= ->]] & -> & ->) & Hk); [done|].
        by rewrite nat_ascii_embedding by lia.
    + split; [done|]. by intros (start' & s' & ([?|?] & _) & _).
  - destruct s as [|c s].
    + split; [done|]. by intros (start' & s' & (c & ? & _) & _).
    + rewrite andb_true_iff. split.
      * intros [Hc Hk]. exists false, s. split; [by exists c|done].
      * by intros (start' & s' & (c' & [= -> ->] & Hc & ->) & Hk).
  - rewrite IH1. split.
    + intros (b1 & s1 & H1 & (b2 & s2 & H2 & Hk)%IH2).
      exists b2, s2. split; [by exists b1, s1|done].
    + intros (b2 & s2 & (b1 & s1 & H1 & H2) & Hk).
      exists b1, s1. split; [done|]. apply IH2. by exists b2, s2.
  - rewrite orb_true_iff, IH1, IH2. split.
    + intros [(b' & s' & H & Hk)|(b' & s' & H & Hk)]; exists b', s'; auto.
    + intros (b' & s' & [H|H] & Hk); [left|right]; by exists b', s'.
  - rewrite orb_true_iff, IH. split.
    + intros [(b' & s' & H & Hk)|Hk].
      * exists b', s'; auto.
      * exists start, s; auto.
    + intros (b' & s' & [H|[-> ->]] & Hk); [left|by right].
      by exists b', s'.
  - revert start s. induction n as [|n IHn]; intros start s.
    + split.
      * intros Hk. by exists start, s.
      * by intros (b' & s' & (-> & ->) & Hk).
    + rewrite IH. split.
      * intros (b1 & s1 & H1 & (b' & s' & Hn & Hk)%IHn).
        exists b', s'. split; [by exists b1, s1|done].
      * intros (b' & s' & (b1 & s1 & H1 & Hn) & Hk).
        exists b1, s1. split; [done|]. apply IHn. by exists b', s'.
Qed.

Lemma matches_rep_0 r start s start' s' :
  matches (Rep 0 r) start s start' s' = (start' = start /\ s' = s).
Proof. reflexivity. Qed.

Lemma matches_rep_S n r start s start' s' :
  matches (Rep (S n) r) start s start' s'
  = exists start1 s1,
      matches r start s start1 s1 /\ matches (Rep n r) start1 s1 start' s'.
Proof. reflexivity. Qed.

Lemma matches_hex start s start' s' :
  matches hex_class start s start' s'
  <-> exists c, s = c :: s' /\ is_hex c = true /\ start' = false.
Proof. reflexivity. Qed.

Lemma matches_octet start s start' s' :
  matches (Rep 2 hex_class) start s start' s'
  <-> exists o, octet o /\ s = chars o ++ s' /\ start' = false.
Proof.
  rewrite !matches_rep_S. setoid_rewrite matches_rep_S.
  setoid_rewrite matches_rep_0. setoid_rewrite matches_hex. split.
  - intros (? & ? & (h & -> & Hh & ->) & ? & ? & (l & -> & Hl & ->) & -> & ->).
    exists (String h (String l "")). repeat split. by exists h, l.
  - intros (o & (h & l & -> & Hh & Hl) & -> & ->).
    exists false, (l :: s'). split; [by exists h|].
    exists false, s'. split; [by exists l|done].
Qed.

Lemma in_range_single c d : in_range c (d, d) = true -> c = d.
Proof.
  unfold in_range; simpl. rewrite andb_true_iff, !Nat.leb_le.
  intros [H1 H2].
  rewrite <- (ascii_nat_embedding c), <- (ascii_nat_embedding d).
  f_equal. lia.
Qed.

Lemma matches_gap start s start' s' :
  matches (Opt separator_class) start s start' s'
  -> exists g, gap g /\ s = chars g ++ s'.
Proof.
  intros [(c & -> & Hc & ->)|[-> ->]].
  - simpl in Hc. rewrite orb_false_r, orb_true_iff in Hc.
    destruct Hc as [->%in_range_single| ->%in_range_single].
    + exists ":". split; [right; by left|done].
    + exists "-". split; [right; by right|done].
  - exists "". split; [by left|done].
Qed.

Lemma gap_matches g s :
  gap g -> exists start', matches (Opt separator_class) false (chars g ++ s) start' s.
Proof.
  intros [->|[->| ->]].
  - exists false. by right.
  - exists false. left. by exists ":"%char.
  - exists false. left. by exists "-"%char.
Qed.

Lemma matches_group start s start' s' :
  matches (Seq (Rep 2 hex_class) (Opt separator_class)) start s start' s'
  -> exists o g, octet o /\ gap g /\ s = chars o ++ chars g ++ s'.
Proof.
  intros (start1 & s1 & (o & Ho & -> & ->)%matches_octet
          & (g & Hg & ->)%matches_gap).
  by exists o, g.
Qed.

Lemma group_matches start o g s :
  octet o -> gap g ->
  exists start',
    matches (Seq (Rep 2 hex_class) (Opt separator_class)) start
      (chars o ++ chars g ++ s) start' s.
Proof.
  intros Ho Hg. destruct (gap_matches g s Hg) as [start' Hgap].
  exists start', false, (chars g ++ s). split; [|done].
  apply matches_octet. by exists o.
Qed.

Lemma chars_inj (s1 s2 : string) : chars s1 = chars s2 -> s1 = s2.
Proof.
  intros H. rewrite <- (string_of_list_ascii_of_string s1).
  rewrite <- (string_of_list_ascii_of_string s2). unfold chars in H.
  by rewrite H.
Qed.

(** The tail that [$] lets through. *)
Lemma matches_eol start s start' s' :
  matches Eol start s start' s' ->
  s = chars "" \/ s = chars newline.
Proof. by intros [[->| ->] _]; [left|right]. Qed.

Lemma separated_pattern_text (mac : string) start' s' :
  matches separated_pattern true (chars mac) start' s' ->
  exists body tail,
    mac_text body /\ (tail = "" \/ tail = newline)
    /\ mac = (body ++ tail)%string.
Proof.
  intros (? & ? & (_ & -> & ->) & b5 & s5 & Hrep & b6 & s6 & Hlast & Heol).
  rewrite matches_rep_S in Hrep.
  destruct Hrep as (? & ? & (o1 & g1 & Ho1 & Hg1 & H1)%matches_group & Hrep).
  rewrite matches_rep_S in Hrep.
  destruct Hrep as (? & ? & (o2 & g2 & Ho2 & Hg2 & H2)%matches_group & Hrep).
  rewrite matches_rep_S in Hrep.
  destruct Hrep as (? & ? & (o3 & g3 & Ho3 & Hg3 & H3)%matches_group & Hrep).
  rewrite matches_rep_S in Hrep.
  destruct Hrep as (? & ? & (o4 & g4 & Ho4 & Hg4 & H4)%matches_group & Hrep).
  rewrite matches_rep_S in Hrep.
  destruct Hrep as (? & ? & (o5 & g5 & Ho5 & Hg5 & H5)%matches_group & Hrep).
  rewrite matches_rep_0 in Hrep. destruct Hrep as [_ ->].
  apply matches_octet in Hlast as (o6 & Ho6 & H6 & _).
  pose proof (matches_eol _ _ _ _ Heol) as Htail.
  destruct Heol as (_ & _ & ->). subst.
  exists (o1 ++ g1 ++ o2 ++ g2 ++ o3 ++ g3 ++ o4 ++ g4 ++ o5 ++ g5 ++ o6)%string.
  assert (Hmac : forall tail, s6 = chars tail ->
    mac = ((o1 ++ g1 ++ o2 ++ g2 ++ o3 ++ g3 ++ o4 ++ g4 ++ o5 ++ g5 ++ o6)
           ++ tail)%string).
  { intros tail ->. apply chars_inj. by rewrite H1, !chars_append, <- !app_assoc. }
  destruct Htail as [Htail|Htail].
  - exists "". split; [|split; [by left|by apply Hmac]].
    by exists o1, g1, o2, g2, o3, g3, o4, g4, o5, g5, o6.
  - exists newline. split; [|split; [by right|by apply Hmac]].
    by exists o1, g1, o2, g2, o3, g3, o4, g4, o5, g5, o6.
Qed.

Lemma text_separated_pattern body tail :
  mac_text body -> tail = "" \/ tail = newline ->
  exists start',
    matches separated_pattern true (chars (body ++ tail)) start' (chars tail).
Proof.
  intros (o1 & g1 & o2 & g2 & o3 & g3 & o4 & g4 & o5 & g5 & o6 & ->
          & Ho1 & Ho2 & Ho3 & Ho4 & Ho5 & Ho6 & Hg1 & Hg2 & Hg3 & Hg4 & Hg5)
         Htail.
  rewrite !chars_append, <- !app_assoc.
  exists false, true. eexists. split; [done|].
  destruct (group_matches true o1 g1
              (chars o2 ++ chars g2 ++ chars o3 ++ chars g3 ++ chars o4
               ++ chars g4 ++ chars o5 ++ chars g5 ++ chars o6 ++ chars tail)
              Ho1 Hg1) as [b1 H1].
  destruct (group_matches b1 o2 g2
              (chars o3 ++ chars g3 ++ chars o4
               ++ chars g4 ++ chars o5 ++ chars g5 ++ chars o6 ++ chars tail)
              Ho2 Hg2) as [b2 H2].
  destruct (group_matches b2 o3 g3
              (chars o4 ++ chars g4 ++ chars o5 ++ chars g5 ++ chars o6
               ++ chars tail)
              Ho3 Hg3) as [b3 H3].
  destruct (group_matches b3 o4 g4
              (chars o5 ++ chars g5 ++ chars o6 ++ chars tail)
              Ho4 Hg4) as [b4 H4].
  destruct (group_matches b4 o5 g5 (chars o6 ++ chars tail) Ho5 Hg5)
    as [b5 H5].
  exists b5, (chars o6 ++ chars tail). split.
  - rewrite matches_rep_S. eexists _, _. split; [exact H1|].
    rewrite matches_rep_S. eexists _, _. split; [exact H2|].
    rewrite matches_rep_S. eexists _, _. split; [exact H3|].
    rewrite matches_rep_S. eexists _, _. split; [exact H4|].
    rewrite matches_rep_S. eexists _, _. split; [exact H5|].
    by rewrite matches_rep_0.
  - exists false, (chars tail). split.
    + apply matches_octet. by exists o6.
    + repeat split. by destruct Htail as [->| ->]; [left|right].
Qed.

Lemma plain_pattern_text (mac : string) start' s' :
  matches plain_pattern true (chars mac) start' s' ->
  exists body tail,
    mac_text body /\ (tail = "" \/ tail = newline)
    /\ mac = (body ++ tail)%string.
Proof.
  intros (? & ? & (_ & -> & ->) & b12 & s12 & Hrep & Heol).
  change 12 with (2 + (2 + (2 + (2 + (2 + 2))))) in Hrep.
  assert (Hsplit : forall n m r start s start' s',
    matches (Rep (n + m) r) start s start' s' ->
    exists start1 s1,
      matches (Rep n r) start s start1 s1
      /\ matches (Rep m r) start1 s1 start' s').
  { clear. induction n as [|n IH]; intros m r start s start' s' H.
    - by exists start, s.
    - change (S n + m) with (S (n + m)) in H. rewrite matches_rep_S in H.
      destruct H as (b1 & s1 & Hr & (b2 & s2 & Hn & Hm)%IH).
      exists b2, s2. split; [|done]. rewrite matches_rep_S. by exists b1, s1. }
  apply Hsplit in Hrep as (? & ? & (o1 & Ho1 & H1 & _)%matches_octet & Hrep).
  apply Hsplit in Hrep as (? & ? & (o2 & Ho2 & H2 & _)%matches_octet & Hrep).
  apply Hsplit in Hrep as (? & ? & (o3 & Ho3 & H3 & _)%matches_octet & Hrep).
  apply Hsplit in Hrep as (? & ? & (o4 & Ho4 & H4 & _)%matches_octet & Hrep).
  apply Hsplit in Hrep as (? & ? & (o5 & Ho5 & H5 & _)%matches_octet & Hrep).
  apply matches_octet in Hrep as (o6 & Ho6 & H6 & _).
  pose proof (matches_eol _ _ _ _ Heol) as Htail.
  destruct Heol as (_ & _ & ->). subst.
  exists (o1 ++ "" ++ o2 ++ "" ++ o3 ++ "" ++ o4 ++ "" ++ o5 ++ "" ++ o6)%string.
  assert (Hmac : forall tail, s12 = chars tail ->
    mac = ((o1 ++ "" ++ o2 ++ "" ++ o3 ++ "" ++ o4 ++ "" ++ o5 ++ "" ++ o6)
           ++ tail)%string).
  { intros tail ->. apply chars_inj.
    by rewrite H1, !chars_append, <- !app_assoc. }
  destruct Htail as [Htail|Htail].
  - exists "". split; [|split; [by left|by apply Hmac]].
    exists o1, "", o2, "", o3, "", o4, "", o5, "", o6.
    repeat split; try done; by left.
  - exists newline. split; [|split; [by right|by apply Hmac]].
    exists o1, "", o2, "", o3, "", o4, "", o5, "", o6.
    repeat split; try done; by left.
Qed.

Lemma re_match_mac_pattern (mac : string) :
  re_match mac_pattern mac = true
  <-> exists body tail,
        mac_text body /\ (tail = "" \/ tail = newline)
        /\ mac = (body ++ tail)%string.
Proof.
  unfold re_match. rewrite rmatch_matches. split.
  - intros (start' & s' & [H|H] & _).
    + by eapply separated_pattern_text.
    + by eapply plain_pattern_text.
  - intros (body & tail & Hbody & Htail & ->).
    destruct (text_separated_pattern body tail Hbody Htail) as [start' H].
    exists start', (chars tail). split; [by left|done].
Qed.

(** X10.  The check accepts exactly the texts made of six pairs of
    hexadecimal digits, where each of the five places between two pairs
    holds nothing, a colon or a hyphen (each place on its own, so the
    separators may be mixed), optionally followed by one line feed.  An
    accepted text is returned as it is; any other text raises
    [ArgumentTypeError]. *)
Theorem validate_mac_address_accepts (mac : string) :
  (validate_mac_address mac = Value mac
   <-> exists body tail,
         mac_text body /\ (tail = "" \/ tail = newline)
         /\ mac = (body ++ tail)%string)
  /\ (validate_mac_address mac = Value mac
      \/ validate_mac_address mac
         = ArgumentTypeError
             ("'" ++ mac ++ "' is not a valid MAC address format.")).
Proof.
  unfold validate_mac_address. rewrite <- re_match_mac_pattern.
  destruct (re_match mac_pattern mac); simpl.
  - split; [done|by left].
  - split; [|by right]. split; intros [=].
Qed.

(** X11.  The second alternative of the pattern, twelve digits in a row,
    decides nothing: the first alternative alone accepts the same
    texts. *)
Theorem plain_pattern_redundant (mac : string) :
  re_match mac_pattern mac = re_match separated_pattern mac.
Proof.
  apply eq_true_iff_eq. rewrite re_match_mac_pattern.
  unfold re_match. rewrite rmatch_matches. split.
  - intros (body & tail & Hbody & Htail & ->).
    destruct (text_separated_pattern body tail Hbody Htail) as [start' H].
    by exists start', (chars tail).
  - intros (start' & s' & H & _). by eapply separated_pattern_text.
Qed.

End MacAddress.
(** ** The API client *)

Section Quote.

Lemma chars_concat (parts : list string) :
  chars (String.concat "" parts) = concat (chars <$> parts).
Proof.
  induction parts as [|p [|q parts] IH]; [done| |].
  - simpl. by rewrite app_nil_r.
  - change (String.concat "" (p :: q :: parts))
      with (p ++ "" ++ String.concat "" (q :: parts))%string.
    rewrite !chars_append, IH. done.
Qed.

Lemma always_safe_upper_hex_digit n : always_safe (upper_hex_digit n) = true.
Proof.
  unfold upper_hex_digit.
  do 16 (destruct n as [|n]; [reflexivity|]). by destruct n.
Qed.

Lemma url_char_quote_byte byte :
  Forall (fun c => url_char c = true) (chars (quote_byte byte)).
Proof.
  unfold quote_byte.
  destruct ((byte <? 128)%nat
            && (always_safe (ascii_of_nat byte)
                || is_char (ascii_of_nat byte) "/")) eqn:E.
  - apply andb_true_iff in E as [_ E]. repeat constructor.
    unfold url_char. by rewrite E.
  - unfold percent. repeat constructor; unfold url_char;
      by rewrite ?always_safe_upper_hex_digit.
Qed.

Lemma url_char_quote (s : string) :
  Forall (fun c => url_char c = true) (chars (quote s)).
Proof.
  unfold quote. rewrite chars_concat.
  induction (concat (utf8 <$> chars s)) as [|byte bytes IH]; [done|].
  cbn [fmap list_fmap concat]. apply Forall_app. split; [|exact IH].
  apply url_char_quote_byte.
Qed.

(** X12.  Whatever the group name is, its quoted form is made of
    letters, digits and the characters [_.-~/%] only: no blank, no [?],
    [&], [#] or [=] of the name reaches the URL. *)
Theorem quote_url_chars (s : string) :
  Forall (fun c => url_char c = true) (chars (quote s)).
Proof. apply url_char_quote. Qed.

(** *** [quote] loses nothing *)

Lemma unquote_quote_char (c : ascii) rest :
  unquote_bytes (chars (quote_byte (nat_of_ascii c)) ++ rest)
  = nat_of_ascii c :: unquote_bytes rest.
Proof. destruct c as [[] [] [] [] [] [] [] []]; reflexivity. Qed.

Lemma unquote_quote_byte byte rest :
  byte < 256 ->
  unquote_bytes (chars (quote_byte byte) ++ rest)
  = byte :: unquote_bytes rest.
Proof.
  intros Hb. rewrite <- (nat_ascii_embedding byte) by done.
  apply unquote_quote_char.
Qed.

Lemma utf8_decode_utf8 (c : ascii) rest :
  utf8_decode (utf8 c ++ rest) = c :: utf8_decode rest.
Proof. destruct c as [[] [] [] [] [] [] [] []]; reflexivity. Qed.

Lemma utf8_bytes (c : ascii) : Forall (fun byte => byte < 256) (utf8 c).
Proof.
  destruct c as [[] [] [] [] [] [] [] []]; vm_compute; repeat constructor.
Qed.

Lemma unquote_quote_bytes bytes :
  Forall (fun byte => byte < 256) bytes ->
  unquote_bytes (concat (chars <$> (quote_byte <$> bytes))) = bytes.
Proof.
  induction 1 as [|byte bytes Hb _ IH]; [done|].
  cbn [fmap list_fmap concat]. rewrite unquote_quote_byte by done.
  f_equal. exact IH.
Qed.

Lemma utf8_decode_chars (cs : list ascii) :
  utf8_decode (concat (utf8 <$> cs)) = cs.
Proof.
  induction cs as [|c cs IH]; [done|].
  cbn [fmap list_fmap concat]. rewrite utf8_decode_utf8. by f_equal.
Qed.

Lemma unquote_quote (s : string) :
  utf8_decode (unquote_bytes (chars (quote s))) = chars s.
Proof.
  unfold quote. rewrite chars_concat, unquote_quote_bytes.
  - apply utf8_decode_chars.
  - induction (chars s) as [|c cs IH]; [constructor|].
    cbn [fmap list_fmap concat]. apply Forall_app. split; [|exact IH].
    apply utf8_bytes.
Qed.

(** X13.  Two different group names never have the same quoted form:
    the text can be read back from it. *)
Theorem quote_injective (s1 s2 : string) :
  s1 <> s2 -> quote s1 <> quote s2.
Proof.
  intros Hne H. apply Hne, chars_inj.
  by rewrite <- (unquote_quote s1), <- (unquote_quote s2), H.
Qed.

Lemma quote_injective_witness : quote "lab 1" <> quote "lab%201".
Proof. apply quote_injective. discriminate. Defined.

End Quote.

Section ConfigCalls.

Variable get : get_request -> reply.
Variable self : client.

(** X14.  Neither call for a configuration sends a request unless the
    client holds both a group name and an access token; it sends at most
    one, with that token as the bearer, and its result is [None] unless
    the server's reply decodes. *)
Theorem config_calls_requests (mac_address : string) :
  let calls := [get_group_level_config get self;
                get_device_override_config get self mac_address] in
  Forall (fun call =>
    length (snd call) <= 1
    /\ Forall (fun req =>
         truthy (group_name self) = true
         /\ truthy (session_access_token self) = true
         /\ headers req
            = [("Authorization",
                ("Bearer " ++ format (session_access_token self))%string)]
         /\ (fst call <> JNull -> get req = Decoded (fst call)))
         (snd call)
    /\ (snd call = [] -> fst call = JNull)) calls.
Proof.
  assert (Hcall : forall endpoint,
    truthy (group_name self) = true ->
    let call := call_api get self endpoint in
    length (snd call) <= 1
    /\ Forall (fun req =>
         truthy (group_name self) = true
         /\ truthy (session_access_token self) = true
         /\ headers req
            = [("Authorization",
                ("Bearer " ++ format (session_access_token self))%string)]
         /\ (fst call <> JNull -> get req = Decoded (fst call)))
         (snd call)
    /\ (snd call = [] -> fst call = JNull)).
  { intros endpoint Hgroup. unfold call_api.
    destruct (truthy (session_access_token self)) eqn:Htok; simpl.
    - destruct (get _) eqn:Hget; simpl;
        (split; [lia|]); (split; [|done]); repeat constructor; done.
    - repeat split; auto. }
  cbn zeta. repeat apply Forall_cons_2; [| |constructor].
  - unfold get_group_level_config.
    destruct (truthy (group_name self)) eqn:Hgroup; simpl.
    + by apply Hcall.
    + repeat split; auto.
  - unfold get_device_override_config.
    destruct (truthy (group_name self)) eqn:Hgroup; simpl.
    + by apply Hcall.
    + repeat split; auto.
Qed.

End ConfigCalls.

Lemma always_safe_is_hex c : is_hex c = true -> always_safe c = true.
Proof. destruct c as [[] [] [] [] [] [] [] []]; vm_compute; congruence. Qed.

Lemma octet_chars o :
  octet o ->
  Forall (fun c => url_char c || is_char c ":" = true) (chars o).
Proof.
  intros (h & l & -> & Hh%always_safe_is_hex & Hl%always_safe_is_hex).
  repeat constructor; unfold url_char; by rewrite ?Hh, ?Hl.
Qed.

Lemma gap_chars g :
  gap g ->
  Forall (fun c => url_char c || is_char c ":" = true) (chars g).
Proof. intros [->|[->| ->]]; repeat constructor. Qed.

Lemma mac_text_chars mac :
  mac_text mac ->
  Forall (fun c => url_char c || is_char c ":" = true) (chars mac).
Proof.
  intros (o1 & g1 & o2 & g2 & o3 & g3 & o4 & g4 & o5 & g5 & o6 & ->
          & Ho1 & Ho2 & Ho3 & Ho4 & Ho5 & Ho6 & Hg1 & Hg2 & Hg3 & Hg4 & Hg5).
  rewrite !chars_append.
  repeat (apply Forall_app; split); auto using octet_chars, gap_chars.
Qed.

(** X15.  For a device whose MAC address the check accepted without a
    line feed at its end, the request for the device's overrides goes to
    the committed-configuration endpoint, and the name it asks for, the
    quoted group name, a slash and the address, holds nothing but
    letters, digits and the characters [_.-~/%:]. *)
Theorem device_request_name (get : get_request -> reply) (self : client)
    (group token mac : string) :
  group_name self = Some group -> group <> "" ->
  session_access_token self = Some token -> token <> "" ->
  validate_mac_address mac = Value mac ->
  (forall body, mac <> (body ++ newline)%string) ->
  exists name result,
    get_device_override_config get self mac
    = (result,
       [GetRequest
          (format (base_url (client_api self))
           ++ "/caasapi/v1/showcommand/object/committed?group_name=" ++ name)
          [("Authorization", ("Bearer " ++ token)%string)]])
    /\ name = (quote group ++ "/" ++ mac)%string
    /\ Forall (fun c => url_char c || is_char c ":" = true) (chars name).
Proof.
  intros Hgroup Hg Htoken Ht Hmac Htail.
  unfold validate_mac_address in Hmac.
  destruct (re_match mac_pattern mac) eqn:Hmatch; [|done]. clear Hmac.
  apply re_match_mac_pattern in Hmatch
    as (body & tail & Hbody & [->| ->] & ->); [|by destruct (Htail body)].
  rewrite append_nil_r in *.
  exists (quote group ++ "/" ++ body)%string,
    (fst (get_device_override_config get self body)).
  unfold get_device_override_config, call_api. rewrite Hgroup, Htoken. simpl.
  apply String.eqb_neq in Hg, Ht. rewrite Hg, Ht. simpl.
  split; [|split; [done|]].
  - by destruct (get _).
  - rewrite !chars_append. apply Forall_app. split.
    + eapply Forall_impl; [apply url_char_quote|].
      intros c Hc. simpl in Hc. by rewrite Hc.
    + change (chars (String "/" body)) with ("/"%char :: chars body).
      constructor; [done|]. by apply mac_text_chars.
Qed.

Lemma device_request_name_witness :
  exists name result,
    get_device_override_config (fun _ => HTTPError) lab_client
      "aa:bb-ccddeeff"
    = (result,
       [GetRequest
          (format (base_url (client_api lab_client))
           ++ "/caasapi/v1/showcommand/object/committed?group_name=" ++ name)
          [("Authorization", ("Bearer " ++ "access-1")%string)]])
    /\ name = (quote "Branch Offices/EU" ++ "/" ++ "aa:bb-ccddeeff")%string
    /\ Forall (fun c => url_char c || is_char c ":" = true) (chars name).
Proof.
  apply device_request_name; try reflexivity; try discriminate.
  intros body H.
  assert (Hrev : rev (chars "aa:bb-ccddeeff") = rev (chars (body ++ newline)))
    by (by rewrite H).
  rewrite chars_append, rev_app_distr in Hrev. discriminate.
Defined.
(** ** The command *)

Section MainRun.

Variable post : request -> exchange.
Variable get : get_request -> reply.
Variable env : environment.
Variable load : world -> string -> loaded.

Lemma compare_configs_report config_a config_b simplified from_file to_file :
  let '(different, printed) :=
    compare_configs config_a config_b simplified from_file to_file in
  (different = true /\ head printed = Some ConfigurationsDoNotMatch)
  \/ (different = false /\ printed = [ConfigurationsMatch]).
Proof.
  unfold compare_configs. destruct (py_eq config_a config_b); [by right|].
  by left.
Qed.

(** The ways in which a run ends: before the network is touched; at
    the constructor, without a base URL; after the configuration was
    asked for, with nothing to report; or with the report of
    [compare_configs]. *)
Lemma main_outcome writable path_exists args w :
  let o := main post get env load writable path_exists args w in
  let self := Api (ARUBA_BASE_URL env) (ARUBA_CLIENT_ID env)
                (ARUBA_CLIENT_SECRET env) in
  let w' := snd (_get_access_token post self w) in
  o = Outcome 1 w [] None []
  \/ (truthy (ARUBA_BASE_URL env) = false /\ o = Outcome 2 w' [] None [])
  \/ (truthy (ARUBA_BASE_URL env) = true /\ world_after o = w'
      /\ ((exit_code o = 1%Z /\ saved o = None /\ report o = [])
          \/ (exit_code o = 0%Z /\ report o = [])
          \/ exists config_a config_b from_file,
               (exit_code o, report o)
               = (let '(different, printed) :=
                    compare_configs config_a config_b (simplified args)
                      from_file "live_config.json" in
                  (if different then 3%Z else 0%Z, printed)))).
Proof.
  cbn zeta. unfold main, __init__.
  destruct (_get_access_token post _ w) as [token w']. cbn [snd].
  destruct (if truthy (previous_config args) then _ else _)
    as [config|o] eqn:Hsource; cbn [step_bind].
  2: { left. repeat case_match; by simplify_eq. }
  right. cbn [base_url].
  destruct (truthy (ARUBA_BASE_URL env)); cbn [negb step_bind]; [right|by left].
  split; [done|].
  destruct (if truthy (mac_address args) then _ else _) as [live gets].
  destruct (match live with JNull => _ | _ => _ end)
    as [[config' live']|o] eqn:Hboth; cbn [step_bind].
  2: { split; [|left]; repeat case_match; by simplify_eq. }
  destruct (if truthy (save_config args) then _ else _)
    as [written|o] eqn:Hsave; cbn [step_bind].
  2: { split; [|right; left]; repeat case_match; by simplify_eq. }
  destruct config'; cbn [world_after exit_code report];
    (split; [try done|]);
    try (by destruct (compare_configs _ _ _ _ _));
    try (by right; left);
    right; right; eexists _, live', _;
    destruct (compare_configs _ _ _ _ _) eqn:Hcompare;
    cbn [exit_code report]; by rewrite Hcompare.
Qed.

(** X16.  The exit status is 0, 1, 2 or 3; it is 3 exactly when
    [compare_configs] ran and reported that the configurations do not
    match, and a report that they match comes with status 0. *)
Theorem main_exit_code writable path_exists args w :
  let o := main post get env load writable path_exists args w in
  (exit_code o = 0 \/ exit_code o = 1 \/ exit_code o = 2 \/ exit_code o = 3)%Z
  /\ (exit_code o = 3%Z <-> head (report o) = Some ConfigurationsDoNotMatch)
  /\ (head (report o) = Some ConfigurationsMatch -> exit_code o = 0%Z).
Proof.
  cbn zeta.
  destruct (main_outcome writable path_exists args w)
    as [->|[[_ ->]|(_ & _ & [(-> & _ & ->)|[(-> & ->)|Hcompare]])]];
    cbn [exit_code report head]; try (repeat split; (lia || done)).
  destruct Hcompare as (a & b & from & Hcompare).
  pose proof (compare_configs_report a b (simplified args) from
                "live_config.json") as Hreport.
  destruct (compare_configs _ _ _ _ _) as [different printed].
  injection Hcompare as -> ->.
  destruct Hreport as [[-> Hhead]|[-> ->]]; rewrite ?Hhead; cbn [head];
    repeat split; (lia || done).
Qed.

(** X17.  With [--save-config] and without [--previous-config] the
    command compares nothing: the template is not loaded, nothing is
    reported, and the exit status is 0, 1 or 2, whatever the template
    and the live configuration hold. *)
Theorem save_config_never_compares writable path_exists args w :
  truthy (save_config args) = true ->
  truthy (previous_config args) = false ->
  let o := main post get env load writable path_exists args w in
  report o = []
  /\ (exit_code o = 0 \/ exit_code o = 1 \/ exit_code o = 2)%Z
  /\ forall load' : world -> string -> loaded,
       (forall w' path, path <> template args -> load' w' path = load w' path) ->
       exemptions args <> Some (template args) ->
       main post get env load' writable path_exists args w = o.
Proof.
  intros Hsave Hprev. cbn zeta. unfold main, __init__.
  rewrite Hsave, Hprev. cbn [negb orb andb step_bind].
  destruct (_get_access_token post _ w) as [token w'].
  destruct (negb (truthy (base_url _))); cbn [step_bind].
  { repeat split; auto. }
  destruct (if truthy (mac_address args) then _ else _) as [live gets].
  assert (Hboth : forall load0 : world -> string -> loaded,
    match
      match live with
      | JNull => Exit (Outcome 1 w' gets None [])
      | _ =>
          if truthy (exemptions args) then
            match load0 w' (default "" (exemptions args)) with
            | Parsed exemption_rules =>
                match
                  (a <-- (if py_truthy JNull
                          then filter_config JNull exemption_rules
                          else Ok JNull) ;;
                   b <-- filter_config live exemption_rules ;;
                   Ok (a, b))
                with
                | Ok both => Continue both
                | Raise _ => Exit (Outcome 1 w' gets None [])
                end
            | FileNotFound | InvalidJSON | OtherFailure =>
                Exit (Outcome 1 w' gets None [])
            end
          else Continue (JNull, live)
      end
    with
    | Continue both => fst both = JNull
    | Exit o => o = Outcome 1 w' gets None []
    end).
  { intros load0. cbn [py_truthy rbind].
    destruct live; try done;
      (destruct (truthy (exemptions args)); [|done]);
      (destruct (load0 w' _); try done);
      by destruct (filter_config _ _). }
  split; [|split].
  - pose proof (Hboth load) as H.
    destruct (match live with JNull => _ | _ => _ end) as [[config' live']|o];
      cbn [step_bind]; [|by subst].
    simpl in H. subst config'. simpl. repeat case_match; by simplify_eq/=.
  - pose proof (Hboth load) as H.
    destruct (match live with JNull => _ | _ => _ end) as [[config' live']|o];
      cbn [step_bind]; [|subst; auto].
    simpl in H. subst config'. simpl. repeat case_match; simplify_eq/=; auto.
  - intros load' Hload Hex.
    destruct (truthy (exemptions args)) eqn:Hexempt; [|done].
    rewrite Hload; [done|].
    intros Heq. apply Hex. destruct (exemptions args); [|done].
    simpl in Heq. by rewrite Heq.
Qed.

(** X18.  When the file to compare against cannot be loaded, the
    command stops with status 1 before it touches the network: no token
    request is sent, the token file stays as it is, and nothing is
    fetched, saved or reported. *)
Theorem main_source_not_loaded writable path_exists args w :
  truthy (previous_config args) = true \/ truthy (save_config args) = false ->
  (forall value,
     load w (if truthy (previous_config args)
             then default "" (previous_config args)
             else template args) <> Parsed value) ->
  main post get env load writable path_exists args w
  = Outcome 1 w [] None [].
Proof.
  intros Hargs Hload. unfold main.
  destruct (truthy (previous_config args)) eqn:Hprev.
  - destruct (load w _) as [value| | |]; try done. by destruct (Hload value).
  - destruct Hargs as [|Hsave]; [done|]. rewrite Hsave. cbn [negb orb].
    destruct (load w _) as [value| | |]; try done. by destruct (Hload value).
Qed.



Lemma apply_exemptions_guard_rules config_list rules :
  is_dict rules = false -> apply_exemptions config_list rules = Ok config_list.
Proof.
  intros H. destruct config_list; try done. by destruct rules.
Qed.

(** X21.  An exemption file that holds something other than a dict
    filters nothing and stops nothing: when the document to compare
    against and the live configuration are dicts, the run is the run
    without [--exemptions]. *)
Theorem main_exemptions_not_a_dict writable path_exists args w rules :
  truthy (exemptions args) = true ->
  (forall w', load w' (default "" (exemptions args)) = Parsed rules) ->
  is_dict rules = false ->
  (forall value,
     load w (if truthy (previous_config args)
             then default "" (previous_config args)
             else template args) = Parsed value ->
     is_dict value = true) ->
  (forall req body, get req = Decoded body -> is_dict body = true) ->
  main post get env load writable path_exists args w
  = main post get env load writable path_exists
      (Namespace (template args) (args_group_name args)
         (previous_config args) (save_config args) (simplified args)
         (mac_address args) None) w.
Proof.
  intros Hexempt Hrules Hdict Hsource Hlive.
  assert (Hprevious : truthy (previous_config args) = true ->
            forall value,
              load w (default "" (previous_config args)) = Parsed value ->
              is_dict value = true).
  { intros Hp. by rewrite Hp in Hsource. }
  assert (Htemplate : truthy (previous_config args) = false ->
            forall value,
              load w (template args) = Parsed value -> is_dict value = true).
  { intros Hp. by rewrite Hp in Hsource. }
  clear Hsource. unfold main.
  cbn [exemptions template args_group_name previous_config save_config
       simplified mac_address].
  change (truthy None) with false. rewrite Hexempt.
  remember (if truthy (previous_config args)
            then default "" (previous_config args)
            else template args) as from_filename eqn:Hfrom.
  clear Hfrom.
  assert (Hfilter : forall doc,
            is_dict doc = true -> filter_config doc rules = Ok doc).
  { intros [| | | | |members]; try done. intros _. unfold filter_config.
    destruct (dict_get "config" members) as [config_list|] eqn:Hget; [|done].
    rewrite apply_exemptions_guard_rules by done. simpl. do 2 f_equal.
    clear -Hget. induction members as [|[k v] members IH]; [done|].
    simpl in *. destruct (String.eqb k "config") eqn:Hk.
    - by injection Hget as ->.
    - f_equal. by apply IH. }
  destruct (if truthy (previous_config args) then _ else _)
    as [config|o] eqn:Hconfig; [|done].
  cbn [step_bind].
  destruct (__init__ post env (args_group_name args) w) as [[api|code] w'];
    [|done].
  cbn [step_bind].
  destruct (if truthy (mac_address args) then _ else _) as [live gets] eqn:Hget.
  assert (Hlive' : live = JNull \/ is_dict live = true).
  { destruct (truthy (mac_address args));
      unfold get_device_override_config, get_group_level_config, call_api
        in Hget;
      repeat case_match; simplify_eq; eauto. }
  assert (Hconfig' : py_truthy config = false \/ is_dict config = true).
  { destruct (truthy (previous_config args)).
    - destruct (load w (default "" (previous_config args))) eqn:Hload;
        simplify_eq. right. by eapply Hprevious.
    - destruct (negb (truthy (save_config args)) || false).
      + destruct (load w (template args)) eqn:Hload; simplify_eq. right.
        by eapply Htemplate.
      + simplify_eq. by left. }
  destruct Hlive' as [->|Hlive']; [done|].
  rewrite Hrules, (Hfilter live Hlive').
  destruct Hconfig' as [Hc|Hc].
  - rewrite Hc. by destruct live.
  - rewrite (Hfilter config Hc). destruct (py_truthy config); by destruct live.
Qed.

(** X22.  With [--exemptions], a live configuration whose [config] list
    holds something that is not a string ends the run with status 1 (or
    with 2, for want of a base URL): nothing is saved and nothing is
    compared. *)
Theorem main_live_line_not_text writable path_exists args w rules members
    lines :
  truthy (exemptions args) = true ->
  (forall w', load w' (default "" (exemptions args)) = Parsed (JObj rules)) ->
  (forall req body, get req = Decoded body -> body = JObj members) ->
  dict_get "config" members = Some (JArr lines) ->
  Exists (fun x => is_str x = false) lines ->
  let o := main post get env load writable path_exists args w in
  (exit_code o = 1 \/ exit_code o = 2)%Z /\ saved o = None /\ report o = [].
Proof.
  intros Hexempt Hrules Hget Hconfig Hlines. cbn zeta. unfold main.
  rewrite Hexempt.
  destruct (if truthy (previous_config args) then _ else _)
    as [config|o] eqn:Hsource; cbn [step_bind].
  2: { repeat case_match; simplify_eq; auto. }
  unfold __init__. cbn [base_url].
  destruct (_get_access_token post _ w) as [token w'].
  destruct (negb (truthy (ARUBA_BASE_URL env))); cbn [step_bind]; [auto|].
  destruct (if truthy (mac_address args) then _ else _) as [live gets] eqn:Hcall.
  assert (Hlive : live = JNull \/ live = JObj members).
  { destruct (truthy (mac_address args));
      unfold get_device_override_config, get_group_level_config, call_api
        in Hcall;
      repeat case_match; simplify_eq; auto;
      right; by eapply Hget. }
  destruct Hlive as [->| ->]; [auto|].
  rewrite Hrules.
  assert (Hraise : exists e, filter_config (JObj members) (JObj rules) = Raise e).
  { unfold filter_config. rewrite Hconfig. unfold apply_exemptions.
    destruct (filter_lines_non_string rules lines (FilterState [] false [])
                Hlines) as [e He].
    exists e. by rewrite He. }
  destruct Hraise as [e ->].
  destruct (if py_truthy config then _ else _); simpl; auto.
Qed.

End MainRun.

Lemma save_config_never_compares_witness :
  report (main lab_server lab_config_server lab_environment lab_files
            (fun _ => true) (fun _ => true) save_args fresh_world) = [].
Proof.
  refine (proj1 (save_config_never_compares lab_server lab_config_server
                   lab_environment lab_files (fun _ => true)
                   (fun _ => true) save_args fresh_world _ _));
    reflexivity.
Defined.

Lemma main_source_not_loaded_witness :
  main unreachable_server lab_config_server lab_environment
    (fun _ _ => InvalidJSON) (fun _ => true) (fun _ => true)
    compare_args fresh_world
  = Outcome 1 fresh_world [] None [].
Proof.
  apply main_source_not_loaded; [by right|]. intros value. discriminate.
Defined.


Lemma main_exemptions_not_a_dict_witness :
  main lab_server lab_config_server lab_environment lab_exemption_files
    (fun _ => true) (fun _ => true) exemption_args fresh_world
  = main lab_server lab_config_server lab_environment lab_exemption_files
      (fun _ => true) (fun _ => true) compare_args fresh_world.
Proof.
  apply (main_exemptions_not_a_dict lab_server lab_config_server
           lab_environment lab_exemption_files (fun _ => true) (fun _ => true)
           exemption_args fresh_world (JArr [JStr "interface *"])).
  - reflexivity.
  - reflexivity.
  - reflexivity.
  - intros value [= <-]. reflexivity.
  - intros req body [= <-]. reflexivity.
Defined.

Lemma main_live_line_not_text_witness :
  saved (main lab_server (fun _ => Decoded (JObj [("config", JArr [JInt 7])]))
           lab_environment lab_rule_files (fun _ => true) (fun _ => true)
           exemption_args fresh_world) = None.
Proof.
  refine (proj1 (proj2 (main_live_line_not_text lab_server
                   (fun _ => Decoded (JObj [("config", JArr [JInt 7])]))
                   lab_environment lab_rule_files (fun _ => true)
                   (fun _ => true) exemption_args fresh_world
                   [("interface *", JStr "*")] [("config", JArr [JInt 7])]
                   [JInt 7] _ _ _ _ _))).
  - reflexivity.
  - reflexivity.
  - by intros req body [= <-].
  - reflexivity.
  - by constructor.
Defined.
(** ** The configuration differ: the canonical text and the two counts *)

(** *** The canonical text does not depend on the order of the keys *)

Section Canonical.

Lemma Forall2_same_encode level (xs ys : list json) :
  Forall (fun x => wf_json x = true ->
                   forall y, same_document x y ->
                   forall level, encode level x = encode level y) xs ->
  forallb wf_json xs = true ->
  Forall2 same_document xs ys ->
  map (encode level) xs = map (encode level) ys.
Proof.
  intros IH Hwf Hsame. revert IH Hwf.
  induction Hsame as [|x y xs ys Hxy _ IHs]; intros IH Hwf; [done|].
  apply Forall_cons in IH as [IHx IH].
  simpl in Hwf. apply andb_true_iff in Hwf as [Hx Hwf].
  simpl. f_equal; [by apply IHx|by apply IHs].
Qed.

Lemma encode_same_document x :
  wf_json x = true ->
  forall y, same_document x y ->
  forall level, encode level x = encode level y.
Proof.
  induction x as [| | | |items IH|members IH] using json_nested_ind;
    intros Hwf y Hsame level;
    inversion Hsame as [| | | |? ys Hitems|? ys zs Hmembers Hperm]; subst;
    try done.
  - simpl in Hwf.
    pose proof (Forall2_same_encode (S level) _ _ IH Hwf Hitems) as Hmap.
    destruct Hitems as [|x y items ys Hxy Hitems]; [done|].
    cbn [encode]. by rewrite Hmap.
  - simpl in Hwf. apply andb_true_iff in Hwf as [Hkeys Hwf].
    assert (Hzs : map (fun e => (fst e, encode (S level) (snd e))) members
                  = map (fun e => (fst e, encode (S level) (snd e))) zs).
    { clear Hperm Hkeys Hsame. revert IH Hwf.
      induction Hmembers as [|[k v] [k' v'] members zs [Hk Hv] _ IHm];
        intros IH Hwf; [done|].
      apply Forall_cons in IH as [IHv IH].
      simpl in Hwf. apply andb_true_iff in Hwf as [Hv' Hwf].
      simpl in *. subst k'. f_equal; [|by apply IHm].
      f_equal. by apply IHv. }
    assert (Hsort :
      sort_by_key (map (fun e => (fst e, encode (S level) (snd e))) members)
      = sort_by_key (map (fun e => (fst e, encode (S level) (snd e))) ys)).
    { rewrite Hzs. apply sort_by_key_unique.
      - by apply Permutation_map.
      - rewrite <- Hzs, map_map.
        rewrite (map_ext _ fst) by done.
        by apply distinct_NoDup. }
    destruct members as [|e members].
    + inversion Hmembers; subst. apply Permutation_nil in Hperm. by subst.
    + destruct ys as [|e' ys].
      { inversion Hmembers; subst. symmetry in Hperm.
        by apply Permutation_nil in Hperm. }
      cbn [encode]. by rewrite Hsort.
Qed.

(** X23.  Two documents that differ in the order of the keys of their
    dicts only have the same canonical text: the text that
    [compare_configs] cuts into lines, and the text that
    [--save-config] writes. *)
Theorem dumps_same_document x y :
  wf_json x = true -> same_document x y -> dumps x = dumps y.
Proof. intros Hwf Hsame. by apply encode_same_document. Qed.

End Canonical.

Lemma dumps_same_document_witness :
  dumps template_doc = dumps live_doc_reordered.
Proof.
  apply dumps_same_document; [reflexivity|].
  apply (same_obj _ _ [("config", JArr [JStr "hostname sw1"; JStr "!"]);
                       ("group", JStr "lab")]).
  - repeat constructor.
  - apply perm_swap.
Defined.
(** *** The matching blocks follow one another *)

Section Apart.

Lemma apart_sym x y : apart x y -> apart y x.
Proof. unfold apart. tauto. Qed.

Lemma within_apart x r y : within x r -> apart r y -> apart x y.
Proof.
  destruct x as [[[alo ahi] blo] bhi], r as [[[alo' ahi'] blo'] bhi'],
    y as [[[alo2 ahi2] blo2] bhi2].
  unfold within, apart, before. lia.
Qed.

Lemma all_apart_app l1 l2 :
  all_apart (l1 ++ l2)
  <-> all_apart l1 /\ all_apart l2
      /\ Forall (fun x => Forall (apart x) l2) l1.
Proof.
  induction l1 as [|x l1 IH]; simpl.
  - split; [by intros H; repeat split|by intros (_ & H & _)].
  - rewrite Forall_app, IH, Forall_cons. tauto.
Qed.

Lemma all_apart_perm l1 l2 :
  Permutation l1 l2 -> all_apart l1 -> all_apart l2.
Proof.
  induction 1 as [|x l1 l2 Hperm IH|x y l|l1 l2 l3 _ IH1 _ IH2]; simpl.
  - done.
  - intros [Hx Hl]. split; [by rewrite <- Hperm|auto].
  - intros [[Hyx Hy]%Forall_cons [Hx Hl]].
    split; [|done]. constructor; [by apply apart_sym|done].
  - auto.
Qed.

End Apart.

Section Chain.

Variables a b : list string.

Local Abbreviation la := (length a).
Local Abbreviation lb := (length b).

Lemma match_queue_apart fuel : forall queue blocks,
  Forall (region_ok la lb) queue ->
  Forall (fun m => 0 < block_size m) blocks ->
  all_apart (queue ++ map block_region blocks) ->
  Forall (fun m => 0 < block_size m) (match_queue a b fuel queue blocks)
  /\ all_apart (map block_region (match_queue a b fuel queue blocks)).
Proof.
  induction fuel as [|fuel IH]; intros queue blocks Hq Hpos Hapart.
  { simpl. split; [done|]. by apply all_apart_app in Hapart as (_ & H & _). }
  destruct queue as [|[[[alo ahi] blo] bhi] queue]; simpl.
  { done. }
  apply Forall_cons in Hq as [(Ha1 & Ha2 & Hb1 & Hb2) Hq].
  pose proof (find_longest_match_inside a b alo ahi blo bhi Ha1 Hb1) as Hin.
  destruct (find_longest_match a b alo ahi blo bhi) as [[i j] k].
  destruct Hin as (Hi1 & Hi2 & Hj1 & Hj2).
  simpl in Hapart. destruct Hapart as [Hr Hapart].
  destruct (k =? 0)%nat eqn:Hk; [by apply IH|].
  apply Nat.eqb_neq in Hk.
  assert (Hsub : forall x,
            within x (alo, ahi, blo, bhi) ->
            Forall (apart x) (queue ++ map block_region blocks)).
  { intros x Hx. eapply Forall_impl; [exact Hr|].
    intros y Hy. by eapply within_apart. }
  assert (Hmid : Forall (apart (i, i + k, j, j + k))
                   (queue ++ map block_region blocks)).
  { apply Hsub. unfold within. lia. }
  assert (Hnew : forall queue',
    Forall (region_ok la lb) queue' ->
    all_apart (queue' ++ [(i, i + k, j, j + k)]) ->
    Forall (fun x => within x (alo, ahi, blo, bhi)) queue' ->
    Forall (fun m => 0 < block_size m)
      (match_queue a b fuel (queue' ++ queue) (blocks ++ [(i, j, k)]))
    /\ all_apart
         (map block_region
            (match_queue a b fuel (queue' ++ queue) (blocks ++ [(i, j, k)])))).
  { intros queue' Hok Hall Hin. apply IH.
    - by apply Forall_app.
    - apply Forall_app. split; [done|]. constructor; [|done].
      unfold block_size. simpl. lia.
    - apply (all_apart_perm
               ((queue' ++ [(i, i + k, j, j + k)])
                ++ (queue ++ map block_region blocks))).
      { rewrite map_app. simpl. rewrite <- !app_assoc.
        apply Permutation_app_head. rewrite (app_assoc queue).
        apply Permutation_cons_append. }
      apply all_apart_app. split; [done|]. split; [done|].
      apply Forall_app. split; [|by repeat constructor].
      eapply Forall_impl; [exact Hin|]. intros x Hx. by apply Hsub. }
  destruct ((i + k <? ahi)%nat && (j + k <? bhi)%nat),
    ((alo <? i)%nat && (blo <? j)%nat).
  - apply (Hnew [(i + k, ahi, j + k, bhi); (alo, i, blo, j)]).
    + repeat constructor; unfold region_ok; lia.
    + simpl. repeat split; repeat constructor; unfold apart, before; lia.
    + repeat constructor; unfold within; lia.
  - apply (Hnew [(i + k, ahi, j + k, bhi)]).
    + repeat constructor; unfold region_ok; lia.
    + simpl. repeat split; repeat constructor; unfold apart, before; lia.
    + repeat constructor; unfold within; lia.
  - apply (Hnew [(alo, i, blo, j)]).
    + repeat constructor; unfold region_ok; lia.
    + simpl. repeat split; repeat constructor; unfold apart, before; lia.
    + repeat constructor; unfold within; lia.
  - apply (Hnew []).
    + constructor.
    + simpl. by repeat split.
    + constructor.
Qed.

Lemma block_before_trans x y z :
  block_before x y -> block_before y z -> block_before x z.
Proof.
  destruct x as [[i1 j1] k1], y as [[i2 j2] k2], z as [[i3 j3] k3].
  unfold block_before, before. simpl. lia.
Qed.

Lemma insert_block_sorted x l :
  0 < block_size x ->
  Forall (fun m => 0 < block_size m) l ->
  Forall (fun m => apart (block_region x) (block_region m)) l ->
  StronglySorted block_before l ->
  StronglySorted block_before (insert_block x l).
Proof.
  intros Hx Hpos Hapart Hsorted.
  induction Hsorted as [|y l Hl IH Hy]; simpl.
  - by repeat constructor.
  - apply Forall_cons in Hpos as [Hypos Hpos].
    apply Forall_cons in Hapart as [Hxy Hapart].
    destruct x as [[i1 j1] k1], y as [[i2 j2] k2].
    unfold block_size in Hx, Hypos. simpl in Hx, Hypos.
    destruct (block_leb (i1, j1, k1) (i2, j2, k2)) eqn:Hleb.
    + assert (Hbefore : block_before (i1, j1, k1) (i2, j2, k2)).
      { unfold apart, before, block_before in *. simpl in *.
        destruct Hxy as [H|H]; [done|].
        rewrite !orb_true_iff, !andb_true_iff, !Nat.ltb_lt, !Nat.eqb_eq in Hleb.
        lia. }
      constructor; [by constructor|]. constructor; [done|].
      eapply Forall_impl; [exact Hy|]. intros z Hz.
      by eapply block_before_trans.
    + assert (Hbefore : block_before (i2, j2, k2) (i1, j1, k1)).
      { unfold apart, before, block_before in *. simpl in *.
        destruct Hxy as [H|H]; [|done].
        rewrite !orb_false_iff, !andb_false_iff, !Nat.ltb_ge, !Nat.eqb_neq in Hleb.
        lia. }
      constructor; [by apply IH|].
      rewrite insert_block_perm. by constructor.
Qed.

Lemma sort_blocks_sorted l :
  Forall (fun m => 0 < block_size m) l ->
  all_apart (map block_region l) ->
  StronglySorted block_before (sort_blocks l).
Proof.
  induction l as [|x l IH]; simpl; [constructor|].
  intros [Hx Hpos]%Forall_cons [Hxl Hl].
  apply insert_block_sorted; [done| | |by apply IH].
  - by rewrite sort_blocks_perm.
  - rewrite sort_blocks_perm. clear -Hxl.
    induction l as [|y l IHl]; [constructor|].
    simpl in Hxl. apply Forall_cons in Hxl as [Hy Hxl]. constructor; auto.
Qed.

Lemma chain_weaken blocks i j i' j' :
  i' <= i -> j' <= j -> chain i j blocks -> chain i' j' blocks.
Proof.
  destruct blocks as [|[[ai bj] size] blocks]; [done|]. simpl.
  intros Hi Hj (Hai & Hbj & Hrest). repeat split; (lia || done).
Qed.

Lemma sorted_chain blocks :
  StronglySorted block_before blocks -> chain 0 0 blocks.
Proof.
  induction 1 as [|[[ai bj] size] blocks Hsorted IH Hall]; simpl; [done|].
  repeat split; try lia.
  destruct blocks as [|[[ai' bj'] size'] blocks]; [done|].
  apply Forall_cons in Hall as [Hnext _].
  unfold block_before, before in Hnext. simpl in *.
  destruct IH as (_ & _ & IH). repeat split; (lia || done).
Qed.

Lemma collapse_chain blocks : forall i1 j1 k1,
  chain (i1 + k1) (j1 + k1) blocks ->
  chain i1 j1 (collapse i1 j1 k1 blocks).
Proof.
  induction blocks as [|[[i2 j2] k2] blocks IH]; intros i1 j1 k1 Hchain;
    cbn [collapse].
  - destruct (k1 =? 0)%nat; simpl; [done|lia].
  - simpl in Hchain. destruct Hchain as (Hi & Hj & Hchain).
    destruct ((i1 + k1 =? i2)%nat && (j1 + k1 =? j2)%nat) eqn:E.
    + apply andb_true_iff in E as [Hi'%Nat.eqb_eq Hj'%Nat.eqb_eq].
      apply IH. by replace (i1 + (k1 + k2)) with (i2 + k2) by lia;
        replace (j1 + (k1 + k2)) with (j2 + k2) by lia.
    + specialize (IH i2 j2 k2 Hchain).
      destruct (k1 =? 0)%nat; simpl.
      * eapply chain_weaken; [| |exact IH]; lia.
      * repeat split; try lia. eapply chain_weaken; [| |exact IH]; lia.
Qed.

(** The blocks of [get_matching_blocks], without the sentinel that ends
    them, lie in [a] and [b] and follow one another. *)
Lemma get_matching_blocks_chain :
  exists blocks,
    get_matching_blocks a b = blocks ++ [(la, lb, 0)]
    /\ Forall (inside 0 la 0 lb) blocks
    /\ chain 0 0 blocks.
Proof.
  unfold get_matching_blocks. eexists. split; [reflexivity|].
  set (found := match_queue a b (2 * la + 1) [(0, la, 0, lb)] []).
  destruct (match_queue_inside a b (2 * la + 1) [(0, la, 0, lb)] [])
    as [Hall _].
  { constructor; [|done]. unfold region_ok. lia. }
  { done. }
  { unfold queue_room, total_size. simpl. lia. }
  destruct (match_queue_apart (2 * la + 1) [(0, la, 0, lb)] [])
    as [Hpos Hapart].
  { constructor; [|done]. unfold region_ok. lia. }
  { done. }
  { simpl. by repeat constructor. }
  fold found in Hall, Hpos, Hapart.
  destruct (collapse_inside a b (sort_blocks found) 0 0 0) as [Hall' _].
  { unfold inside. lia. }
  { by rewrite sort_blocks_perm. }
  split; [done|].
  apply collapse_chain. simpl. by apply sorted_chain, sort_blocks_sorted.
Qed.

(** *** What the opcodes add and remove *)

Lemma removed_app codes1 codes2 :
  removed a (codes1 ++ codes2) = removed a codes1 + removed a codes2.
Proof. apply sum_list_with_app. Qed.

Lemma opcodes_from_balance blocks : forall i j,
  i <= la -> j <= lb ->
  chain i j blocks ->
  Forall (inside 0 la 0 lb) blocks ->
  added b (opcodes_from i j (blocks ++ [(la, lb, 0)]))
  + total_size blocks + j = lb
  /\ removed a (opcodes_from i j (blocks ++ [(la, lb, 0)]))
     + total_size blocks + i = la.
Proof.
  assert (Hgap : forall i ai j bj,
    i <= ai -> ai <= la -> j <= bj -> bj <= lb ->
    let gap :=
      if (i <? ai)%nat && (j <? bj)%nat then [Opcode Replace i ai j bj]
      else if (i <? ai)%nat then [Opcode Delete i ai j bj]
      else if (j <? bj)%nat then [Opcode Insert i ai j bj]
      else [] in
    added b gap = bj - j /\ removed a gap = ai - i).
  { intros i ai j bj Hi Hai Hj Hbj.
    destruct (i <? ai)%nat eqn:Ei, (j <? bj)%nat eqn:Ej; simpl;
      unfold added, removed, added_by, removed_by; simpl;
      rewrite ?slice_length by done;
      apply Nat.ltb_lt in Ei || apply Nat.ltb_ge in Ei;
      apply Nat.ltb_lt in Ej || apply Nat.ltb_ge in Ej; lia. }
  induction blocks as [|[[ai bj] size] blocks IH]; intros i j Hi Hj Hchain Hall.
  - cbn [app opcodes_from]. rewrite !added_app, !removed_app.
    destruct (Hgap i la j lb) as [-> ->]; try lia.
    change (total_size []) with 0. simpl. lia.
  - apply Forall_cons in Hall as [(_ & Hai & _ & Hbj) Hall].
    simpl in Hchain. destruct Hchain as (Hi' & Hj' & Hchain).
    change (((ai, bj, size) :: blocks) ++ [(la, lb, 0)])
      with ((ai, bj, size) :: (blocks ++ [(la, lb, 0)])).
    cbn [opcodes_from]. rewrite !added_app, !removed_app.
    destruct (Hgap i ai j bj) as [-> ->]; try lia.
    destruct (IH (ai + size) (bj + size)) as [Hadd Hrem];
      [lia|lia|done|done|].
    rewrite total_size_cons.
    assert (Hequal :
      added b (if (size =? 0)%nat then []
               else [Opcode Equal ai (ai + size) bj (bj + size)]) = 0
      /\ removed a (if (size =? 0)%nat then []
                    else [Opcode Equal ai (ai + size) bj (bj + size)]) = 0).
    { by destruct (size =? 0)%nat. }
    destruct Hequal as [-> ->]. lia.
Qed.

Lemma get_opcodes_balance :
  added b (get_opcodes a b) + la = removed a (get_opcodes a b) + lb.
Proof.
  unfold get_opcodes.
  destruct get_matching_blocks_chain as (blocks & -> & Hall & Hchain).
  destruct (opcodes_from_balance blocks 0 0) as [Hadd Hrem];
    [lia|lia|done|done|].
  set (t := total_size _) in *. set (n := added _ _) in *.
  set (m := removed _ _) in *. lia.
Qed.

(** Grouping keeps every change. *)
Lemma removed_changes codes : removed a (changes codes) = removed a codes.
Proof.
  unfold removed, changes.
  induction codes as [|[[] i1 i2 j1 j2] codes IH]; simpl; rewrite ?IH; done.
Qed.

Lemma get_grouped_opcodes_removed n :
  removed a (concat (get_grouped_opcodes a b n)) = removed a (get_opcodes a b).
Proof.
  unfold get_grouped_opcodes.
  rewrite <- removed_changes, changes_group_codes, app_nil_l.
  rewrite changes_fix_last, changes_fix_first, removed_changes.
  by destruct (get_opcodes a b).
Qed.

(** *** The lines of the diff that start with [-] *)

Hypothesis a_lines : Forall (fun line => startswith "--" line = false) a.

Lemma slice_a_removals i1 i2 :
  Forall (fun line => is_removal ("-" ++ line) = true) (slice a i1 i2).
Proof.
  unfold slice. apply Forall_take, Forall_drop.
  eapply Forall_impl; [exact a_lines|].
  intros line Hline. unfold is_removal, startswith in *. simpl.
  rewrite Hline. by destruct line.
Qed.

Lemma count_removed_opcode_lines c :
  count_lines is_removal (opcode_lines a b c) = removed_by a c.
Proof.
  unfold opcode_lines, removed_by. destruct (op_tag c).
  - rewrite count_lines_app, count_prefix_lines_all by apply slice_a_removals.
    rewrite count_prefix_lines_none by done. lia.
  - by rewrite count_prefix_lines_all by apply slice_a_removals.
  - by rewrite count_prefix_lines_none.
  - by rewrite count_prefix_lines_none.
Qed.

Lemma count_removed_opcodes_lines codes :
  count_lines is_removal (concat (map (opcode_lines a b) codes))
  = removed a codes.
Proof.
  induction codes as [|c codes IH]; [done|].
  cbn [map concat]. rewrite count_lines_app, count_removed_opcode_lines, IH.
  done.
Qed.

Lemma count_removed_hunk group :
  count_lines is_removal (hunk a b group) = removed a group.
Proof.
  unfold hunk. destruct group as [|c group]; [done|].
  destruct (last (c :: group)) as [c'|] eqn:Hlast.
  - cbn [count_lines]. change (is_removal _) with false. cbn [Nat.add].
    apply count_removed_opcodes_lines.
  - by apply last_None in Hlast.
Qed.

Lemma count_removed_unified_diff fromfile tofile :
  count_lines is_removal (unified_diff a b fromfile tofile)
  = removed a (concat (get_grouped_opcodes a b 3)).
Proof.
  unfold unified_diff.
  destruct (get_grouped_opcodes a b 3) as [|g groups]; [done|].
  cbn [count_lines]. change (is_removal ("--- " ++ fromfile)) with false.
  change (is_removal ("+++ " ++ tofile)) with false.
  cbn [Nat.add]. induction (g :: groups) as [|g' gs IH]; [done|].
  cbn [map concat]. rewrite count_lines_app, count_removed_hunk, IH.
  by rewrite removed_app.
Qed.

Hypothesis b_lines : Forall (fun line => startswith "++" line = false) b.

(** What [unified_diff] marks with [+] and with [-] accounts for the
    difference in length of the two lists of lines. *)
Lemma unified_diff_balance fromfile tofile :
  count_lines is_addition (unified_diff a b fromfile tofile) + la
  = count_lines is_removal (unified_diff a b fromfile tofile) + lb.
Proof.
  rewrite count_unified_diff by done.
  rewrite count_removed_unified_diff.
  rewrite get_grouped_opcodes_added, get_grouped_opcodes_removed.
  apply get_opcodes_balance.
Qed.

End Chain.
(** *** No line of the canonical text starts with two signs *)

Section Signs.

Lemma no_minus_append_comma l :
  no_minus l = true -> no_minus (l ++ ",") = true.
Proof.
  destruct l as [|c l]; [done|]. unfold no_minus, startswith.
  cbn [String.append String.prefix]. destruct (ascii_dec _ _); [|done].
  by rewrite !prefix_empty.
Qed.

Lemma no_minus_indent level s : no_minus (spaces (2 * S level) ++ s) = true.
Proof. reflexivity. Qed.

Lemma no_minus_close level s :
  no_minus s = true -> no_minus (spaces (2 * level) ++ s) = true.
Proof. by destruct level. Qed.

Lemma encode_lines_tail_no_minus o : forall level,
  Forall (fun line => no_minus line = true) (tail (encode_lines level o)).
Proof.
  induction o as [|[]|z|s|items IH|members IH] using json_nested_ind;
    intros level; try done.
  - destruct items as [|x items]; [done|].
    cbn [encode_lines tail]. apply Forall_app. split.
    + apply Forall_body_lines.
      * apply no_minus_indent.
      * apply (no_minus_indent level "").
      * apply no_minus_append_comma.
      * apply Forall_map. eapply Forall_impl; [exact IH|].
        intros y Hy. apply Hy.
    + repeat constructor. by apply no_minus_close.
  - destruct members as [|e members]; [done|].
    cbn [encode_lines tail]. apply Forall_app. split.
    + apply Forall_body_lines.
      * apply no_minus_indent.
      * apply (no_minus_indent level "").
      * apply no_minus_append_comma.
      * apply Forall_map. rewrite sort_by_key_perm. apply Forall_map.
        eapply Forall_impl; [exact IH|]. intros [k v] Hv. cbn [fst snd] in *.
        specialize (Hv (S level)).
        by destruct (encode_lines (S level) v).
    + repeat constructor. by apply no_minus_close.
Qed.

Lemma no_minus_startswith line :
  no_minus line = true -> startswith "--" line = false.
Proof.
  unfold no_minus, startswith. destruct line as [|c line]; [done|].
  cbn [String.prefix]. destruct (ascii_dec _ _); [|done].
  by rewrite prefix_empty.
Qed.

Lemma int_str_signs z :
  startswith "++" (int_str z) = false /\ startswith "--" (int_str z) = false.
Proof.
  unfold int_str. destruct (Z.to_int z) as [d|d]; simpl.
  - by destruct d.
  - by destruct d.
Qed.

(** The first line of a value: a bracket, a word, a quote, or a number
    with at most one sign. *)
Lemma encode_lines_head_signs o level :
  match encode_lines level o with
  | line :: _ =>
      startswith "++" line = false /\ startswith "--" line = false
  | [] => True
  end.
Proof.
  destruct o as [|[]|z|s|[|x items]|[|e members]]; try done.
  apply int_str_signs.
Qed.

Lemma encode_lines_signs o :
  Forall (fun line => startswith "++" line = false) (encode_lines 0 o)
  /\ Forall (fun line => startswith "--" line = false) (encode_lines 0 o).
Proof.
  pose proof (encode_lines_head_signs o 0) as Hhead.
  pose proof (encode_lines_tail_no_plus o 0) as Hplus.
  pose proof (encode_lines_tail_no_minus o 0) as Hminus.
  destruct (encode_lines 0 o) as [|line lines]; [done|].
  destruct Hhead as [H1 H2]. simpl in Hplus, Hminus. split.
  - constructor; [done|]. eapply Forall_impl; [exact Hplus|].
    intros l. apply no_plus_startswith.
  - constructor; [done|]. eapply Forall_impl; [exact Hminus|].
    intros l. apply no_minus_startswith.
Qed.

End Signs.

(** *** The summary of [compare_configs] *)

(** X24.  When two configurations differ, the two counts of the summary
    account for the difference in size of the canonical texts: the
    lines added, less the lines removed, are the lines that the second
    text has more than the first. *)
Theorem compare_configs_balance config_a config_b simplified from_file to_file :
  py_eq config_a config_b = false ->
  exists diff additions removals,
    compare_configs config_a config_b simplified from_file to_file
    = (true, [ConfigurationsDoNotMatch]
         ++ (if simplified then [] else DetailedDifferences :: map DiffLine diff)
         ++ [Summary additions removals])
    /\ additions + length (splitlines (dumps config_a))
       = removals + length (splitlines (dumps config_b)).
Proof.
  intros Hne. unfold compare_configs. rewrite Hne.
  eexists _, _, _. split; [reflexivity|].
  rewrite !splitlines_dumps.
  apply unified_diff_balance; apply encode_lines_signs.
Qed.

Lemma compare_configs_balance_witness :
  exists diff additions removals,
    compare_configs template_doc (JObj [("group", JStr "lab")]) false
      "template.json" "live_config.json"
    = (true, [ConfigurationsDoNotMatch]
         ++ (if false then [] else DetailedDifferences :: map DiffLine diff)
         ++ [Summary additions removals])
    /\ additions + length (splitlines (dumps template_doc))
       = removals + length (splitlines (dumps (JObj [("group", JStr "lab")]))).
Proof. apply compare_configs_balance. reflexivity. Defined.
